(** * EchoSave: rolling audio buffer, incident store, batch analysis client,
      live duplex session and PCM utilities

    A shallow embedding of the TypeScript sources.  JavaScript numbers that
    hold millisecond timestamps and element counts are integers and are
    modelled by [Z]; a [Uint8Array] is a [list byte]; a JavaScript string
    whose code units are below 256 (identifiers, base64 text, MIME types,
    the transcript) is a Rocq [string], one character per code unit; the
    text read by [JSON.parse] and the strings it produces are lists of
    UTF-16 code units; playback times, which are seconds, are IEEE 754
    binary64 numbers with the operations of [SpecFloat]; React state and
    [useRef] cells are threaded explicitly through the handlers. *)

From Stdlib Require Import Strings.String Strings.Ascii Strings.Byte.
From Stdlib Require Import ZArith QArith List Bool Lia.
From Stdlib Require Import Floats.SpecFloat.
From Stdlib Require DecimalString DecimalZ DecimalPos.
Import ListNotations.

Local Open Scope Z_scope.
Set Warnings "-register-all".

(** ** Platform values *)

(** A [Blob]: an immutable byte block with a MIME type. *)
Record Blob := mkBlob { blob_bytes : list byte; blob_type : string }.

(** [new Blob(parts, { type })] concatenates the bytes of its parts. *)
Definition newBlob (parts : list Blob) (type : string) : Blob :=
  mkBlob (concat (map blob_bytes parts)) type.

Definition blob_size (b : Blob) : Z := Z.of_nat (length (blob_bytes b)).

(** The empty string is the only falsy string. *)
Definition is_empty (s : string) : bool :=
  match s with
  | EmptyString => true
  | String _ _ => false
  end.

(** The numbers that hold playback times, as JavaScript has them: IEEE 754
    binary64 values, with addition and division rounded to nearest, ties
    to even. *)
Module Double.

Definition t : Type := spec_float.

Definition prec : Z := 53.
Definition emax : Z := 1024.

Definition zero : t := S754_zero false.

(** The number nearest to an integer. *)
Definition of_Z (n : Z) : t := binary_normalize prec emax n 0 false.

Definition add (x y : t) : t := SFadd prec emax x y.
Definition div (x y : t) : t := SFdiv prec emax x y.

(** [x < y]; false when either side is NaN. *)
Definition ltb (x y : t) : bool := SFltb x y.

(** The exact value of a finite number. *)
Definition toQ (x : t) : option Q :=
  match x with
  | S754_zero _ => Some 0%Q
  | S754_finite s m e =>
      let v :=
        match e with
        | Zneg p => Qmake (Zpos m) (2 ^ p)%positive
        | _ => inject_Z (Zpos m * 2 ^ e)
        end in
      Some (if s then Qopp v else v)
  | _ => None
  end.

(** [x <= y]; false when either side is NaN. *)
Definition leb (x y : t) : bool := SFleb x y.

(** What a clock can read: zero or a positive finite number. *)
Definition is_time (x : t) : bool :=
  match x with
  | S754_zero false => true
  | S754_finite false _ _ => valid_binary prec emax x
  | _ => false
  end.

(** What a sum of times can be: a time, or [+Infinity] when it overflows. *)
Definition is_cursor (x : t) : bool :=
  match x with
  | S754_zero false => true
  | S754_infinity false => true
  | S754_finite false _ _ => valid_binary prec emax x
  | _ => false
  end.

End Double.

(** The exponent of the format for a number of a given magnitude. *)
Abbreviation fexp := (SpecFloat.fexp Double.prec Double.emax).

(** An [AudioContext], seen through its clock and through the sample rates
    its [createBuffer] accepts.  Every implementation accepts the rates from
    8000 to 96000; [extendedRates] tells which others this one accepts. A
    sample rate is held as a 32-bit float, which is exact for the whole
    numbers below 2^24. *)
Record AudioContext := mkContext {
  currentTime : Double.t;
  extendedRates : positive -> bool
}.

Definition supportsRate (context : AudioContext) (rate : positive) : bool :=
  ((8000 <=? rate) && (rate <=? 96000))%positive ||
  ((rate <? 16777216)%positive && extendedRates context rate).

(** The outcome of [FileReader.readAsDataURL]: an [error] event, or a
    [loadend] event with the data URL in [reader.result]. *)
Inductive ReadOutcome : Type :=
| ReadFailed (detail : string)
| Loaded (result : string).

(** ** JavaScript numbers

    A number is NaN, an infinity or a finite value. Finite values are kept
    as exact rationals; negative zero is not distinguished from zero. *)
Module Num.

Inductive number : Type :=
| NaN
| Infinity (negative : bool)
| Finite (q : Q).

Definition of_Z (z : Z) : number := Finite (inject_Z z).

(** [x < y]; false when either side is NaN. *)
Definition ltb (x y : number) : bool :=
  match x, y with
  | NaN, _ | _, NaN => false
  | Infinity true, Infinity true => false
  | Infinity true, _ => true
  | _, Infinity true => false
  | Infinity false, _ => false
  | Finite _, Infinity false => true
  | Finite a, Finite b => if Qlt_le_dec a b then true else false
  end.

(** [x <= y]; false when either side is NaN. *)
Definition leb (x y : number) : bool :=
  match x, y with
  | NaN, _ | _, NaN => false
  | Infinity true, _ => true
  | _, Infinity false => true
  | Infinity false, _ => false
  | Finite _, Infinity true => false
  | Finite a, Finite b => if Qlt_le_dec b a then false else true
  end.

(** [Math.min(x, y)] and [Math.max(x, y)]: NaN if either argument is NaN. *)
Definition min (x y : number) : number :=
  match x, y with
  | NaN, _ | _, NaN => NaN
  | _, _ => if ltb y x then y else x
  end.

Definition max (x y : number) : number :=
  match x, y with
  | NaN, _ | _, NaN => NaN
  | _, _ => if ltb x y then y else x
  end.

Definition is_zero (q : Q) : bool := (Qnum q =? 0)%Z.
Definition is_neg (q : Q) : bool := (Qnum q <? 0)%Z.

(** [x * y]. *)
Definition mul (x y : number) : number :=
  match x, y with
  | NaN, _ | _, NaN => NaN
  | Infinity s, Infinity t => Infinity (xorb s t)
  | Infinity s, Finite b | Finite b, Infinity s =>
      if is_zero b then NaN else Infinity (xorb s (is_neg b))
  | Finite a, Finite b => Finite (a * b)
  end.

(** Rounding toward zero. *)
Definition truncate (q : Q) : Z := Z.quot (Qnum q) (Zpos (Qden q)).

(** Two's complement reading of the low 16 bits. *)
Definition wrap16 (n : Z) : Z :=
  let m := n mod 65536 in
  if (m >=? 32768)%Z then m - 65536 else m.

(** The conversion applied by a store into an [Int16Array]. *)
Definition ToInt16 (x : number) : Z :=
  match x with
  | NaN | Infinity _ => 0
  | Finite q => wrap16 (truncate q)
  end.

End Num.

(** ** utils/audioUtils.ts *)
Module AudioUtils.

Definition code (c : ascii) : Z := Z.of_N (N_of_ascii c).

(** *** The platform's [btoa] and [atob] *)

Definition alphabet : string :=
  "ABCDEFGHIJKLMNOPQRSTUVWXYZabcdefghijklmnopqrstuvwxyz0123456789+/".

Definition encode_sextet (n : Z) : ascii :=
  match String.get (Z.to_nat n) alphabet with
  | Some c => c
  | None => "="%char
  end.

Definition decode_char (c : ascii) : option Z :=
  let n := code c in
  if (65 <=? n) && (n <=? 90) then Some (n - 65)
  else if (97 <=? n) && (n <=? 122) then Some (n - 71)
  else if (48 <=? n) && (n <=? 57) then Some (n + 4)
  else if n =? 43 then Some 62
  else if n =? 47 then Some 63
  else None.

(** A sextet: a number that one base64 character stands for. *)
Definition sextet_ok (n : Z) : Prop := 0 <= n < 64.

(** The padding that can end an encoded text. *)
Definition padding_ok (pad : list ascii) : Prop :=
  pad = [] \/ pad = ["="%char] \/ pad = ["="%char; "="%char].

(** Three bytes become four sextets; a final group of one or two bytes is
    padded with ['=']. *)
Fixpoint btoa_groups (s : list ascii) : list ascii :=
  match s with
  | [] => []
  | [a] =>
      [encode_sextet (code a / 4); encode_sextet (code a mod 4 * 16);
       "="%char; "="%char]
  | [a; b] =>
      [encode_sextet (code a / 4);
       encode_sextet (code a mod 4 * 16 + code b / 16);
       encode_sextet (code b mod 16 * 4); "="%char]
  | a :: b :: c :: rest =>
      encode_sextet (code a / 4)
      :: encode_sextet (code a mod 4 * 16 + code b / 16)
      :: encode_sextet (code b mod 16 * 4 + code c / 64)
      :: encode_sextet (code c mod 64)
      :: btoa_groups rest
  end.

(** [btoa] of a binary string (every code unit below 256, which the type
    [string] guarantees). *)
Definition btoa (binary : string) : string :=
  string_of_list_ascii (btoa_groups (list_ascii_of_string binary)).

Definition is_ascii_whitespace (c : ascii) : bool :=
  let n := code c in
  (n =? 9) || (n =? 10) || (n =? 12) || (n =? 13) || (n =? 32).

Definition is_pad (c : ascii) : bool := code c =? 61.

(** When the length is a multiple of four, one or two trailing ['=']
    are removed. *)
Definition strip_padding (d : list ascii) : list ascii :=
  if (Z.of_nat (List.length d) mod 4 =? 0) then
    match rev d with
    | p1 :: p2 :: r =>
        if is_pad p1 then (if is_pad p2 then rev r else rev (p2 :: r)) else d
    | [p1] => if is_pad p1 then [] else d
    | [] => d
    end
  else d.

Fixpoint sextets (d : list ascii) : option (list Z) :=
  match d with
  | [] => Some []
  | c :: rest =>
      match decode_char c, sextets rest with
      | Some n, Some ns => Some (n :: ns)
      | _, _ => None
      end
  end.

Definition byte_char (n : Z) : ascii := ascii_of_N (Z.to_N n).

(** Four sextets become three bytes; two or three left-over sextets give
    one or two bytes, their surplus bits being dropped. *)
Fixpoint decode_groups (l : list Z) : list ascii :=
  match l with
  | s1 :: s2 :: s3 :: s4 :: rest =>
      byte_char (s1 * 4 + s2 / 16)
      :: byte_char (s2 mod 16 * 16 + s3 / 4)
      :: byte_char (s3 mod 4 * 64 + s4)
      :: decode_groups rest
  | [s1; s2; s3] =>
      [byte_char (s1 * 4 + s2 / 16); byte_char (s2 mod 16 * 16 + s3 / 4)]
  | [s1; s2] => [byte_char (s1 * 4 + s2 / 16)]
  | _ => []
  end.

(** [atob]: forgiving base64 decoding; [None] stands for the
    [InvalidCharacterError] exception. *)
Definition atob (data : string) : option string :=
  let d := filter (fun c => negb (is_ascii_whitespace c)) (list_ascii_of_string data) in
  let d := strip_padding d in
  if (Z.of_nat (List.length d) mod 4 =? 1) then None else
  match sextets d with
  | Some l => Some (string_of_list_ascii (decode_groups l))
  | None => None
  end.

(** *** Live API helpers *)

(** [base64ToUint8Array]: [bytes[i] = binaryString.charCodeAt(i)]. *)
Definition base64ToUint8Array (base64 : string) : option (list byte) :=
  match atob base64 with
  | Some binaryString => Some (map byte_of_ascii (list_ascii_of_string binaryString))
  | None => None
  end.

(** [uint8ArrayToBase64]: [binary += String.fromCharCode(bytes[i])]. *)
Definition uint8ArrayToBase64 (bytes : list byte) : string :=
  let binary := string_of_list_ascii (map ascii_of_byte bytes) in
  btoa binary.

(** [s.split(sep)] for a one-character separator: the first piece and the
    pieces after it. *)
Fixpoint split_at (sep : ascii) (s : string) : string * list string :=
  match s with
  | EmptyString => (EmptyString, [])
  | String c r =>
      let (piece, pieces) := split_at sep r in
      if Ascii.eqb c sep then (EmptyString, piece :: pieces)
      else (String c piece, pieces)
  end.

Definition split (sep : ascii) (s : string) : list string :=
  let (piece, pieces) := split_at sep s in piece :: pieces.

(** Whether a character occurs in a string. *)
Definition contains (c : ascii) (s : string) : bool :=
  existsb (Ascii.eqb c) (list_ascii_of_string s).

(** [blobToBase64]: the promise is rejected ([inl]) when the reader fires
    [error]; otherwise it resolves to [result.split(',')[1]], which is
    [undefined] ([None]) when the result holds no comma. *)
Definition blobToBase64 (readAsDataURL : Blob -> ReadOutcome) (blob : Blob)
    : string + option string :=
  match readAsDataURL blob with
  | ReadFailed detail => inl detail
  | Loaded result => inr (nth_error (split "," result) 1)
  end.

(** The data URL that a reader gives for a blob with a MIME type that it
    could read. *)
Definition dataURL (blob : Blob) : string :=
  ("data:" ++ blob_type blob ++ ";base64," ++ uint8ArrayToBase64 (blob_bytes blob))%string.

(** [float32ToInt16PCM]. *)
Definition float32ToInt16PCM (float32Data : list Num.number) : list Z :=
  map (fun x =>
         let s := Num.max (Num.of_Z (-1)) (Num.min (Num.of_Z 1) x) in
         Num.ToInt16
           (if Num.ltb s (Num.of_Z 0)
            then Num.mul s (Num.of_Z 32768)   (* 0x8000 *)
            else Num.mul s (Num.of_Z 32767))) (* 0x7FFF *)
      float32Data.

(** An [AudioBuffer] with one channel. *)
Record AudioBuffer := mkAudioBuffer {
  sampleRate : positive;
  channelData : list Q
}.

Definition frameCount (b : AudioBuffer) : Z := Z.of_nat (List.length (channelData b)).

(** [AudioBuffer.duration], in seconds: the quotient of the length by the
    sample rate, as a number. *)
Definition duration (b : AudioBuffer) : Double.t :=
  Double.div (Double.of_Z (frameCount b)) (Double.of_Z (Zpos (sampleRate b))).

(** The time the frames of a clip take to play, as an exact rational. *)
Definition exact_duration (b : AudioBuffer) : Q := Qmake (frameCount b) (sampleRate b).

(** The [Int16Array] view of a byte block (little-endian); a trailing odd
    byte is not part of the view. *)
Fixpoint int16_view (bytes : list byte) : list Z :=
  match bytes with
  | lo :: hi :: rest =>
      Num.wrap16 (Z.of_N (Byte.to_N lo) + 256 * Z.of_N (Byte.to_N hi)) :: int16_view rest
  | _ => []
  end.

(** [pcmToAudioBuffer]; [context.createBuffer] raises NotSupportedError
    ([None]) for a clip without frames and for a sample rate that the
    context does not support. *)
Definition pcmToAudioBuffer (pcmData : list byte) (context : AudioContext)
    (rate : positive) : option AudioBuffer :=
  let dataInt16 := int16_view pcmData in
  if (List.length dataInt16 =? 0)%nat then None
  else if negb (supportsRate context rate) then None
  else Some (mkAudioBuffer rate (map (fun v => Qmake v 32768) dataInt16)).

(** The byte with value [n mod 256]. *)
Definition byte_of_Z (n : Z) : byte :=
  match Byte.of_N (Z.to_N (n mod 256)) with
  | Some b => b
  | None => x00%byte
  end.

(** [new Uint8Array(int16.buffer)]: the bytes behind an [Int16Array]
    (little-endian, two's complement), two per element. *)
Definition int16_bytes (int16 : list Z) : list byte :=
  flat_map (fun v =>
              let u := v mod 65536 in
              [byte_of_Z u; byte_of_Z (u / 256)]) int16.

(** [n.toString()] for an integer [n]. *)
Definition toString (n : Z) : string :=
  DecimalString.NilZero.string_of_int (Z.to_int n).

(** [s.padStart(targetLength, pad)] for a one-character [pad]. *)
Definition padStart (targetLength : nat) (pad : ascii) (s : string) : string :=
  (string_of_list_ascii (repeat pad (targetLength - String.length s)) ++ s)%string.

(** [formatDuration], for a whole number of seconds: [Math.floor(seconds /
    60)] is the floor quotient and [seconds % 60] the remainder with the
    sign of [seconds]. *)
Definition formatDuration (seconds : Z) : string :=
  let mins := seconds / 60 in
  let secs := Z.rem seconds 60 in
  (toString mins ++ ":" ++ padStart 2 "0" (toString secs))%string.

(** The decimal digit character of [k]. *)
Definition digit (k : Z) : ascii := ascii_of_N (Z.to_N (48 + k)).

End AudioUtils.

(** Values produced by [JSON.parse]. Numbers keep their lexeme. *)
Module JSON.

(** A JavaScript string without a bound on its code units: the list of its
    UTF-16 code units. *)
Definition jstring : Type := list N.

(** The code unit of a character, and the code units of a [string]. *)
Definition u (c : ascii) : N := N_of_ascii c.
Definition units (s : string) : jstring := map u (list_ascii_of_string s).

Fixpoint eqb (a b : jstring) : bool :=
  match a, b with
  | [], [] => true
  | x :: a', y :: b' => (x =? y)%N && eqb a' b'
  | _, _ => false
  end.

Inductive value : Type :=
| JNull
| JBool (b : bool)
| JNumber (lexeme : string)
| JString (s : jstring)
| JArray (items : list value)
| JObject (members : list (jstring * value)).

(** Property read [o.key]: the last member with that name wins. *)
Fixpoint assoc (key : jstring) (members : list (jstring * value)) : option value :=
  match members with
  | [] => None
  | (k, v) :: rest =>
      match assoc key rest with
      | Some w => Some w
      | None => if eqb k key then Some v else None
      end
  end.

Definition get (key : string) (v : value) : option value :=
  match v with
  | JObject members => assoc (units key) members
  | _ => None
  end.

Definition has (key : string) (v : value) : bool :=
  match get key v with Some _ => true | None => false end.

(** *** [JSON.parse]

    A recursive descent reader of the JSON grammar over code units. [None]
    stands for the [SyntaxError] exception. The fuel bounds the number of
    nested calls; twice the text length is enough for every text (lemma
    [parse_fuel]). *)

Definition is_ws (c : N) : bool :=
  ((c =? 32) || (c =? 9) || (c =? 10) || (c =? 13))%N.

Definition is_digit (c : N) : bool := ((48 <=? c) && (c <=? 57))%N.

Fixpoint skip_ws (s : list N) : list N :=
  match s with
  | c :: r => if is_ws c then skip_ws r else s
  | [] => []
  end.

Definition hex_digit (c : N) : option N :=
  if ((48 <=? c) && (c <=? 57))%N then Some (c - 48)%N
  else if ((65 <=? c) && (c <=? 70))%N then Some (c - 55)%N
  else if ((97 <=? c) && (c <=? 102))%N then Some (c - 87)%N
  else None.

(** The code unit that a one-letter escape stands for. *)
Definition simple_escape (e : N) : option N :=
  if (e =? u "034")%N then Some (u "034")
  else if (e =? u "\")%N then Some (u "\")
  else if (e =? u "/")%N then Some (u "/")
  else if (e =? u "b")%N then Some 8%N
  else if (e =? u "f")%N then Some 12%N
  else if (e =? u "n")%N then Some 10%N
  else if (e =? u "r")%N then Some 13%N
  else if (e =? u "t")%N then Some 9%N
  else None.

(** The characters of a string literal after its opening quote. An escape
    [\uXXXX] gives the code unit with that hexadecimal value. *)
Fixpoint parse_chars (s : list N) (acc : list N) : option (jstring * list N) :=
  match s with
  | [] => None
  | c :: r =>
      if (c =? u "034")%N then Some (rev acc, r)
      else if (c =? u "\")%N then
        match r with
        | [] => None
        | e :: r1 =>
            match simple_escape e with
            | Some ch => parse_chars r1 (ch :: acc)
            | None =>
                if (e =? u "u")%N then
                  match r1 with
                  | h1 :: h2 :: h3 :: h4 :: r2 =>
                      match hex_digit h1, hex_digit h2, hex_digit h3, hex_digit h4 with
                      | Some d1, Some d2, Some d3, Some d4 =>
                          parse_chars r2
                            ((4096 * d1 + 256 * d2 + 16 * d3 + d4)%N :: acc)
                      | _, _, _, _ => None
                      end
                  | _ => None
                  end
                else None
            end
        end
      else if (c <? 32)%N then None
      else parse_chars r (c :: acc)
  end.

Fixpoint take_digits (s : list N) : list N * list N :=
  match s with
  | c :: r =>
      if is_digit c then let (ds, rest) := take_digits r in (c :: ds, rest)
      else ([], s)
  | [] => ([], [])
  end.

(** The text of a token made of characters below 256. *)
Definition lexeme_of (token : list N) : string :=
  string_of_list_ascii (map ascii_of_N token).

(** A number token: sign, integer part without a leading zero, optional
    fraction and exponent. *)
Definition parse_number (s : list N) : option (string * list N) :=
  let (sign, s1) :=
    match s with
    | c :: r => if (c =? u "-")%N then ([c], r) else ([], s)
    | [] => ([], s)
    end in
  let (int, s2) := take_digits s1 in
  match int with
  | [] => None
  | d :: ds =>
      if (d =? u "0")%N && negb (List.length ds =? 0)%nat then None else
      let frac :=
        match s2 with
        | c :: r =>
            if (c =? u ".")%N then
              let (fs, s3) := take_digits r in
              match fs with
              | [] => None
              | _ => Some (c :: fs, s3)
              end
            else Some ([], s2)
        | [] => Some ([], s2)
        end in
      match frac with
      | None => None
      | Some (fr, s3) =>
          let expo :=
            match s3 with
            | e :: r =>
                if (e =? u "e")%N || (e =? u "E")%N then
                  let (sg, r1) :=
                    match r with
                    | c :: r' =>
                        if (c =? u "+")%N || (c =? u "-")%N then ([c], r')
                        else ([], r)
                    | [] => ([], r)
                    end in
                  let (es, s4) := take_digits r1 in
                  match es with
                  | [] => None
                  | _ => Some (e :: sg ++ es, s4)
                  end
                else Some ([], s3)
            | [] => Some ([], s3)
            end in
          match expo with
          | None => None
          | Some (ex, s4) => Some (lexeme_of (sign ++ int ++ fr ++ ex), s4)
          end
      end
  end.

Fixpoint starts_with (p s : list N) : option (list N) :=
  match p, s with
  | [], _ => Some s
  | a :: p', b :: s' => if (a =? b)%N then starts_with p' s' else None
  | _ :: _, [] => None
  end.

(** The next code unit is [c]. *)
Definition next_is (c : ascii) (s : list N) : option (list N) :=
  match s with
  | d :: r => if (d =? u c)%N then Some r else None
  | [] => None
  end.

Fixpoint parse_value (fuel : nat) (s : list N) : option (value * list N) :=
  match fuel with
  | O => None
  | S fuel' =>
      match skip_ws s with
      | [] => None
      | c :: r =>
          if (c =? u "{")%N then
            match next_is "}" (skip_ws r) with
            | Some r1 => Some (JObject [], r1)
            | None =>
                match parse_members fuel' r with
                | Some (ms, r1) => Some (JObject ms, r1)
                | None => None
                end
            end
          else if (c =? u "[")%N then
            match next_is "]" (skip_ws r) with
            | Some r1 => Some (JArray [], r1)
            | None =>
                match parse_elements fuel' r with
                | Some (vs, r1) => Some (JArray vs, r1)
                | None => None
                end
            end
          else if (c =? u "034")%N then
            match parse_chars r [] with
            | Some (str, r1) => Some (JString str, r1)
            | None => None
            end
          else if (c =? u "t")%N then
            option_map (fun r1 => (JBool true, r1)) (starts_with (units "rue") r)
          else if (c =? u "f")%N then
            option_map (fun r1 => (JBool false, r1)) (starts_with (units "alse") r)
          else if (c =? u "n")%N then
            option_map (fun r1 => (JNull, r1)) (starts_with (units "ull") r)
          else
            match parse_number (c :: r) with
            | Some (lexeme, r1) => Some (JNumber lexeme, r1)
            | None => None
            end
      end
  end

(** The elements of an array after ['['] or [','], up to [']']. *)
with parse_elements (fuel : nat) (s : list N) : option (list value * list N) :=
  match fuel with
  | O => None
  | S fuel' =>
      match parse_value fuel' s with
      | None => None
      | Some (v, r) =>
          match skip_ws r with
          | c :: r1 =>
              if (c =? u ",")%N then
                match parse_elements fuel' r1 with
                | Some (vs, r2) => Some (v :: vs, r2)
                | None => None
                end
              else if (c =? u "]")%N then Some ([v], r1)
              else None
          | [] => None
          end
      end
  end

(** The members of an object after ['{'] or [','], up to ['}']. *)
with parse_members (fuel : nat) (s : list N)
    : option (list (jstring * value) * list N) :=
  match fuel with
  | O => None
  | S fuel' =>
      match next_is "034" (skip_ws s) with
      | Some r =>
          match parse_chars r [] with
          | None => None
          | Some (key, r1) =>
              match next_is ":" (skip_ws r1) with
              | Some r2 =>
                  match parse_value fuel' r2 with
                  | None => None
                  | Some (v, r3) =>
                      match skip_ws r3 with
                      | c :: r4 =>
                          if (c =? u ",")%N then
                            match parse_members fuel' r4 with
                            | Some (ms, r5) => Some ((key, v) :: ms, r5)
                            | None => None
                            end
                          else if (c =? u "}")%N then Some ([(key, v)], r4)
                          else None
                      | [] => None
                      end
                  end
              | None => None
              end
          end
      | None => None
      end
  end.

(** [JSON.parse(text)]: one value, then only white space. *)
Definition parse (text : jstring) : option value :=
  match parse_value (2 * List.length text + 2) text with
  | Some (v, rest) =>
      match skip_ws rest with
      | [] => Some v
      | _ :: _ => None
      end
  | None => None
  end.

End JSON.

(** ** types.ts *)

(** TypeScript interfaces are erased at run time: the [analysis] slot of a
    saved incident holds whatever value [JSON.parse] returned. *)
Module SavedIncident.

Record t := mk {
  id : string;
  timestamp : Z;
  durationSeconds : Z;
  blob : Blob;
  analysis : option JSON.value
}.

(** Object spread [{ ...inc, analysis }]. *)
Definition with_analysis (inc : t) (a : JSON.value) : t :=
  mk (id inc) (timestamp inc) (durationSeconds inc) (blob inc) (Some a).

End SavedIncident.

Module AudioChunk.

Record t := mk { data : Blob; timestamp : Z }.

End AudioChunk.

(** The seven members that [IncidentAnalysis] declares. *)
Definition IncidentAnalysis_fields : list string :=
  ["summary"; "sentiment"; "threatLevel"; "keyEvents"; "recommendations";
   "currentSituation"; "predictedNextMoves"]%string.

(** ** services/geminiService.ts *)
Module GeminiService.

(** What [analyzeIncident] can throw. *)
Inductive Error : Type :=
| ApiKeyMissing                  (* new Error("API Key is missing. ...") *)
| ReadError (detail : string)    (* rejection of blobToBase64 *)
| NoResponseText                 (* new Error("No response text from Gemini.") *)
| SyntaxError                    (* raised by JSON.parse *)
| ServiceError (detail : string) (* rejection of generateContent, rethrown *).

(** [data] is [undefined] ([None]) when [blobToBase64] resolved to it. *)
Record InlineData := mkInlineData { mimeType : string; data : option string }.

Record Request := mkRequest {
  model : string;
  inlineData : InlineData;
  text : string;
  required : list string
}.

(** The outcome of [ai.models.generateContent]: a rejection, or a response
    whose [text] may be undefined. *)
Inductive Reply : Type :=
| Rejected (detail : string)
| Response (text : option JSON.jstring).

Definition buildRequest (audioBlob : Blob) (base64Audio : option string) : Request :=
  mkRequest "gemini-3-pro-preview"
    (mkInlineData
       (if is_empty (blob_type audioBlob) then "audio/webm" else blob_type audioBlob)
       base64Audio)
    "Analyze this audio. Brainstorm what they are doing and predict their next moves."
    ["summary"; "sentiment"; "threatLevel"; "keyEvents"; "currentSituation";
     "predictedNextMoves"; "recommendations"]%string.

(** [analyzeIncident]; the result of [JSON.parse] is returned under a type
    assertion, which does nothing at run time. *)
Definition analyzeIncident (readAsDataURL : Blob -> ReadOutcome)
    (generateContent : Request -> Reply)
    (audioBlob : Blob) (apiKey : string) : Error + JSON.value :=
  if is_empty apiKey then inl ApiKeyMissing else
  match AudioUtils.blobToBase64 readAsDataURL audioBlob with
  | inl detail => inl (ReadError detail)
  | inr base64Audio =>
      match generateContent (buildRequest audioBlob base64Audio) with
      | Rejected detail => inl (ServiceError detail)
      | Response text =>
          match text with
          | None => inl NoResponseText
          | Some [] => inl NoResponseText
          | Some text =>
              match JSON.parse text with
              | Some v => inr v
              | None => inl SyntaxError
              end
          end
      end
  end.

(** A value has the declared shape when all seven members are present. *)
Definition populated (v : JSON.value) : bool :=
  forallb (fun k => JSON.has k v) IncidentAnalysis_fields.

Definition dquote : string := String "034" EmptyString.

(** The text [{"summary":"calm"}]. *)
Definition summary_only : JSON.jstring :=
  JSON.units
    ("{" ++ dquote ++ "summary" ++ dquote ++ ":" ++ dquote ++ "calm" ++ dquote ++ "}")%string.

End GeminiService.

(** ** App.tsx: ring buffer and incident store *)
Module App.

Definition BUFFER_DURATION_MS : Z := 30 * 60 * 1000.
Definition CHUNK_DURATION_MS : Z := 1000.
Definition SAVE_OPTIONS : list Z := [1; 5; 10; 15; 20; 25; 30].

(** The pruning loop of [recorder.ondataavailable]:
    [while (length > 0 && chunks[0].timestamp < cutoff) chunks.shift()]. *)
Fixpoint prune_loop (cutoff : Z) (chunks : list AudioChunk.t) : list AudioChunk.t :=
  match chunks with
  | [] => []
  | c :: rest =>
      if AudioChunk.timestamp c <? cutoff then prune_loop cutoff rest else chunks
  end.

(** Pruning at [now] with the 30 minute window. *)
Definition prune (now : Z) (chunks : list AudioChunk.t) : list AudioChunk.t :=
  prune_loop (now - BUFFER_DURATION_MS) chunks.

(** [recorder.ondataavailable]: [now] is [Date.now()], [eventData] is
    [event.data]; the result is the new content of [audioChunksRef]. *)
Definition ondataavailable (now : Z) (eventData : Blob)
    (audioChunks : list AudioChunk.t) : list AudioChunk.t :=
  if blob_size eventData >? 0 then
    let pushed := audioChunks ++ [AudioChunk.mk eventData now] in
    let cutoff := now - BUFFER_DURATION_MS in
    prune_loop cutoff pushed
  else audioChunks.

(** The interval callback that refreshes the buffer size display. It
    returns the new content of [audioChunksRef] and the value given to
    [setBufferSizeSecs]. *)
Definition bufferSizeTick (now : Z) (audioChunks : list AudioChunk.t)
    : list AudioChunk.t * Z :=
  let validChunks :=
    filter (fun c => now - AudioChunk.timestamp c <? BUFFER_DURATION_MS) audioChunks in
  let audioChunks' :=
    if negb (length validChunks =? length audioChunks)%nat
    then validChunks else audioChunks in
  (audioChunks', Z.of_nat (length validChunks) * (CHUNK_DURATION_MS / 1000)).

(** [saveIncident]: [now] is [Date.now()], [uuid] is [crypto.randomUUID()].
    Returns the function's result and the new incident list. *)
Definition saveIncident (now : Z) (uuid : string) (minutes : Z)
    (audioChunks : list AudioChunk.t) (incidents : list SavedIncident.t)
    : option SavedIncident.t * list SavedIncident.t :=
  if (length audioChunks =? 0)%nat then (None, incidents) else
  let cutoff := now - (minutes * 60 * 1000) in
  let relevantChunks :=
    map AudioChunk.data
      (filter (fun chunk => AudioChunk.timestamp chunk >=? cutoff) audioChunks) in
  if (length relevantChunks =? 0)%nat then (None, incidents) else
  let combinedBlob := newBlob relevantChunks "audio/webm" in
  let duration := Z.of_nat (length relevantChunks) in
  let newIncident :=
    SavedIncident.mk uuid now duration combinedBlob None in
  (Some newIncident, newIncident :: incidents).

(** The state update of [handleAnalyze] once the analysis has arrived:
    [prev.map(inc => inc.id === id ? { ...inc, analysis } : inc)]. *)
Definition attachAnalysis (id : string) (analysis : JSON.value)
    (prev : list SavedIncident.t) : list SavedIncident.t :=
  map (fun inc =>
         if String.eqb (SavedIncident.id inc) id
         then SavedIncident.with_analysis inc analysis
         else inc) prev.

(** [handleAnalyze]: [prev] is the incident list when the analysis call
    settles. Without a key the modal is shown; on failure an alert is
    shown; in both cases the list is left as it is. *)
Definition handleAnalyze (apiKey : string)
    (readAsDataURL : Blob -> ReadOutcome)
    (generateContent : GeminiService.Request -> GeminiService.Reply)
    (incident : SavedIncident.t) (prev : list SavedIncident.t)
    : list SavedIncident.t :=
  if is_empty apiKey then prev else
  match GeminiService.analyzeIncident readAsDataURL generateContent
          (SavedIncident.blob incident) apiKey with
  | inr analysis => attachAnalysis (SavedIncident.id incident) analysis prev
  | inl _ => prev
  end.

(** [handleDelete]. *)
Definition handleDelete (id : string) (prev : list SavedIncident.t)
    : list SavedIncident.t :=
  filter (fun inc => negb (String.eqb (SavedIncident.id inc) id)) prev.

End App.

(** ** components/IncidentAnalysisCard.tsx *)
Module IncidentAnalysisCard.

(** [getThreatColor]. *)
Definition getThreatColor (level : string) : string :=
  if String.eqb level "Critical" then "text-red-600 bg-red-100 border-red-600"
  else if String.eqb level "High" then "text-orange-600 bg-orange-100 border-orange-600"
  else if String.eqb level "Medium" then "text-yellow-600 bg-yellow-100 border-yellow-600"
  else "text-green-600 bg-green-100 border-green-600".

Inductive Icon : Type := CheckCircle | ShieldAlert | AlertTriangle.

(** [ThreatIcon]. *)
Definition ThreatIcon (threatLevel : string) : Icon :=
  if String.eqb threatLevel "Low" then CheckCircle
  else if String.eqb threatLevel "Critical" then ShieldAlert
  else AlertTriangle.

End IncidentAnalysisCard.

(** ** components/LiveTacticalMonitor.tsx: upload and download flows *)
Module LiveTacticalMonitor.

(** The [media] object given to [sendRealtimeInput]. *)
Record RealtimeInput := mkRealtimeInput {
  media_mimeType : string;
  media_data : string
}.

(** [processor.onaudioprocess]: one block of microphone samples becomes
    one realtime input frame. *)
Definition onaudioprocess (inputData : list Num.number) : RealtimeInput :=
  let pcmInt16 := AudioUtils.float32ToInt16PCM inputData in
  let base64Data := AudioUtils.uint8ArrayToBase64 (AudioUtils.int16_bytes pcmInt16) in
  mkRealtimeInput "audio/pcm;rate=16000" base64Data.

(** The fields of a [LiveServerMessage] that [onmessage] reads. *)
Record LiveServerMessage := mkMessage {
  interrupted : bool;                   (* serverContent?.interrupted *)
  inlineData : option string;           (* ...modelTurn?.parts?.[0]?.inlineData?.data *)
  outputTranscription : option string;  (* serverContent?.outputTranscription?.text *)
  turnComplete : bool                   (* serverContent?.turnComplete *)
}.

(** An [AudioBufferSourceNode] of the scheduled set: its identity, its
    clip and the [when] given to its [start]. *)
Record AudioBufferSourceNode := mkSource {
  node : nat;
  buffer : AudioUtils.AudioBuffer;
  startTime : Double.t
}.

(** The time up to which the schedule reserves the output for a started
    clip: the sum that the audio branch stores in the cursor. *)
Definition endTime (src : AudioBufferSourceNode) : Double.t :=
  Double.add (startTime src) (AudioUtils.duration (buffer src)).

(** The time at which the last frame of a started clip has been played, as
    an exact rational. *)
Definition exact_endTime (src : AudioBufferSourceNode) : option Q :=
  match Double.toQ (startTime src) with
  | Some start => Some (start + AudioUtils.exact_duration (buffer src))%Q
  | None => None
  end.

Record State := mkState {
  audioSources : list AudioBufferSourceNode;  (* audioSourcesRef.current *)
  nextStartTime : Double.t;                   (* nextStartTimeRef.current *)
  transcription : string;                     (* React state *)
  stopped : list AudioBufferSourceNode;       (* nodes that received stop() *)
  created : nat                               (* nodes created so far *)
}.

Definition initial : State := mkState [] Double.zero EmptyString [] 0.

Definition LF : string := String "010" EmptyString.

(** ["\n[INTERRUPTED]\n> "] and ["\n\n> "]. *)
Definition INTERRUPTED_MARK : string := (LF ++ "[INTERRUPTED]" ++ LF ++ "> ")%string.
Definition TURN_SEPARATOR : string := (LF ++ LF ++ "> ")%string.

(** [s.slice(-n)]: the last [n] characters, or all of [s]. *)
Definition slice_last (n : nat) (s : string) : string :=
  substring (String.length s - n) n s.

(** The updater of the transcription branch. *)
Definition appendTranscript (prev text : string) : string :=
  let newText := (prev ++ text)%string in
  if (2000 <? String.length newText)%nat
  then ("..." ++ slice_last 2000 newText)%string
  else newText.

(** The interruption branch. *)
Definition handleInterruption (st : State) : State :=
  mkState [] Double.zero (transcription st ++ INTERRUPTED_MARK)%string
    (stopped st ++ audioSources st) (created st).

(** [src.start(when)] raises unless [when] is a finite number (TypeError)
    that is not negative (RangeError). *)
Definition accepts_start (when : Double.t) : bool :=
  match when with
  | S754_zero _ => true
  | S754_finite false _ _ => true
  | _ => false
  end.

(** How a run of the handler ends, with the state it leaves. *)
Inductive Outcome : Type :=
| Returned (st : State)
| Raised (st : State).

Definition state_of (outcome : Outcome) : State :=
  match outcome with
  | Returned st => st
  | Raised st => st
  end.

(** The audio branch. Decoding the payload can raise, before anything is
    changed. [src.start] can raise, after the node has been added to the
    scheduled set and the cursor has been raised to the clock. *)
Definition handleAudio (outputContext : option AudioContext)
    (msg : LiveServerMessage) (st : State) : Outcome :=
  match inlineData msg, outputContext with
  | Some audioData, Some ctx =>
      if is_empty audioData then Returned st else
      match AudioUtils.base64ToUint8Array audioData with
      | None => Raised st
      | Some pcmData =>
          match AudioUtils.pcmToAudioBuffer pcmData ctx 24000 with
          | None => Raised st
          | Some audioBuffer =>
              let nextStart :=
                if Double.ltb (nextStartTime st) (currentTime ctx)
                then currentTime ctx else nextStartTime st in
              let src := mkSource (created st) audioBuffer nextStart in
              let pushed := audioSources st ++ [src] in
              if accepts_start nextStart then
                Returned (mkState pushed
                            (Double.add nextStart (AudioUtils.duration audioBuffer))
                            (transcription st) (stopped st) (S (created st)))
              else
                Raised (mkState pushed nextStart
                          (transcription st) (stopped st) (S (created st)))
          end
      end
  | _, _ => Returned st
  end.

(** The transcription branch. *)
Definition handleTranscription (msg : LiveServerMessage) (st : State) : State :=
  match outputTranscription msg with
  | Some text =>
      if is_empty text then st else
      mkState (audioSources st) (nextStartTime st)
        (appendTranscript (transcription st) text) (stopped st) (created st)
  | None => st
  end.

(** The turn completion branch. *)
Definition handleTurnComplete (msg : LiveServerMessage) (st : State) : State :=
  if turnComplete msg then
    mkState (audioSources st) (nextStartTime st)
      (transcription st ++ TURN_SEPARATOR)%string (stopped st) (created st)
  else st.

(** [onmessage]; when the audio branch raises, the branches after it do
    not run. *)
Definition onmessage (isMounted : bool) (outputContext : option AudioContext)
    (msg : LiveServerMessage) (st : State) : Outcome :=
  if negb isMounted then Returned st else
  if interrupted msg then Returned (handleInterruption st) else
  match handleAudio outputContext msg st with
  | Raised st1 => Raised st1
  | Returned st1 => Returned (handleTurnComplete msg (handleTranscription msg st1))
  end.

(** [src.onended]: the node leaves the scheduled set. *)
Definition onended (n : nat) (st : State) : State :=
  mkState (filter (fun s => negb (node s =? n)%nat) (audioSources st))
    (nextStartTime st) (transcription st) (stopped st) (created st).

(** Events of the download flow. *)
Inductive Event : Type :=
| Message (isMounted : bool) (outputContext : option AudioContext)
          (msg : LiveServerMessage)
| Ended (n : nat).

Definition step (st : State) (ev : Event) : State :=
  match ev with
  | Message isMounted outputContext msg =>
      state_of (onmessage isMounted outputContext msg st)
  | Ended n => onended n st
  end.

Definition run (events : list Event) (st : State) : State :=
  fold_left step events st.

(** The message carries a synthesized-audio payload that decodes to the
    clip [audioBuffer], and is no interruption. *)
Definition carries_clip (ctx : AudioContext) (msg : LiveServerMessage)
    (audioBuffer : AudioUtils.AudioBuffer) : Prop :=
  interrupted msg = false /\
  exists audioData pcmData,
    inlineData msg = Some audioData /\ is_empty audioData = false /\
    AudioUtils.base64ToUint8Array audioData = Some pcmData /\
    AudioUtils.pcmToAudioBuffer pcmData ctx 24000 = Some audioBuffer.

(** The state with another value in the cursor cell. *)
Definition with_cursor (cursor : Double.t) (st : State) : State :=
  mkState (audioSources st) cursor (transcription st) (stopped st) (created st).

(** Two states show the same playback and the same transcript. *)
Definition same_playback (st1 st2 : State) : Prop :=
  audioSources st1 = audioSources st2 /\ stopped st1 = stopped st2 /\
  transcription st1 = transcription st2 /\ created st1 = created st2.

(** The scheduled set is in playback order: every clip ends, by the
    arithmetic of the cursor, no later than the clips after it start and
    no later than the cursor. *)
Definition in_order (st : State) : Prop :=
  Double.is_cursor (nextStartTime st) = true /\
  Forall (fun s =>
            AudioUtils.sampleRate (buffer s) = 24000%positive /\
            Double.is_cursor (startTime s) = true /\
            Double.leb (endTime s) (nextStartTime st) = true)
    (audioSources st) /\
  ForallOrdPairs (fun a b => Double.leb (endTime a) (startTime b) = true)
    (audioSources st).

(** An event whose clock, if it has one, reads a time. *)
Definition clock_reads_time (ev : Event) : bool :=
  match ev with
  | Message _ (Some ctx) _ => Double.is_time (currentTime ctx)
  | Message _ None _ => true
  | Ended _ => true
  end.

(** An event whose clock, if it has one, reads a time that is not before
    [now]. *)
Definition not_before (now : Double.t) (ev : Event) : bool :=
  match ev with
  | Message _ (Some ctx) _ =>
      Double.is_time (currentTime ctx) && negb (Double.ltb (currentTime ctx) now)
  | Message _ None _ => true
  | Ended _ => true
  end.

(** Two states that differ at most in the cursor, where the first holds 0
    and the second holds [now]. *)
Definition reset_alike (now : Double.t) (st1 st2 : State) : Prop :=
  same_playback st1 st2 /\
  (nextStartTime st1 = nextStartTime st2 \/
   (nextStartTime st1 = Double.zero /\ nextStartTime st2 = now)).

(** An event that schedules no clip. *)
Definition schedules_nothing (ev : Event) : bool :=
  match ev with
  | Message isMounted _ msg =>
      negb isMounted || interrupted msg ||
      match inlineData msg with None => true | Some _ => false end
  | Ended _ => true
  end.

(** Example messages. *)
Definition interruption : LiveServerMessage := mkMessage true None None false.
Definition turn_end : LiveServerMessage := mkMessage false None None true.
Definition fragment (text : string) : LiveServerMessage :=
  mkMessage false None (Some text) false.
Definition clip (audioData : string) : LiveServerMessage :=
  mkMessage false (Some audioData) None false.

(** The payload of a clip of [frames] frames of silence. *)
Definition silence (frames : nat) : string :=
  AudioUtils.uint8ArrayToBase64 (repeat x00%byte (2 * frames)).

(** A context whose clock reads [n / d] seconds, rounded. *)
Definition clock (n d : Z) : AudioContext :=
  mkContext (Double.div (Double.of_Z n) (Double.of_Z d)) (fun _ => false).

End LiveTacticalMonitor.

(** ** Specification vocabulary for the ring buffer *)
Module RingBuffer.

(** Insertion order is time order: timestamps never decrease. *)
Fixpoint time_ordered (chunks : list AudioChunk.t) : bool :=
  match chunks with
  | [] => true
  | c :: rest =>
      match rest with
      | [] => true
      | d :: _ => (AudioChunk.timestamp c <=? AudioChunk.timestamp d) && time_ordered rest
      end
  end.

(** The buffer entry that a captured fragment becomes. *)
Definition chunk_of (ev : Z * Blob) : AudioChunk.t := AudioChunk.mk (snd ev) (fst ev).

(** A recording run: one [ondataavailable] call per captured fragment. *)
Definition record (events : list (Z * Blob)) (audioChunks : list AudioChunk.t)
    : list AudioChunk.t :=
  fold_left (fun buf ev => App.ondataavailable (fst ev) (snd ev) buf) events audioChunks.

(** What touches the buffer while the recorder runs: the recorder delivers
    a fragment, or the timer of the size display fires. *)
Inductive Activity : Type :=
| Capture (now : Z) (data : Blob)
| Sweep (now : Z).

Definition time_of (a : Activity) : Z :=
  match a with
  | Capture now _ => now
  | Sweep now => now
  end.

Definition act (audioChunks : list AudioChunk.t) (a : Activity) : list AudioChunk.t :=
  match a with
  | Capture now data => App.ondataavailable now data audioChunks
  | Sweep now => fst (App.bufferSizeTick now audioChunks)
  end.

(** A recording session: captures and sweeps in the order they happen. *)
Definition session (activities : list Activity) (audioChunks : list AudioChunk.t)
    : list AudioChunk.t :=
  fold_left act activities audioChunks.

(** The fragments that a session has put into the buffer, in order. *)
Definition captured (activities : list Activity) : list AudioChunk.t :=
  flat_map (fun a =>
              match a with
              | Capture now data =>
                  if blob_size data >? 0 then [AudioChunk.mk data now] else []
              | Sweep _ => []
              end) activities.

(** The times of the activities never decrease. *)
Fixpoint in_time_order (activities : list Activity) : bool :=
  match activities with
  | [] => true
  | a :: rest =>
      match rest with
      | [] => true
      | b :: _ => (time_of a <=? time_of b) && in_time_order rest
      end
  end.

(** Whether an activity leaves a buffered fragment in the buffer: a capture
    with data drops what is more than 30 minutes older than it, a sweep
    drops what is 30 minutes old or older. *)
Definition keeps (a : Activity) (c : AudioChunk.t) : bool :=
  match a with
  | Capture now data =>
      if blob_size data >? 0
      then now - App.BUFFER_DURATION_MS <=? AudioChunk.timestamp c
      else true
  | Sweep now => now - AudioChunk.timestamp c <? App.BUFFER_DURATION_MS
  end.


(** Fragment number [k] of a run that starts at [t0] and emits one
    fragment per second. *)
Definition fragment (t0 : Z) (payload : nat -> Blob) (k : nat) : Z * Blob :=
  (t0 + 1000 * Z.of_nat k, payload k).

(** Forty minutes of capture: fragments 1 .. 2400. *)
Definition forty_minutes (t0 : Z) (payload : nat -> Blob) : list (Z * Blob) :=
  map (fragment t0 payload) (seq 1 2400).

(** The last [n] elements of a list. *)
Definition last_n {A} (n : nat) (l : list A) : list A :=
  skipn (List.length l - n) l.

(** The payloads of the forty minute run, in capture order. *)
Definition forty_minutes_payloads (payload : nat -> Blob) : list Blob :=
  map payload (seq 1 2400).

(** A one-byte payload, used for concrete runs. *)
Definition tick_payload (k : nat) : Blob := mkBlob [x01%byte] "audio/webm".

(** Consecutive timestamps are at least [gap] apart. *)
Fixpoint spaced (gap : Z) (chunks : list AudioChunk.t) : bool :=
  match chunks with
  | [] => true
  | c :: rest =>
      match rest with
      | [] => true
      | d :: _ =>
          (AudioChunk.timestamp c + gap <=? AudioChunk.timestamp d) && spaced gap rest
      end
  end.

(** Three fragments, one second apart, used for concrete runs. *)
Definition three_fragments : list (Z * Blob) :=
  [(1000, tick_payload 1); (2000, tick_payload 2); (3000, tick_payload 3)].

End RingBuffer.

(* ================================================================== *)
(** * Theorems *)
(* ================================================================== *)

(** ** Ring buffer *)

Lemma time_ordered_cons c l :
  RingBuffer.time_ordered (c :: l) = true ->
  RingBuffer.time_ordered l = true /\
  (forall d, In d l -> AudioChunk.timestamp c <= AudioChunk.timestamp d).
Proof.
  revert c. induction l as [|d l IH]; intros c H.
  - split; [reflexivity | intros ? []].
  - cbn [RingBuffer.time_ordered] in H.
    apply andb_true_iff in H as [Hcd Hl]. apply Z.leb_le in Hcd.
    split; [exact Hl|].
    intros e [<-|He]; [exact Hcd|].
    destruct (IH d Hl) as [_ Hd]. specialize (Hd e He). lia.
Qed.

Lemma time_ordered_intro c l :
  RingBuffer.time_ordered l = true ->
  (forall d, In d l -> AudioChunk.timestamp c <= AudioChunk.timestamp d) ->
  RingBuffer.time_ordered (c :: l) = true.
Proof.
  intros Hl Hc. destruct l as [|d l]; [reflexivity|].
  cbn [RingBuffer.time_ordered]. apply andb_true_iff. split; [|exact Hl].
  apply Z.leb_le, Hc. left; reflexivity.
Qed.

Lemma time_ordered_filter p l :
  RingBuffer.time_ordered l = true ->
  RingBuffer.time_ordered (filter p l) = true.
Proof.
  induction l as [|c l IH]; intros H; [reflexivity|].
  apply time_ordered_cons in H as [Hl Hc]. cbn [filter].
  destruct (p c); [|auto].
  apply time_ordered_intro; [auto|].
  intros d Hd. apply filter_In in Hd as [Hd _]. auto.
Qed.

(** On a time-ordered buffer the head-first loop removes exactly the
    fragments older than the cutoff. *)
Lemma prune_loop_filter cutoff l :
  RingBuffer.time_ordered l = true ->
  App.prune_loop cutoff l =
  filter (fun c => cutoff <=? AudioChunk.timestamp c) l.
Proof.
  induction l as [|c l IH]; intros H; [reflexivity|].
  pose proof (time_ordered_cons _ _ H) as [Hl Hc].
  cbn [App.prune_loop filter].
  destruct (Z.ltb_spec (AudioChunk.timestamp c) cutoff) as [Hlt|Hge].
  - destruct (Z.leb_spec cutoff (AudioChunk.timestamp c)); [lia|]. auto.
  - destruct (Z.leb_spec cutoff (AudioChunk.timestamp c)); [|lia].
    f_equal. symmetry. apply forallb_filter_id. apply forallb_forall.
    intros d Hd. apply Z.leb_le. specialize (Hc d Hd). lia.
Qed.

Lemma filter_filter_cutoff c1 c2 (l : list AudioChunk.t) :
  c1 <= c2 ->
  filter (fun c => c2 <=? AudioChunk.timestamp c)
    (filter (fun c => c1 <=? AudioChunk.timestamp c) l) =
  filter (fun c => c2 <=? AudioChunk.timestamp c) l.
Proof.
  intros H. induction l as [|a l IH]; [reflexivity|]. cbn [filter].
  destruct (Z.leb_spec c1 (AudioChunk.timestamp a)).
  - cbn [filter]. rewrite IH. reflexivity.
  - destruct (Z.leb_spec c2 (AudioChunk.timestamp a)); [lia|]. exact IH.
Qed.

Lemma filter_same_length {A} (p : A -> bool) (l : list A) :
  List.length (filter p l) = List.length l -> filter p l = l.
Proof.
  induction l as [|a l IH]; intros H; [reflexivity|].
  cbn [filter] in *. destruct (p a).
  - cbn [List.length] in H. f_equal. apply IH. lia.
  - pose proof (filter_length_le p l). cbn [List.length] in H. lia.
Qed.

Lemma filter_idem {A} (p : A -> bool) (l : list A) :
  filter p (filter p l) = filter p l.
Proof.
  apply forallb_filter_id, forallb_forall.
  intros x Hx. apply filter_In in Hx as [_ Hx]. exact Hx.
Qed.

Lemma filter_filter_and {A} (p q : A -> bool) (l : list A) :
  filter p (filter q l) = filter (fun x => q x && p x) l.
Proof.
  induction l as [|a l IH]; [reflexivity|]. cbn [filter].
  destruct (q a); cbn [filter andb]; [destruct (p a)|]; rewrite IH; reflexivity.
Qed.

(** The interval sweep always leaves the filtered list in the buffer. *)
Lemma bufferSizeTick_fst now chunks :
  fst (App.bufferSizeTick now chunks) =
  filter (fun c => now - AudioChunk.timestamp c <? App.BUFFER_DURATION_MS) chunks.
Proof.
  unfold App.bufferSizeTick. cbn [fst].
  match goal with |- context [Nat.eqb ?a ?b] => destruct (Nat.eqb_spec a b) as [E|E] end;
    cbn [negb]; [|reflexivity].
  symmetry. apply filter_same_length. exact E.
Qed.

(** C3. On a buffer whose timestamps never decrease, pruning at [now]
    (the loop that [ondataavailable] runs after its push) leaves no
    fragment older than [now] minus the 30 minute window, keeps every
    fragment that is not older, and pruning again at the same [now]
    changes nothing. The periodic sweep of the size display has the same
    two properties (with a strict bound). *)
Theorem prune_expired_idempotent (now : Z) (chunks : list AudioChunk.t) :
  RingBuffer.time_ordered chunks = true ->
  (forall eventData prior,
     blob_size eventData > 0 -> chunks = prior ++ [AudioChunk.mk eventData now] ->
     App.ondataavailable now eventData prior = App.prune now chunks) /\
  (forall c, In c (App.prune now chunks) ->
             ~ AudioChunk.timestamp c < now - App.BUFFER_DURATION_MS) /\
  (forall c, In c chunks ->
             ~ AudioChunk.timestamp c < now - App.BUFFER_DURATION_MS ->
             In c (App.prune now chunks)) /\
  App.prune now (App.prune now chunks) = App.prune now chunks /\
  (forall c, In c (fst (App.bufferSizeTick now chunks)) ->
             ~ AudioChunk.timestamp c < now - App.BUFFER_DURATION_MS) /\
  App.bufferSizeTick now (fst (App.bufferSizeTick now chunks)) =
    (fst (App.bufferSizeTick now chunks), snd (App.bufferSizeTick now chunks)).
Proof.
  intros Hord. split.
  { intros eventData prior Hsz ->. unfold App.ondataavailable, App.prune.
    destruct (Z.gtb_spec (blob_size eventData) 0); [reflexivity | lia]. }
  unfold App.prune.
  rewrite (prune_loop_filter _ _ Hord).
  rewrite (prune_loop_filter _ _ (time_ordered_filter _ _ Hord)).
  repeat split.
  - intros c Hc. apply filter_In in Hc as [_ Hc]. apply Z.leb_le in Hc. lia.
  - intros c Hc Hts. apply filter_In. split; [exact Hc|]. apply Z.leb_le. lia.
  - apply filter_idem.
  - intros c Hc. rewrite bufferSizeTick_fst in Hc.
    apply filter_In in Hc as [_ Hc]. apply Z.ltb_lt in Hc. lia.
  - rewrite bufferSizeTick_fst. unfold App.bufferSizeTick. cbn [fst snd].
    rewrite filter_idem, Nat.eqb_refl. reflexivity.
Qed.

Lemma prune_expired_idempotent_witness :
  let b := mkBlob [x01%byte] "audio/webm" in
  let chunks := [AudioChunk.mk b 0; AudioChunk.mk b 1000; AudioChunk.mk b 2000000] in
  RingBuffer.time_ordered chunks = true /\
  App.prune 2000000 chunks = [AudioChunk.mk b 2000000] /\
  App.prune 2000000 (App.prune 2000000 chunks) = App.prune 2000000 chunks.
Proof.
  intros b chunks.
  split; [reflexivity|]. split; [reflexivity|].
  apply (proj2 (prune_expired_idempotent 2000000 chunks eq_refl)).
Defined.

(** ** Incident store *)

(** C1. A retroactive save at [now] with a window of [minutes] minutes
    selects exactly the buffered fragments whose timestamp is at least
    [now - minutes * 60000], in buffer order (which is time order on a
    time-ordered buffer). When the selection is empty the result is null
    and the incident list is unchanged; otherwise one incident is put at
    the head of the list and its audio is the concatenation of the
    selected payloads. *)
Theorem saveIncident_window (now : Z) (uuid : string) (minutes : Z)
    (chunks : list AudioChunk.t) (incidents : list SavedIncident.t) :
  let w := minutes * 60 * 1000 in
  let sel := filter (fun c => now - w <=? AudioChunk.timestamp c) chunks in
  (forall c, In c sel <-> In c chunks /\ AudioChunk.timestamp c >= now - w) /\
  (RingBuffer.time_ordered chunks = true -> RingBuffer.time_ordered sel = true) /\
  (sel = [] ->
     App.saveIncident now uuid minutes chunks incidents = (None, incidents)) /\
  (sel <> [] ->
     exists inc,
       App.saveIncident now uuid minutes chunks incidents = (Some inc, inc :: incidents) /\
       blob_bytes (SavedIncident.blob inc) =
         concat (map (fun c => blob_bytes (AudioChunk.data c)) sel) /\
       SavedIncident.id inc = uuid /\
       SavedIncident.timestamp inc = now /\
       SavedIncident.durationSeconds inc = Z.of_nat (List.length sel) /\
       SavedIncident.analysis inc = None).
Proof.
  intros w sel.
  assert (Hsel : filter (fun chunk => AudioChunk.timestamp chunk >=? now - minutes * 60 * 1000) chunks = sel).
  { unfold sel, w. apply filter_ext. intros c. rewrite Z.geb_leb. reflexivity. }
  split; [|split; [|split]].
  - intros c. unfold sel. rewrite filter_In, Z.leb_le. split; intros [H1 H2]; split; auto; lia.
  - apply time_ordered_filter.
  - intros Hnil. unfold App.saveIncident. rewrite Hsel, Hnil.
    destruct (List.length chunks =? 0)%nat; reflexivity.
  - intros Hne. unfold App.saveIncident. rewrite Hsel.
    destruct chunks as [|c0 chunks0] eqn:Echunks; [exfalso; apply Hne; reflexivity|].
    cbn [List.length Nat.eqb]. rewrite <- Echunks in *.
    assert (El : (List.length (map AudioChunk.data sel) =? 0)%nat = false).
    { rewrite length_map. destruct sel; [exfalso; apply Hne; reflexivity | reflexivity]. }
    rewrite El.
    eexists. split; [reflexivity|].
    cbn [SavedIncident.blob SavedIncident.id SavedIncident.timestamp
         SavedIncident.durationSeconds SavedIncident.analysis newBlob blob_bytes].
    repeat split.
    + rewrite map_map. reflexivity.
    + rewrite length_map. reflexivity.
Qed.

Lemma attachAnalysis_absent id a prev :
  (forall inc, In inc prev -> SavedIncident.id inc <> id) ->
  App.attachAnalysis id a prev = prev.
Proof.
  intros H. unfold App.attachAnalysis.
  rewrite <- (map_id prev) at 2. apply map_ext_in.
  intros inc Hin. destruct (String.eqb_spec (SavedIncident.id inc) id) as [E|E];
    [exfalso; exact (H inc Hin E) | reflexivity].
Qed.

(** C6. Attaching an analysis to the incident list keeps the list's length
    and order; every incident with the given id gets the new result in its
    single analysis slot, whatever was there before, with its other fields
    untouched; every other incident is unchanged. A second attachment
    overwrites the first. When no incident has the id, or after the
    incident was deleted, the list is returned unchanged. *)
Theorem attachAnalysis_overwrite (id : string) (a : JSON.value)
    (prev : list SavedIncident.t) :
  List.length (App.attachAnalysis id a prev) = List.length prev /\
  (forall i inc, nth_error prev i = Some inc ->
     exists inc', nth_error (App.attachAnalysis id a prev) i = Some inc' /\
       if String.eqb (SavedIncident.id inc) id
       then SavedIncident.analysis inc' = Some a /\
            SavedIncident.id inc' = SavedIncident.id inc /\
            SavedIncident.timestamp inc' = SavedIncident.timestamp inc /\
            SavedIncident.durationSeconds inc' = SavedIncident.durationSeconds inc /\
            SavedIncident.blob inc' = SavedIncident.blob inc
       else inc' = inc) /\
  (forall a0, App.attachAnalysis id a (App.attachAnalysis id a0 prev) =
              App.attachAnalysis id a prev) /\
  ((forall inc, In inc prev -> SavedIncident.id inc <> id) ->
     App.attachAnalysis id a prev = prev) /\
  App.attachAnalysis id a (App.handleDelete id prev) = App.handleDelete id prev.
Proof.
  split; [|split; [|split; [|split]]].
  - unfold App.attachAnalysis. apply length_map.
  - intros i inc Hi. unfold App.attachAnalysis.
    rewrite nth_error_map, Hi. cbn [option_map].
    eexists. split; [reflexivity|].
    destruct (String.eqb (SavedIncident.id inc) id); [|reflexivity].
    repeat split.
  - intros a0. unfold App.attachAnalysis. rewrite map_map. apply map_ext.
    intros inc. destruct (String.eqb_spec (SavedIncident.id inc) id) as [E|E].
    + cbn [SavedIncident.with_analysis SavedIncident.id]. rewrite E, String.eqb_refl.
      reflexivity.
    + destruct (String.eqb_spec (SavedIncident.id inc) id); [contradiction | reflexivity].
  - apply attachAnalysis_absent.
  - apply attachAnalysis_absent. intros inc Hin.
    apply filter_In in Hin as [_ Hin]. apply negb_true_iff in Hin.
    apply String.eqb_neq. exact Hin.
Qed.

(** ** Recording runs *)

Lemma time_ordered_app l1 l2 :
  RingBuffer.time_ordered (l1 ++ l2) = true ->
  RingBuffer.time_ordered l1 = true /\ RingBuffer.time_ordered l2 = true /\
  (forall a b, In a l1 -> In b l2 -> AudioChunk.timestamp a <= AudioChunk.timestamp b).
Proof.
  induction l1 as [|c l1 IH]; intros H.
  - cbn [app] in H. repeat split; auto. intros ? ? [].
  - cbn [app] in H. apply time_ordered_cons in H as [H Hc].
    destruct (IH H) as (H1 & H2 & H12). repeat split; auto.
    + apply time_ordered_intro; [exact H1|].
      intros d Hd. apply Hc, in_or_app. left; exact Hd.
    + intros a b [<-|Ha] Hb; [|auto]. apply Hc, in_or_app. right; exact Hb.
Qed.

Lemma record_snoc evs e buf :
  RingBuffer.record (evs ++ [e]) buf =
  App.ondataavailable (fst e) (snd e) (RingBuffer.record evs buf).
Proof. unfold RingBuffer.record. rewrite fold_left_app. reflexivity. Qed.

(** After a run of non-empty fragments with non-decreasing timestamps the
    buffer holds exactly the fragments that are at most 30 minutes older
    than the last one. *)
Lemma record_window evs e :
  Forall (fun ev => blob_size (snd ev) > 0) (evs ++ [e]) ->
  RingBuffer.time_ordered (map RingBuffer.chunk_of (evs ++ [e])) = true ->
  RingBuffer.record (evs ++ [e]) [] =
  filter (fun c => fst e - App.BUFFER_DURATION_MS <=? AudioChunk.timestamp c)
    (map RingBuffer.chunk_of (evs ++ [e])).
Proof.
  revert e. induction evs as [|e' evs IH] using rev_ind; intros e Hsz Hord.
  - cbn [app] in *. inversion Hsz as [|? ? He _]; subst.
    unfold RingBuffer.record. cbn [fold_left map filter].
    unfold App.ondataavailable.
    destruct (Z.gtb_spec (blob_size (snd e)) 0) as [_|]; [|lia].
    cbn [app App.prune_loop RingBuffer.chunk_of AudioChunk.timestamp].
    unfold App.BUFFER_DURATION_MS.
    destruct (Z.ltb_spec (fst e) (fst e - 30 * 60 * 1000)); [lia|].
    destruct (Z.leb_spec (fst e - 30 * 60 * 1000) (fst e)); [reflexivity | lia].
  - rewrite record_snoc.
    assert (Hsz' : Forall (fun ev => blob_size (snd ev) > 0) (evs ++ [e'])).
    { apply Forall_app in Hsz as [Hsz _]. exact Hsz. }
    assert (He : blob_size (snd e) > 0).
    { apply Forall_app in Hsz as [_ Hsz]. inversion Hsz; assumption. }
    rewrite map_app in Hord.
    destruct (time_ordered_app _ _ Hord) as (Hord' & _ & Hlast).
    rewrite (IH e' Hsz' Hord').
    assert (Hle : fst e' <= fst e).
    { apply (Hlast (RingBuffer.chunk_of e') (RingBuffer.chunk_of e)).
      - apply in_map, in_or_app. right. left. reflexivity.
      - left. reflexivity. }
    unfold App.ondataavailable.
    destruct (Z.gtb_spec (blob_size (snd e)) 0) as [_|]; [|lia].
    set (all := map RingBuffer.chunk_of (evs ++ [e'])) in *.
    set (new := AudioChunk.mk (snd e) (fst e)).
    assert (Hnew :
      filter (fun c => fst e' - App.BUFFER_DURATION_MS <=? AudioChunk.timestamp c) all ++ [new] =
      filter (fun c => fst e' - App.BUFFER_DURATION_MS <=? AudioChunk.timestamp c) (all ++ [new])).
    { rewrite filter_app. f_equal. cbn [filter new AudioChunk.timestamp].
      unfold App.BUFFER_DURATION_MS.
      destruct (Z.leb_spec (fst e' - 30 * 60 * 1000) (fst e)); [reflexivity | lia]. }
    rewrite Hnew.
    rewrite prune_loop_filter by (apply time_ordered_filter; exact Hord).
    rewrite filter_filter_cutoff by lia.
    rewrite map_app. reflexivity.
Qed.

Lemma filter_map_comm {A B} (p : B -> bool) (f : A -> B) (l : list A) :
  filter p (map f l) = map f (filter (fun x => p (f x)) l).
Proof.
  induction l as [|a l IH]; [reflexivity|]. cbn [map filter].
  destruct (p (f a)); cbn [map]; rewrite IH; reflexivity.
Qed.

(** Selecting the indices at or above a threshold from a run of
    consecutive indices. *)
Lemma filter_seq_from (lo a n : nat) :
  (a <= lo <= a + n)%nat ->
  filter (fun k => (lo <=? k)%nat) (seq a n) = seq lo (a + n - lo).
Proof.
  revert a. induction n as [|n IH]; intros a H.
  - replace (a + 0 - lo)%nat with 0%nat by lia. reflexivity.
  - cbn [seq filter]. destruct (Nat.leb_spec lo a) as [Hle|Hgt].
    + assert (lo = a) by lia. subst lo.
      replace (a + S n - a)%nat with (S n) by lia. cbn [seq]. f_equal.
      rewrite (filter_ext_in _ (fun _ => true)).
      * clear. induction (seq (S a) n) as [|x l IHl]; [reflexivity|].
        cbn [filter]. f_equal. exact IHl.
      * intros k Hk. apply in_seq in Hk. apply Nat.leb_le. lia.
    + rewrite IH by lia. f_equal. lia.
Qed.

(** ** The forty minute scenario *)

Lemma forty_minutes_chunks t0 payload a n :
  map RingBuffer.chunk_of (map (RingBuffer.fragment t0 payload) (seq a n)) =
  map (fun k => AudioChunk.mk (payload k) (t0 + 1000 * Z.of_nat k)) (seq a n).
Proof. rewrite map_map. reflexivity. Qed.

Lemma fragments_time_ordered t0 payload a n :
  RingBuffer.time_ordered
    (map (fun k => AudioChunk.mk (payload k) (t0 + 1000 * Z.of_nat k)) (seq a n)) = true.
Proof.
  revert a. induction n as [|n IH]; intros a; [reflexivity|].
  cbn [seq map]. apply time_ordered_intro; [apply IH|].
  intros d Hd. apply in_map_iff in Hd as (k & <- & Hk).
  apply in_seq in Hk. cbn [AudioChunk.timestamp]. lia.
Qed.

(** The buffer at the end of the run: fragments 600 .. 2400. *)
Lemma forty_minutes_buffer t0 payload :
  (forall k, blob_size (payload k) > 0) ->
  RingBuffer.record (RingBuffer.forty_minutes t0 payload) [] =
  map (fun k => AudioChunk.mk (payload k) (t0 + 1000 * Z.of_nat k)) (seq 600 1801).
Proof.
  intros Hsz.
  assert (Esplit : RingBuffer.forty_minutes t0 payload =
            map (RingBuffer.fragment t0 payload) (seq 1 2399) ++
            [RingBuffer.fragment t0 payload 2400]).
  { unfold RingBuffer.forty_minutes. change 2400%nat with (S 2399) at 1.
    rewrite seq_S, map_app. reflexivity. }
  rewrite Esplit, record_window; rewrite <- Esplit; unfold RingBuffer.forty_minutes.
  - rewrite forty_minutes_chunks, filter_map_comm.
    f_equal.
    rewrite (filter_ext_in _ (fun k => (600 <=? k)%nat)).
    + apply (filter_seq_from 600 1 2400). lia.
    + intros k _. cbn [RingBuffer.fragment fst AudioChunk.timestamp].
      unfold App.BUFFER_DURATION_MS.
      destruct (Nat.leb_spec 600 k); [apply Z.leb_le | apply Z.leb_gt]; lia.
  - apply Forall_forall. intros ev Hev.
    apply in_map_iff in Hev as (k & <- & _). apply Hsz.
  - rewrite forty_minutes_chunks. apply fragments_time_ordered.
Qed.

Lemma last_300_payloads payload :
  RingBuffer.last_n 300 (RingBuffer.forty_minutes_payloads payload) =
  map payload (seq 2101 300).
Proof.
  unfold RingBuffer.last_n, RingBuffer.forty_minutes_payloads.
  rewrite length_map, length_seq, skipn_map, skipn_seq. reflexivity.
Qed.

Lemma sweep_fragments t0 payload now lo a n :
  (a <= lo <= a + n)%nat ->
  1000 * Z.of_nat lo - 1000 < now - t0 - App.BUFFER_DURATION_MS < 1000 * Z.of_nat lo ->
  filter (fun c => now - AudioChunk.timestamp c <? App.BUFFER_DURATION_MS)
    (map (fun k => AudioChunk.mk (payload k) (t0 + 1000 * Z.of_nat k)) (seq a n)) =
  map (fun k => AudioChunk.mk (payload k) (t0 + 1000 * Z.of_nat k)) (seq lo (a + n - lo)).
Proof.
  intros Hlo Hnow. rewrite filter_map_comm. f_equal.
  rewrite (filter_ext_in _ (fun k => (lo <=? k)%nat)).
  - apply filter_seq_from. exact Hlo.
  - intros k _. cbn [AudioChunk.timestamp].
    destruct (Nat.leb_spec lo k); [apply Z.ltb_lt | apply Z.ltb_ge]; lia.
Qed.

Lemma window_fragments t0 payload now w lo a n :
  (a <= lo <= a + n)%nat ->
  1000 * Z.of_nat lo - 1000 < now - t0 - w <= 1000 * Z.of_nat lo ->
  filter (fun c => AudioChunk.timestamp c >=? now - w)
    (map (fun k => AudioChunk.mk (payload k) (t0 + 1000 * Z.of_nat k)) (seq a n)) =
  map (fun k => AudioChunk.mk (payload k) (t0 + 1000 * Z.of_nat k)) (seq lo (a + n - lo)).
Proof.
  intros Hlo Hnow. rewrite filter_map_comm. f_equal.
  rewrite (filter_ext_in _ (fun k => (lo <=? k)%nat)).
  - apply filter_seq_from. exact Hlo.
  - intros k _. cbn [AudioChunk.timestamp]. rewrite Z.geb_leb.
    destruct (Nat.leb_spec lo k); [apply Z.leb_le | apply Z.leb_gt]; lia.
Qed.

(** C7 (amended). Fragments are captured at every second for forty minutes
    (timestamps [t0 + 1000], ..., [t0 + 2400000]). When [now] is later than
    the last fragment by less than one second, the size display reports
    1800 seconds, and [saveIncident(5)] then stores an incident whose audio
    is the concatenation of exactly the last 300 payloads, in order. *)
Theorem forty_minutes_scenario (t0 now : Z) (payload : nat -> Blob)
    (uuid : string) (incidents : list SavedIncident.t) :
  (forall k, blob_size (payload k) > 0) ->
  t0 + 2400000 < now < t0 + 2401000 ->
  let buffer := RingBuffer.record (RingBuffer.forty_minutes t0 payload) [] in
  let swept := App.bufferSizeTick now buffer in
  snd swept = 1800 /\
  exists inc,
    App.saveIncident now uuid 5 (fst swept) incidents = (Some inc, inc :: incidents) /\
    SavedIncident.durationSeconds inc = 300 /\
    blob_bytes (SavedIncident.blob inc) =
      concat (map blob_bytes
                (RingBuffer.last_n 300 (RingBuffer.forty_minutes_payloads payload))).
Proof.
  intros Hsz Hnow buffer swept.
  assert (Hswept : fst swept =
            map (fun k => AudioChunk.mk (payload k) (t0 + 1000 * Z.of_nat k)) (seq 601 1800)).
  { unfold swept, buffer. rewrite bufferSizeTick_fst, (forty_minutes_buffer _ _ Hsz).
    apply (sweep_fragments t0 payload now 601 600 1801); [lia|].
    unfold App.BUFFER_DURATION_MS. lia. }
  split.
  - assert (E : snd swept =
              Z.of_nat (List.length (fst swept)) * (App.CHUNK_DURATION_MS / 1000)).
    { unfold swept. rewrite bufferSizeTick_fst. reflexivity. }
    rewrite E, Hswept, length_map, length_seq. reflexivity.
  - rewrite Hswept. unfold App.saveIncident.
    rewrite length_map, length_seq. change (1800 =? 0)%nat with false. cbv iota.
    change (5 * 60 * 1000) with 300000.
    rewrite (window_fragments t0 payload now 300000 2101 601 1800) by lia.
    change (601 + 1800 - 2101)%nat with 300%nat.
    rewrite !length_map, length_seq. change (300 =? 0)%nat with false. cbv iota.
    eexists. split; [reflexivity|].
    cbn [SavedIncident.durationSeconds SavedIncident.blob newBlob blob_bytes].
    split; [reflexivity|].
    rewrite last_300_payloads, !map_map. reflexivity.
Qed.

Lemma forty_minutes_scenario_witness :
  let buffer := RingBuffer.record (RingBuffer.forty_minutes 0 RingBuffer.tick_payload) [] in
  let swept := App.bufferSizeTick 2400500 buffer in
  (forall k, blob_size (RingBuffer.tick_payload k) > 0) /\
  0 + 2400000 < 2400500 < 0 + 2401000 /\
  snd swept = 1800 /\
  exists inc,
    App.saveIncident 2400500 "a" 5 (fst swept) [] = (Some inc, [inc]) /\
    SavedIncident.durationSeconds inc = 300 /\
    blob_bytes (SavedIncident.blob inc) =
      concat (map blob_bytes
                (RingBuffer.last_n 300
                   (RingBuffer.forty_minutes_payloads RingBuffer.tick_payload))).
Proof.
  intros buffer swept.
  split; [intros k; reflexivity|]. split; [lia|].
  apply (forty_minutes_scenario 0 2400500 RingBuffer.tick_payload "a" []).
  - intros k. reflexivity.
  - lia.
Defined.

(** C7, as stated, fails when [now] is a whole second of the run. With
    fragments at 1 s .. 2400 s and [now] at 2400 s the save holds 301
    fragments; with fragments at 0 s .. 2399 s and [now] at 2400 s the size
    display reports 1799. *)
Lemma forty_minutes_whole_second_counterexample :
  (let buffer := RingBuffer.record (RingBuffer.forty_minutes 0 RingBuffer.tick_payload) [] in
   let swept := App.bufferSizeTick 2400000 buffer in
   snd swept = 1800 /\
   exists inc,
     App.saveIncident 2400000 "a" 5 (fst swept) [] = (Some inc, [inc]) /\
     SavedIncident.durationSeconds inc = 301 /\
     List.length (blob_bytes (SavedIncident.blob inc)) = 301%nat /\
     blob_bytes (SavedIncident.blob inc) <>
       concat (map blob_bytes
                 (RingBuffer.last_n 300
                    (RingBuffer.forty_minutes_payloads RingBuffer.tick_payload)))) /\
  (let buffer := RingBuffer.record (RingBuffer.forty_minutes (-1000) RingBuffer.tick_payload) [] in
   snd (App.bufferSizeTick 2400000 buffer) = 1799 /\
   snd (App.bufferSizeTick 2400000 buffer) <> 1800).
Proof.
  split.
  - cbv zeta. split; [vm_compute; reflexivity|].
    eexists. split; [vm_compute; reflexivity|].
    split; [reflexivity|]. split; [vm_compute; reflexivity|].
    intros H. apply (f_equal (@List.length byte)) in H. vm_compute in H. discriminate H.
  - cbv zeta. split; [vm_compute; reflexivity | vm_compute; discriminate].
Qed.

(** ** Binary-to-text conversion *)

(** Goals about quotients and remainders by constants. *)
Ltac div_lia := Z.div_mod_to_equations; lia.

Lemma list_ind3 {A} (P : list A -> Prop) :
  P [] -> (forall a, P [a]) -> (forall a b, P [a; b]) ->
  (forall a b c l, P l -> P (a :: b :: c :: l)) ->
  forall l, P l.
Proof.
  intros H0 H1 H2 H3.
  fix IH 1. intros [|a [|b [|c l]]]; [exact H0 | apply H1 | apply H2 |].
  apply H3, IH.
Qed.

Lemma code_range c : 0 <= AudioUtils.code c < 256.
Proof.
  unfold AudioUtils.code. pose proof (N_ascii_bounded c). lia.
Qed.

Lemma byte_char_code c : AudioUtils.byte_char (AudioUtils.code c) = c.
Proof.
  unfold AudioUtils.byte_char, AudioUtils.code.
  rewrite N2Z.id. apply ascii_N_embedding.
Qed.

Lemma sextet_table :
  forallb (fun k =>
             let n := Z.of_nat k in
             let c := AudioUtils.encode_sextet n in
             match AudioUtils.decode_char c with
             | Some m =>
                 (m =? n) && negb (AudioUtils.is_pad c)
                 && negb (AudioUtils.is_ascii_whitespace c)
             | None => false
             end) (seq 0 64) = true.
Proof. vm_compute. reflexivity. Qed.

Lemma sextet_decode n :
  AudioUtils.sextet_ok n ->
  AudioUtils.decode_char (AudioUtils.encode_sextet n) = Some n /\
  AudioUtils.is_pad (AudioUtils.encode_sextet n) = false /\
  AudioUtils.is_ascii_whitespace (AudioUtils.encode_sextet n) = false.
Proof.
  intros Hn. pose proof sextet_table as T.
  rewrite forallb_forall in T. specialize (T (Z.to_nat n)).
  cbv zeta in T. rewrite Z2Nat.id in T by (unfold AudioUtils.sextet_ok in Hn; lia).
  assert (Hin : In (Z.to_nat n) (seq 0 64)).
  { apply in_seq. unfold AudioUtils.sextet_ok in Hn. lia. }
  specialize (T Hin).
  destruct (AudioUtils.decode_char (AudioUtils.encode_sextet n)) as [m|]; [|discriminate].
  apply andb_true_iff in T as [T T3]. apply andb_true_iff in T as [T1 T2].
  apply Z.eqb_eq in T1. subst m.
  repeat split; apply negb_true_iff; assumption.
Qed.

(** The four sextets of a three byte group are in range and regroup to
    the same bytes. *)
Lemma regroup a b c :
  0 <= a < 256 -> 0 <= b < 256 -> 0 <= c < 256 ->
  let s1 := a / 4 in
  let s2 := a mod 4 * 16 + b / 16 in
  let s3 := b mod 16 * 4 + c / 64 in
  let s4 := c mod 64 in
  (AudioUtils.sextet_ok s1 /\ AudioUtils.sextet_ok s2 /\ AudioUtils.sextet_ok s3 /\ AudioUtils.sextet_ok s4) /\
  s1 * 4 + s2 / 16 = a /\
  s2 mod 16 * 16 + s3 / 4 = b /\
  s3 mod 4 * 64 + s4 = c.
Proof.
  intros Ha Hb Hc. cbv zeta. unfold AudioUtils.sextet_ok.
  div_lia.
Qed.

(** The output of the encoder: in-range sextets that decode to the input,
    followed by at most two padding characters. *)
Lemma btoa_groups_shape (s : list ascii) :
  exists gs pad,
    AudioUtils.btoa_groups s = map AudioUtils.encode_sextet gs ++ pad /\
    Forall AudioUtils.sextet_ok gs /\ AudioUtils.padding_ok pad /\
    AudioUtils.decode_groups gs = s /\
    (exists k, List.length gs + List.length pad = 4 * k)%nat /\
    (exists k r, List.length gs = 4 * k + r /\ (r = 0 \/ r = 2 \/ r = 3))%nat.
Proof.
  induction s as [|a|a b|a b c l IH] using list_ind3.
  - exists [], []. cbn. repeat split; auto.
    + left; reflexivity.
    + exists 0%nat; reflexivity.
    + exists 0%nat, 0%nat. auto.
  - pose proof (code_range a) as Ha.
    exists [AudioUtils.code a / 4; AudioUtils.code a mod 4 * 16],
           ["="%char; "="%char].
    cbn [AudioUtils.btoa_groups map app AudioUtils.decode_groups List.length].
    repeat split; auto.
    + repeat constructor; unfold AudioUtils.sextet_ok; div_lia.
    + right; right; reflexivity.
    + replace (AudioUtils.code a / 4 * 4 + AudioUtils.code a mod 4 * 16 / 16)
        with (AudioUtils.code a) by (div_lia).
      rewrite byte_char_code. reflexivity.
    + exists 1%nat; reflexivity.
    + exists 0%nat, 2%nat. auto.
  - pose proof (code_range a) as Ha. pose proof (code_range b) as Hb.
    exists [AudioUtils.code a / 4;
            AudioUtils.code a mod 4 * 16 + AudioUtils.code b / 16;
            AudioUtils.code b mod 16 * 4],
           ["="%char].
    cbn [AudioUtils.btoa_groups map app AudioUtils.decode_groups List.length].
    repeat split; auto.
    + repeat constructor; unfold AudioUtils.sextet_ok; div_lia.
    + right; left; reflexivity.
    + replace (AudioUtils.code a / 4 * 4 +
               (AudioUtils.code a mod 4 * 16 + AudioUtils.code b / 16) / 16)
        with (AudioUtils.code a) by (div_lia).
      replace ((AudioUtils.code a mod 4 * 16 + AudioUtils.code b / 16) mod 16 * 16 +
               AudioUtils.code b mod 16 * 4 / 4)
        with (AudioUtils.code b) by (div_lia).
      rewrite !byte_char_code. reflexivity.
    + exists 1%nat; reflexivity.
    + exists 0%nat, 3%nat. auto.
  - destruct IH as (gs & pad & Henc & Hok & Hpad & Hdec & [k Hk] & (k' & r & Hlen & Hr)).
    pose proof (regroup (AudioUtils.code a) (AudioUtils.code b) (AudioUtils.code c)
                  (code_range a) (code_range b) (code_range c)) as R.
    destruct R as ((O1 & O2 & O3 & O4) & E1 & E2 & E3).
    exists (AudioUtils.code a / 4
            :: AudioUtils.code a mod 4 * 16 + AudioUtils.code b / 16
            :: AudioUtils.code b mod 16 * 4 + AudioUtils.code c / 64
            :: AudioUtils.code c mod 64 :: gs), pad.
    cbn [AudioUtils.btoa_groups map app AudioUtils.decode_groups List.length].
    repeat split; auto.
    + rewrite Henc. reflexivity.
    + rewrite E1, E2, E3, !byte_char_code, Hdec. reflexivity.
    + exists (S k). lia.
    + exists (S k'), r. split; [lia | exact Hr].
Qed.

Lemma sextets_encode gs :
  Forall AudioUtils.sextet_ok gs ->
  AudioUtils.sextets (map AudioUtils.encode_sextet gs) = Some gs.
Proof.
  induction 1 as [|g gs Hg _ IH]; [reflexivity|].
  cbn [map AudioUtils.sextets].
  destruct (sextet_decode g Hg) as (-> & _ & _). rewrite IH. reflexivity.
Qed.

Lemma encoded_no_whitespace gs pad :
  Forall AudioUtils.sextet_ok gs -> AudioUtils.padding_ok pad ->
  filter (fun c => negb (AudioUtils.is_ascii_whitespace c))
    (map AudioUtils.encode_sextet gs ++ pad) =
  map AudioUtils.encode_sextet gs ++ pad.
Proof.
  intros Hgs Hpad. rewrite filter_app. f_equal.
  - induction Hgs as [|g gs Hg _ IH]; [reflexivity|].
    cbn [map filter]. destruct (sextet_decode g Hg) as (_ & _ & ->).
    cbn [negb]. rewrite IH. reflexivity.
  - destruct Hpad as [->|[->| ->]]; reflexivity.
Qed.

Lemma strip_padding_encoded gs pad :
  Forall AudioUtils.sextet_ok gs -> AudioUtils.padding_ok pad ->
  (exists k, List.length gs + List.length pad = 4 * k)%nat ->
  AudioUtils.strip_padding (map AudioUtils.encode_sextet gs ++ pad) =
  map AudioUtils.encode_sextet gs.
Proof.
  intros Hgs Hpad [k Hk]. unfold AudioUtils.strip_padding.
  rewrite length_app, length_map, Hk.
  replace (Z.of_nat (4 * k) mod 4 =? 0) with true
    by (symmetry; apply Z.eqb_eq; div_lia).
  rewrite rev_app_distr, <- map_rev.
  assert (Hrev : Forall AudioUtils.sextet_ok (rev gs)).
  { apply Forall_forall. intros g Hg. apply in_rev in Hg.
    rewrite Forall_forall in Hgs. auto. }
  assert (Eback : map AudioUtils.encode_sextet gs =
                  rev (map AudioUtils.encode_sextet (rev gs))).
  { rewrite map_rev, rev_involutive. reflexivity. }
  destruct Hpad as [->|[->| ->]]; cbn [rev app].
  - rewrite app_nil_r.
    destruct (rev gs) as [|g1 [|g2 r]]; cbn [map]; [reflexivity| |];
      inversion Hrev as [|? ? Hg1 _]; subst;
      destruct (sextet_decode g1 Hg1) as (_ & -> & _); reflexivity.
  - destruct (rev gs) as [|g1 r] eqn:E; cbn [map].
    + rewrite Eback. reflexivity.
    + inversion Hrev as [|? ? Hg1 _]; subst.
      destruct (sextet_decode g1 Hg1) as (_ & -> & _).
      change (AudioUtils.is_pad "="%char) with true. cbv iota.
      rewrite Eback. reflexivity.
  - change (AudioUtils.is_pad "="%char) with true. cbv iota.
    rewrite Eback. reflexivity.
Qed.

Lemma atob_btoa (binary : string) :
  AudioUtils.atob (AudioUtils.btoa binary) = Some binary.
Proof.
  unfold AudioUtils.atob, AudioUtils.btoa.
  rewrite list_ascii_of_string_of_list_ascii.
  destruct (btoa_groups_shape (list_ascii_of_string binary))
    as (gs & pad & -> & Hgs & Hpad & Hdec & Hlen & (k & r & Hk & Hr)).
  rewrite (encoded_no_whitespace _ _ Hgs Hpad).
  rewrite (strip_padding_encoded _ _ Hgs Hpad Hlen).
  rewrite length_map, Hk.
  replace (Z.of_nat (4 * k + r) mod 4 =? 1) with false
    by (symmetry; apply Z.eqb_neq; div_lia).
  rewrite (sextets_encode _ Hgs), Hdec, string_of_list_ascii_of_string.
  reflexivity.
Qed.

(** C9. Decoding the base64 text of a byte array gives back the byte
    array: the decoder does not raise and returns the same bytes. *)
Theorem base64_round_trip (b : list byte) :
  AudioUtils.base64ToUint8Array (AudioUtils.uint8ArrayToBase64 b) = Some b.
Proof.
  unfold AudioUtils.base64ToUint8Array, AudioUtils.uint8ArrayToBase64.
  rewrite atob_btoa, list_ascii_of_string_of_list_ascii, map_map.
  f_equal. rewrite <- (map_id b) at 2. apply map_ext.
  intros x. apply byte_of_ascii_of_byte.
Qed.

(** ** PCM conversion *)

Lemma wrap16_id n : -32768 <= n <= 32767 -> Num.wrap16 n = n.
Proof.
  intros H. unfold Num.wrap16.
  destruct (Z.geb_spec (n mod 65536) 32768); div_lia.
Qed.

(** A clamped negative sample scaled by 0x8000, and a clamped non-negative
    sample scaled by 0x7FFF, truncate into the 16-bit range. *)
Lemma truncate_scaled (q : Q) :
  (inject_Z (-1) <= q)%Q -> (q <= inject_Z 1)%Q ->
  -32768 <= Num.truncate (q * inject_Z 32768) <= 32767 \/ (0 <= q)%Q.
Proof.
  intros Hlo Hhi. destruct (Qlt_le_dec q 0) as [Hneg|Hpos]; [left | right; exact Hpos].
  destruct q as [n d]. unfold Qle, Qlt in *. cbn in Hlo, Hhi, Hneg.
  unfold Num.truncate. cbn [Qmult Qnum Qden inject_Z].
  rewrite Pos.mul_1_r.
  pose proof (Pos2Z.is_pos d) as Hd.
  Z.to_euclidean_division_equations. nia.
Qed.

Lemma truncate_scaled_pos (q : Q) :
  (0 <= q)%Q -> (q <= inject_Z 1)%Q ->
  0 <= Num.truncate (q * inject_Z 32767) <= 32767.
Proof.
  intros Hlo Hhi.
  destruct q as [n d]. unfold Qle in *. cbn in Hlo, Hhi.
  unfold Num.truncate. cbn [Qmult Qnum Qden inject_Z].
  rewrite Pos.mul_1_r.
  pose proof (Pos2Z.is_pos d) as Hd.
  Z.to_euclidean_division_equations. nia.
Qed.

Lemma sample_to_int16 (x : Num.number) :
  let s := Num.max (Num.of_Z (-1)) (Num.min (Num.of_Z 1) x) in
  let v := Num.ToInt16 (if Num.ltb s (Num.of_Z 0)
                        then Num.mul s (Num.of_Z 32768)
                        else Num.mul s (Num.of_Z 32767)) in
  -32768 <= v <= 32767 /\
  (Num.leb x (Num.of_Z (-1)) = true -> v = -32768) /\
  (Num.leb (Num.of_Z 1) x = true -> v = 32767).
Proof.
  destruct x as [|[|]|q].
  - cbv zeta. vm_compute. repeat split; discriminate.
  - cbv zeta. vm_compute. repeat split; discriminate.
  - cbv zeta. vm_compute. repeat split; discriminate.
  - cbv zeta. unfold Num.of_Z.
    cbn [Num.min Num.ltb Num.leb].
    destruct (Qlt_le_dec q (inject_Z 1)) as [Hlt1|Hge1].
    + (* below one *)
      cbn [Num.max Num.ltb].
      destruct (Qlt_le_dec (inject_Z (-1)) q) as [Hgt|Hle].
      * (* strictly inside the interval *)
        cbn [Num.ltb].
        destruct (Qlt_le_dec q (inject_Z 0)) as [Hneg|Hpos];
          cbn [Num.mul Num.ToInt16].
        -- destruct (truncate_scaled q) as [Hb|Hb];
             [apply Qlt_le_weak; exact Hgt | apply Qlt_le_weak; exact Hlt1 | |].
           ++ rewrite wrap16_id by exact Hb.
              split; [exact Hb|]. split; discriminate.
           ++ exfalso. exact (Qlt_irrefl q (Qlt_le_trans _ _ _ Hneg Hb)).
        -- pose proof (truncate_scaled_pos q Hpos (Qlt_le_weak _ _ Hlt1)) as Hb.
           rewrite wrap16_id by lia.
           split; [lia|]. split; discriminate.
      * (* at or below minus one: the clamp yields -1 *)
        change (Num.ToInt16
                  (if Num.ltb (Num.Finite (inject_Z (-1))) (Num.Finite (inject_Z 0))
                   then Num.mul (Num.Finite (inject_Z (-1))) (Num.Finite (inject_Z 32768))
                   else Num.mul (Num.Finite (inject_Z (-1))) (Num.Finite (inject_Z 32767))))
          with (-32768).
        split; [lia|]. split; [reflexivity | discriminate].
    + (* at or above one: the clamp yields 1 *)
      change (Num.ToInt16
                (if Num.ltb (Num.max (Num.Finite (inject_Z (-1))) (Num.Finite (inject_Z 1)))
                            (Num.Finite (inject_Z 0))
                 then Num.mul (Num.max (Num.Finite (inject_Z (-1))) (Num.Finite (inject_Z 1)))
                              (Num.Finite (inject_Z 32768))
                 else Num.mul (Num.max (Num.Finite (inject_Z (-1))) (Num.Finite (inject_Z 1)))
                              (Num.Finite (inject_Z 32767))))
        with 32767.
      split; [lia|]. split; [|reflexivity].
      intros Hc. destruct (Qlt_le_dec (inject_Z (-1)) q) as [_|Hle]; [discriminate|].
      exfalso.
      assert (H : (inject_Z 1 <= inject_Z (-1))%Q) by exact (Qle_trans _ _ _ Hge1 Hle).
      revert H. vm_compute. intros H. apply H. reflexivity.
Qed.

(** C10. The conversion keeps the length, every output sample is a 16-bit
    signed value, every input sample at or below -1 (minus infinity
    included) gives -32768 and every input sample at or above 1 (plus
    infinity included) gives 32767. *)
Theorem float32ToInt16PCM_clamped (float32Data : list Num.number) :
  List.length (AudioUtils.float32ToInt16PCM float32Data) = List.length float32Data /\
  Forall (fun v => -32768 <= v <= 32767) (AudioUtils.float32ToInt16PCM float32Data) /\
  (forall i x, nth_error float32Data i = Some x ->
     Num.leb x (Num.of_Z (-1)) = true ->
     nth_error (AudioUtils.float32ToInt16PCM float32Data) i = Some (-32768)) /\
  (forall i x, nth_error float32Data i = Some x ->
     Num.leb (Num.of_Z 1) x = true ->
     nth_error (AudioUtils.float32ToInt16PCM float32Data) i = Some 32767).
Proof.
  unfold AudioUtils.float32ToInt16PCM.
  split; [apply length_map|]. split; [|split].
  - apply Forall_forall. intros v Hv.
    apply in_map_iff in Hv as (x & <- & _).
    exact (proj1 (sample_to_int16 x)).
  - intros i x Hi Hx. rewrite nth_error_map, Hi. cbn [option_map]. f_equal.
    exact (proj1 (proj2 (sample_to_int16 x)) Hx).
  - intros i x Hi Hx. rewrite nth_error_map, Hi. cbn [option_map]. f_equal.
    exact (proj2 (proj2 (sample_to_int16 x)) Hx).
Qed.

(** ** Numbers: the order of playback times *)

Lemma SFcompare_antisym (x y : spec_float) :
  SFcompare y x = option_map CompOpp (SFcompare x y).
Proof.
  destruct x as [s1|s1| |s1 m1 e1], y as [s2|s2| |s2 m2 e2]; cbn;
    try reflexivity;
    try (destruct s1; reflexivity);
    try (destruct s2; reflexivity);
    try (destruct s1, s2; reflexivity).
  f_equal.
  change (PosDef.Pos.compare_cont Eq m1 m2) with (m1 ?= m2)%positive.
  change (PosDef.Pos.compare_cont Eq m2 m1) with (m2 ?= m1)%positive.
  rewrite (Z.compare_antisym e1 e2), (Pos.compare_antisym m1 m2).
  destruct s1, s2; try reflexivity;
    destruct (e1 ?= e2)%Z; cbn [CompOpp]; try reflexivity.
Qed.

Lemma ltb_irrefl (x : Double.t) : Double.ltb x x = false.
Proof.
  unfold Double.ltb, SFltb. pose proof (SFcompare_antisym x x) as H.
  destruct (SFcompare x x) as [[| |]|]; try reflexivity. discriminate H.
Qed.

Lemma ltb_asym (x y : Double.t) : Double.ltb x y = true -> Double.ltb y x = false.
Proof.
  unfold Double.ltb, SFltb. rewrite (SFcompare_antisym x y).
  destruct (SFcompare x y) as [[| |]|]; cbn; discriminate || reflexivity.
Qed.

(** Two times of which neither is before the other are the same number. *)
Lemma time_eq (x y : Double.t) :
  Double.is_time x = true -> Double.is_time y = true ->
  Double.ltb x y = false -> Double.ltb y x = false -> x = y.
Proof.
  unfold Double.is_time, Double.ltb, SFltb.
  destruct x as [[|]|s1| |[|] m1 e1], y as [[|]|s2| |[|] m2 e2];
    try discriminate; intros _ _; cbn; try discriminate; [reflexivity|].
  change (PosDef.Pos.compare_cont Eq m1 m2) with (m1 ?= m2)%positive.
  change (PosDef.Pos.compare_cont Eq m2 m1) with (m2 ?= m1)%positive.
  rewrite (Z.compare_antisym e1 e2), (Pos.compare_antisym m1 m2).
  destruct (Z.compare_spec e1 e2) as [->| |]; cbn; try discriminate.
  destruct (Pos.compare_spec m1 m2) as [->| |]; cbn; try discriminate.
  reflexivity.
Qed.

Lemma time_not_negative (t : Double.t) :
  Double.is_time t = true -> Double.ltb t Double.zero = false.
Proof.
  unfold Double.is_time, Double.ltb, SFltb.
  destruct t as [[|]|s| |[|] m e]; try discriminate; reflexivity.
Qed.

(** The later of the cursor and the clock, for a cursor at 0. *)
Lemma start_from_zero (t : Double.t) :
  Double.is_time t = true ->
  (if Double.ltb Double.zero t then t else Double.zero) = t.
Proof.
  intros Ht. destruct (Double.ltb Double.zero t) eqn:E; [reflexivity|].
  symmetry. apply time_eq; auto using time_not_negative.
Qed.

(** The later of the cursor and the clock, for a cursor at a time that is
    not after the clock. *)
Lemma start_from_earlier (now t : Double.t) :
  Double.is_time now = true -> Double.is_time t = true ->
  Double.ltb t now = false ->
  (if Double.ltb now t then t else now) = t.
Proof.
  intros Hnow Ht Hle. destruct (Double.ltb now t) eqn:E; [reflexivity|].
  apply time_eq; assumption.
Qed.

(** ** Numbers: rounding to the format

    What [SpecFloat] computes for sums and quotients of numbers that are
    not negative: the result is again a number in canonical form (or
    [+Infinity]), and a sum is not below its first term. *)

Lemma fexp_spec e : fexp e = Z.max (e - 53) (-1074).
Proof. reflexivity. Qed.

Lemma digits2_size p : digits2_pos p = Pos.size p.
Proof. induction p; cbn; congruence. Qed.

Lemma Zdigits2_log2 m : 0 < m -> Zdigits2 m = Z.log2 m + 1.
Proof.
  destruct m as [|p|p]; try lia. intros _. cbn [Zdigits2]. rewrite digits2_size.
  destruct p; cbn; lia.
Qed.

Lemma Zdigits2_nonneg m : 0 <= Zdigits2 m.
Proof. destruct m; cbn; lia. Qed.

Lemma Zdigits2_pos m : 0 < m -> 0 < Zdigits2 m.
Proof. destruct m; cbn; lia. Qed.

Lemma Zdigits2_bounds m : 0 < m -> 2 ^ (Zdigits2 m - 1) <= m < 2 ^ Zdigits2 m.
Proof.
  intros H. rewrite (Zdigits2_log2 m H).
  replace (Z.log2 m + 1 - 1) with (Z.log2 m) by lia.
  replace (Z.log2 m + 1) with (Z.succ (Z.log2 m)) by lia.
  apply Z.log2_spec. exact H.
Qed.

Lemma Zdigits2_mono a b : 0 <= a <= b -> Zdigits2 a <= Zdigits2 b.
Proof.
  intros [Ha Hab]. destruct (Z.eq_dec a 0) as [->|Hne].
  - apply Zdigits2_nonneg.
  - rewrite !Zdigits2_log2 by lia. pose proof (Z.log2_le_mono a b Hab). lia.
Qed.

Lemma Zdigits2_mul_pow2 m k : 0 < m -> 0 <= k -> Zdigits2 (m * 2 ^ k) = Zdigits2 m + k.
Proof.
  intros Hm Hk. assert (0 < 2 ^ k) by (apply Z.pow_pos_nonneg; lia).
  rewrite !Zdigits2_log2 by nia.
  rewrite Z.log2_mul_pow2 by lia. lia.
Qed.

Lemma Zdigits2_div_pow2 m k :
  0 < m -> 0 <= k -> Zdigits2 (m / 2 ^ k) = Z.max 0 (Zdigits2 m - k).
Proof.
  intros Hm Hk. rewrite <- Z.shiftr_div_pow2 by lia.
  destruct (Z.le_gt_cases (Zdigits2 m) k) as [Hle|Hgt].
  - rewrite Z.shiftr_eq_0 by (rewrite Zdigits2_log2 in Hle; lia).
    cbn. lia.
  - assert (0 < Z.shiftr m k).
    { rewrite Z.shiftr_div_pow2 by lia. apply Z.div_str_pos. split.
      - apply Z.pow_pos_nonneg; lia.
      - pose proof (Zdigits2_bounds m Hm) as [Hlo _].
        apply Z.le_trans with (2 ^ (Zdigits2 m - 1)); [|exact Hlo].
        apply Z.pow_le_mono_r; lia. }
    rewrite (Zdigits2_log2 _ H), Z.log2_shiftr by lia.
    rewrite Zdigits2_log2 in * by lia. lia.
Qed.

Lemma shr_m_shr_1 mrs : 0 <= shr_m mrs -> shr_m (shr_1 mrs) = shr_m mrs / 2.
Proof.
  destruct mrs as [m r s]. cbn [shr_m]. intros Hm.
  destruct m as [|[p|p|]|p]; cbn [shr_1 shr_m].
  - reflexivity.
  - rewrite Pos2Z.inj_xI. Z.div_mod_to_equations; lia.
  - rewrite Pos2Z.inj_xO. Z.div_mod_to_equations; lia.
  - reflexivity.
  - lia.
Qed.

Lemma pow2_xO p : 2 ^ Zpos p~0 = 2 ^ Zpos p * 2 ^ Zpos p.
Proof. rewrite Pos2Z.inj_xO, <- Z.pow_add_r by lia. f_equal. lia. Qed.

Lemma pow2_xI p : 2 ^ Zpos p~1 = 2 * (2 ^ Zpos p * 2 ^ Zpos p).
Proof.
  rewrite Pos2Z.inj_xI, <- Z.pow_add_r by lia.
  replace (2 * Zpos p + 1) with (Z.succ (Zpos p + Zpos p)) by lia.
  rewrite Z.pow_succ_r by lia. reflexivity.
Qed.

Lemma shr_m_iter p mrs :
  0 <= shr_m mrs -> shr_m (iter_pos shr_1 p mrs) = shr_m mrs / 2 ^ Zpos p.
Proof.
  revert mrs. induction p as [p IH|p IH|]; intros mrs Hm; cbn [iter_pos].
  - assert (Hp : 0 < 2 ^ Zpos p) by (apply Z.pow_pos_nonneg; lia).
    assert (H1 : 0 <= shr_m (shr_1 mrs)).
    { rewrite shr_m_shr_1 by exact Hm. apply Z.div_pos; lia. }
    assert (H2 : 0 <= shr_m (iter_pos shr_1 p (shr_1 mrs))).
    { rewrite IH by exact H1. apply Z.div_pos; [exact H1|exact Hp]. }
    rewrite IH by exact H2. rewrite IH by exact H1. rewrite shr_m_shr_1 by exact Hm.
    rewrite pow2_xI, !Z.div_div by lia. reflexivity || (f_equal; lia).
  - assert (Hp : 0 < 2 ^ Zpos p) by (apply Z.pow_pos_nonneg; lia).
    assert (H2 : 0 <= shr_m (iter_pos shr_1 p mrs)).
    { rewrite IH by exact Hm. apply Z.div_pos; [exact Hm|exact Hp]. }
    rewrite IH by exact H2. rewrite IH by exact Hm.
    rewrite pow2_xO, !Z.div_div by lia. reflexivity.
  - rewrite shr_m_shr_1 by exact Hm. reflexivity.
Qed.

Lemma shr_m_record m l : shr_m (shr_record_of_loc m l) = m.
Proof. destruct l as [|[| |]]; reflexivity. Qed.

(** Shifting to the exponent of the format. *)
Lemma shr_fexp_spec m e l :
  0 <= m -> e <= fexp (Zdigits2 m + e) ->
  let E := fexp (Zdigits2 m + e) in
  snd (shr_fexp Double.prec Double.emax m e l) = E /\
  shr_m (fst (shr_fexp Double.prec Double.emax m e l)) = m / 2 ^ (E - e).
Proof.
  intros Hm He E. unfold shr_fexp, shr. fold E.
  destruct (E - e) as [|n|n] eqn:En; try lia; cbn [fst snd].
  - split; [lia|]. rewrite shr_m_record, Z.pow_0_r, Z.div_1_r. reflexivity.
  - split; [lia|]. rewrite shr_m_iter by (rewrite shr_m_record; exact Hm).
    rewrite shr_m_record. reflexivity.
Qed.

Lemma round_nearest_even_range m l :
  m <= round_nearest_even m l <= m + 1.
Proof.
  destruct l as [|[| |]]; cbn [round_nearest_even]; try lia.
  destruct (Z.even m); lia.
Qed.

Lemma Zdigits2_succ m : 0 <= m -> Zdigits2 (m + 1) <= Zdigits2 m + 1.
Proof.
  intros Hm. destruct (Z.eq_dec m 0) as [->|Hne]; [cbn; lia|].
  rewrite <- (Zdigits2_mul_pow2 m 1) by lia.
  apply Zdigits2_mono. change (2 ^ 1) with 2. lia.
Qed.

Lemma div_pow2_zero m k : 0 < m -> 0 <= k -> m / 2 ^ k = 0 -> Zdigits2 m <= k.
Proof.
  intros Hm Hk H0. pose proof (Zdigits2_div_pow2 m k Hm Hk) as H.
  rewrite H0 in H. cbn [Zdigits2] in H. lia.
Qed.

Lemma round_aux_spec m e l :
  0 <= m -> e <= fexp (Zdigits2 m + e) ->
  let E := fexp (Zdigits2 m + e) in
  let m1 := m / 2 ^ (E - e) in
  let r := binary_round_aux Double.prec Double.emax false m e l in
  Double.is_cursor r = true /\
  match r with
  | S754_zero _ => m1 = 0
  | S754_finite _ mr er => er = E + 1 \/ (er = E /\ m1 <= Zpos mr)
  | _ => True
  end.
Proof.
  intros Hm He E m1 r. subst r. unfold binary_round_aux.
  destruct (shr_fexp_spec m e l Hm He) as [He' Hm1]. fold E in He', Hm1. fold m1 in Hm1.
  destruct (shr_fexp Double.prec Double.emax m e l) as [mrs' e']. cbn [fst snd] in He', Hm1. subst e'.
  set (m2 := round_nearest_even (shr_m mrs') (loc_of_shr_record mrs')).
  pose proof (round_nearest_even_range (shr_m mrs') (loc_of_shr_record mrs')) as Hm2.
  fold m2 in Hm2. rewrite Hm1 in Hm2.
  assert (HEmin : -1074 <= E) by (unfold E; rewrite fexp_spec; lia).
  assert (Hpow : 0 < 2 ^ (E - e)) by (apply Z.pow_pos_nonneg; lia).
  assert (Hm1pos : 0 <= m1) by (apply Z.div_pos; [exact Hm|exact Hpow]).
  (* the exponent that fits the shifted mantissa *)
  assert (HE1 : (0 < m1 /\ Zdigits2 m1 + E = Zdigits2 m + e) \/ (m1 = 0 /\ E = -1074)).
  { destruct (Z.eq_dec m1 0) as [Hz|Hnz].
    - right. split; [exact Hz|]. destruct (Z.eq_dec m 0) as [->|Hmne].
      + cbn [Zdigits2] in *. unfold E in *. rewrite fexp_spec in *. lia.
      + pose proof (div_pow2_zero m (E - e) ltac:(lia) ltac:(lia) Hz).
        unfold E in *. rewrite fexp_spec in *. lia.
    - left. split; [lia|].
      assert (Hmpos : 0 < m).
      { destruct (Z.eq_dec m 0) as [->|]; [|lia]. unfold m1 in Hnz.
        rewrite Z.div_0_l in Hnz by lia. lia. }
      pose proof (Zdigits2_div_pow2 m (E - e) Hmpos ltac:(lia)) as Hd.
      fold m1 in Hd. pose proof (Zdigits2_pos m1 ltac:(lia)). lia. }
  assert (Hd2 : Zdigits2 m1 <= Zdigits2 m2 <= Zdigits2 m1 + 1).
  { split; [apply Zdigits2_mono; lia|].
    apply Z.le_trans with (Zdigits2 (m1 + 1)); [apply Zdigits2_mono; lia|].
    apply Zdigits2_succ. exact Hm1pos. }
  assert (Hm2z : m2 = 0 -> Zdigits2 m2 = 0) by (intros ->; reflexivity).
  assert (Hm1z : m1 = 0 -> Zdigits2 m1 = 0) by (intros ->; reflexivity).
  assert (HE2 : E <= fexp (Zdigits2 m2 + E) <= E + 1).
  { rewrite fexp_spec. unfold E in HE1 |- *. rewrite fexp_spec in HE1 |- *.
    destruct HE1 as [[Hp Hd]|[Hz HEm]].
    - lia.
    - specialize (Hm1z Hz). lia. }
  destruct (shr_fexp_spec m2 E loc_Exact ltac:(lia) ltac:(lia)) as [He'' Hm3].
  destruct (shr_fexp Double.prec Double.emax m2 E loc_Exact) as [mrs'' e''].
  cbn [fst snd] in He'', Hm3. subst e''.
  set (E2 := fexp (Zdigits2 m2 + E)) in *.
  assert (Hpow2 : 0 < 2 ^ (E2 - E)) by (apply Z.pow_pos_nonneg; lia).
  assert (Hm3pos : 0 <= shr_m mrs'').
  { rewrite Hm3. apply Z.div_pos; lia. }
  destruct (shr_m mrs'') as [|m3|m3] eqn:Em3; [| |lia].
  - split; [reflexivity|].
    destruct (Z.eq_dec E2 E) as [Heq|Hne].
    + rewrite Heq, Z.sub_diag, Z.pow_0_r, Z.div_1_r in Hm3. lia.
    + assert (E2 = E + 1) by lia.
      destruct (Z.eq_dec m2 0) as [Hz|Hnz]; [lia|].
      symmetry in Hm3.
      pose proof (div_pow2_zero m2 (E2 - E) ltac:(lia) ltac:(lia) Hm3) as Hd.
      unfold E2 in H. rewrite fexp_spec in H. lia.
  - destruct (Z.leb_spec E2 (Double.emax - Double.prec)) as [Hb|Hb]; [|split; [reflexivity|exact I]].
    split.
    + cbn [Double.is_cursor valid_binary]. unfold bounded, canonical_mantissa.
      apply andb_true_iff. split; [|apply Z.leb_le; exact Hb].
      apply Z.eqb_eq. change (Zpos (digits2_pos m3)) with (Zdigits2 (Zpos m3)).
      rewrite Hm3.
      assert (Hm2pos : 0 < m2).
      { destruct (Z.eq_dec m2 0) as [Hz|]; [|lia]. rewrite Hz, Z.div_0_l in Hm3 by lia. lia. }
      pose proof (Zdigits2_div_pow2 m2 (E2 - E) Hm2pos ltac:(lia)) as Hd.
      pose proof (Zdigits2_pos (m2 / 2 ^ (E2 - E)) ltac:(lia)).
      replace (Zdigits2 (m2 / 2 ^ (E2 - E)) + E2) with (Zdigits2 m2 + E) by lia.
      reflexivity.
    + destruct (Z.eq_dec E2 E) as [Heq|Hne]; [right|left; lia].
      split; [exact Heq|].
      rewrite Heq, Z.sub_diag, Z.pow_0_r, Z.div_1_r in Hm3. lia.
Qed.

Lemma iter_xO m d : Zpos (Pos.iter xO m d) = Zpos m * 2 ^ Zpos d.
Proof.
  induction d as [|d IH] using Pos.peano_ind.
  - cbn [Pos.iter]. lia.
  - rewrite Pos.iter_succ, Pos2Z.inj_xO, IH, Pos2Z.inj_succ, Z.pow_succ_r by lia. lia.
Qed.

Lemma binary_round_spec m e :
  let E := fexp (Zdigits2 (Zpos m) + e) in
  let r := binary_round Double.prec Double.emax false m e in
  Double.is_cursor r = true /\
  match r with
  | S754_zero _ => e <= E /\ Zpos m / 2 ^ (E - e) = 0
  | S754_finite _ mr er =>
      er = E + 1 \/ (er = E /\ (e <= E -> Zpos m / 2 ^ (E - e) <= Zpos mr))
  | _ => True
  end.
Proof.
  intros E r. subst r. unfold binary_round, shl_align.
  change (Zpos (digits2_pos m)) with (Zdigits2 (Zpos m)). fold E.
  destruct (E - e) as [|d|d] eqn:Ed.
  - pose proof (round_aux_spec (Zpos m) e loc_Exact ltac:(lia) ltac:(fold E; lia)) as H.
    cbv zeta in H. fold E in H. rewrite Ed in H. destruct H as [Hg Hr].
    split; [exact Hg|].
    destruct (binary_round_aux Double.prec Double.emax false (Zpos m) e loc_Exact) as [s|s| |s mr er];
      try exact I.
    + split; [lia|exact Hr].
    + destruct Hr as [Hr|[Hr1 Hr2]]; [left; exact Hr|right]. split; [exact Hr1|]. intros _; exact Hr2.
  - pose proof (round_aux_spec (Zpos m) e loc_Exact ltac:(lia) ltac:(fold E; lia)) as H.
    cbv zeta in H. fold E in H. rewrite Ed in H. destruct H as [Hg Hr].
    split; [exact Hg|].
    destruct (binary_round_aux Double.prec Double.emax false (Zpos m) e loc_Exact) as [s|s| |s mr er];
      try exact I.
    + split; [lia|exact Hr].
    + destruct Hr as [Hr|[Hr1 Hr2]]; [left; exact Hr|right]. split; [exact Hr1|]. intros _; exact Hr2.
  - assert (Hdig : Zdigits2 (Zpos (Pos.iter xO m d)) + E = Zdigits2 (Zpos m) + e).
    { rewrite iter_xO, Zdigits2_mul_pow2 by lia. lia. }
    assert (HE : fexp (Zdigits2 (Zpos (Pos.iter xO m d)) + E) = E).
    { rewrite Hdig. reflexivity. }
    pose proof (round_aux_spec (Zpos (Pos.iter xO m d)) E loc_Exact ltac:(lia)
                  ltac:(rewrite HE; lia)) as H.
    cbv zeta in H. rewrite HE, Z.sub_diag, Z.pow_0_r, Z.div_1_r in H.
    destruct H as [Hg Hr]. split; [exact Hg|].
    destruct (binary_round_aux Double.prec Double.emax false (Zpos (Pos.iter xO m d)) E loc_Exact)
      as [s|s| |s mr er]; try exact I.
    + discriminate Hr.
    + destruct Hr as [Hr|[Hr1 Hr2]]; [left; exact Hr|right]. split; [exact Hr1|]. lia.
Qed.

Lemma canonical_exponent m e :
  bounded Double.prec Double.emax m e = true -> fexp (Zdigits2 (Zpos m) + e) = e.
Proof.
  unfold bounded, canonical_mantissa. intros H. apply andb_true_iff in H as [H _].
  apply Z.eqb_eq in H. exact H.
Qed.

(** The sum of two positive numbers is not below the first. *)
Lemma add_finite_spec mx ex md ed :
  bounded Double.prec Double.emax mx ex = true ->
  let x := S754_finite false mx ex in
  let r := SFadd Double.prec Double.emax x (S754_finite false md ed) in
  Double.is_cursor r = true /\ Double.ltb r x = false.
Proof.
  intros Hx x r. subst r x. unfold SFadd. cbn [cond_Zopp].
  pose proof (canonical_exponent mx ex Hx) as Hcan.
  set (ez := Z.min ex ed).
  assert (Hshl : forall m e, ez <= e -> Zpos (fst (shl_align m e ez)) = Zpos m * 2 ^ (e - ez)).
  { intros m e Hle. unfold shl_align. destruct (ez - e) as [|d|d] eqn:Ed; cbn [fst]; try lia.
    - replace (e - ez) with 0 by lia. lia.
    - rewrite iter_xO. f_equal. f_equal. lia. }
  rewrite (Hshl mx ex ltac:(lia)), (Hshl md ed ltac:(lia)).
  assert (Hpx : 0 < 2 ^ (ex - ez)) by (apply Z.pow_pos_nonneg; lia).
  assert (Hpd : 0 < 2 ^ (ed - ez)) by (apply Z.pow_pos_nonneg; lia).
  destruct (Zpos mx * 2 ^ (ex - ez) + Zpos md * 2 ^ (ed - ez)) as [|M|M] eqn:EM; try nia.
  cbn [binary_normalize].
  pose proof (binary_round_spec M ez) as H. cbv zeta in H.
  remember (fexp (Zdigits2 (Zpos M) + ez)) as E eqn:HeqE.
  assert (Hdig : Zdigits2 (Zpos mx) + ex <= Zdigits2 (Zpos M) + ez).
  { pose proof (Zdigits2_mul_pow2 (Zpos mx) (ex - ez) ltac:(lia) ltac:(lia)) as Hd.
    pose proof (Zdigits2_mono (Zpos mx * 2 ^ (ex - ez)) (Zpos M) ltac:(nia)). lia. }
  rewrite fexp_spec in HeqE, Hcan.
  assert (HE : ex <= E) by lia.
  destruct H as [Hg Hr]. split; [exact Hg|].
  unfold Double.ltb, SFltb.
  destruct (binary_round Double.prec Double.emax false M ez) as [s|s| |s mr er];
    cbn [Double.is_cursor valid_binary] in Hg; try discriminate Hg.
  - (* zero: impossible *)
    exfalso. destruct Hr as [_ Hr].
    pose proof (div_pow2_zero (Zpos M) (E - ez) ltac:(lia) ltac:(lia) Hr) as Hd.
    assert (HEx : ex = E) by lia.
    assert (0 < 2 ^ (E - ez)) by (apply Z.pow_pos_nonneg; lia).
    assert (Zpos M < 2 ^ (E - ez)).
    { apply Z.div_small_iff in Hr; [|lia]. destruct Hr as [Hr|Hr]; lia. }
    rewrite HEx in *. nia.
  - destruct s; [discriminate Hg|]. reflexivity.
  - destruct s; [discriminate Hg|]. cbn [SFcompare].
    destruct Hr as [Hr|[Hr1 Hr2]].
    + destruct (Z.compare_spec er ex); try reflexivity; lia.
    + destruct (Z.compare_spec er ex) as [Heq| |]; try reflexivity; [|lia].
      specialize (Hr2 ltac:(lia)).
      change (PosDef.Pos.compare_cont Eq mr mx) with (mr ?= mx)%positive.
      destruct (Pos.compare_spec mr mx) as [| |Hlt]; try reflexivity.
      exfalso.
      assert (HEx : ex = E) by lia. rewrite HEx in *.
      assert (0 < 2 ^ (E - ez)) by (apply Z.pow_pos_nonneg; lia).
      assert (Zpos mx <= Zpos M / 2 ^ (E - ez)).
      { apply Z.div_le_lower_bound; [lia|]. nia. }
      lia.
Qed.

Lemma not_before_trans x y z :
  Double.is_cursor x = true -> Double.is_cursor y = true -> Double.is_cursor z = true ->
  Double.ltb y x = false -> Double.ltb z y = false -> Double.ltb z x = false.
Proof.
  unfold Double.ltb, SFltb, Double.is_cursor.
  destruct x as [[|]|[|]| |[|] m1 e1]; try discriminate;
  destruct y as [[|]|[|]| |[|] m2 e2]; try discriminate;
  destruct z as [[|]|[|]| |[|] m3 e3]; try discriminate;
  intros _ _ _; cbn [SFcompare]; try reflexivity; try discriminate.
  change (PosDef.Pos.compare_cont Eq m2 m1) with (m2 ?= m1)%positive.
  change (PosDef.Pos.compare_cont Eq m3 m2) with (m3 ?= m2)%positive.
  change (PosDef.Pos.compare_cont Eq m3 m1) with (m3 ?= m1)%positive.
  destruct (Z.compare_spec e2 e1), (Z.compare_spec e3 e2), (Z.compare_spec e3 e1);
    try discriminate; try reflexivity; try lia;
    destruct (Pos.compare_spec m2 m1), (Pos.compare_spec m3 m2), (Pos.compare_spec m3 m1);
    try discriminate; try reflexivity; try lia.
Qed.

Lemma add_cursor x d :
  Double.is_cursor x = true -> Double.is_cursor d = true ->
  Double.is_cursor (Double.add x d) = true /\ Double.ltb (Double.add x d) x = false.
Proof.
  destruct x as [[|]|[|]| |[|] mx ex]; try discriminate;
  destruct d as [[|]|[|]| |[|] md ed]; try discriminate; intros Hx Hd;
    try (split; [assumption || reflexivity | apply ltb_irrefl || reflexivity]).
  apply add_finite_spec. exact Hx.
Qed.

Lemma of_Z_cursor n : 0 <= n -> Double.is_cursor (Double.of_Z n) = true.
Proof.
  intros Hn. destruct n as [|m|m]; [reflexivity| |lia].
  cbn [binary_normalize]. exact (proj1 (binary_round_spec m 0)).
Qed.

Lemma Zdigits2_pow2 k : 0 <= k -> Zdigits2 (2 ^ k) = k + 1.
Proof.
  intros Hk. rewrite <- (Z.mul_1_l (2 ^ k)).
  rewrite Zdigits2_mul_pow2 by lia. cbn [Zdigits2 digits2_pos]. lia.
Qed.

Lemma div_finite_cursor mx ex my ey :
  Double.is_cursor (SFdiv Double.prec Double.emax (S754_finite false mx ex) (S754_finite false my ey)) = true.
Proof.
  unfold SFdiv, SFdiv_core_binary. cbn [xorb].
  set (d1 := Zdigits2 (Zpos mx)). set (d2 := Zdigits2 (Zpos my)).
  set (L := d1 + ex - (d2 + ey)).
  remember (Z.min (fexp L) (ex - ey)) as e' eqn:He'.
  remember (ex - ey - e') as s eqn:Hs.
  assert (Hs0 : 0 <= s) by lia.
  set (m' := match s with Zpos _ => Z.shiftl (Zpos mx) s | 0 => Zpos mx | Zneg _ => 0 end).
  assert (Hm' : m' = Zpos mx * 2 ^ s).
  { unfold m'. destruct s as [|p|p]; [lia| |lia]. rewrite Z.shiftl_mul_pow2 by lia. reflexivity. }
  assert (Hq : fst (Z.div_eucl m' (Zpos my)) = m' / Zpos my) by reflexivity.
  destruct (Z.div_eucl m' (Zpos my)) as [q r]. cbn [fst] in Hq.
  assert (Hpow : 0 < 2 ^ s) by (apply Z.pow_pos_nonneg; lia).
  assert (Hm'pos : 0 < m') by nia.
  assert (Hq0 : 0 <= q) by (rewrite Hq; apply Z.div_pos; lia).
  apply round_aux_spec; [exact Hq0|].
  pose proof (Zdigits2_bounds (Zpos mx) ltac:(lia)) as [Hx1 Hx2]. fold d1 in Hx1, Hx2.
  pose proof (Zdigits2_bounds (Zpos my) ltac:(lia)) as [Hy1 Hy2]. fold d2 in Hy1, Hy2.
  pose proof (Zdigits2_pos (Zpos mx) ltac:(lia)) as Hd1. fold d1 in Hd1.
  pose proof (Zdigits2_pos (Zpos my) ltac:(lia)) as Hd2. fold d2 in Hd2.
  assert (Hdm' : Zdigits2 m' = d1 + s).
  { rewrite Hm'. apply Zdigits2_mul_pow2; lia. }
  rewrite fexp_spec in *.
  destruct (Z.eq_dec q 0) as [Hz|Hnz].
  - rewrite Hz. cbn [Zdigits2].
    assert (m' < Zpos my).
    { symmetry in Hq. rewrite Hz in Hq. apply Z.div_small_iff in Hq; lia. }
    pose proof (Zdigits2_mono m' (Zpos my) ltac:(lia)) as Hmono. fold d2 in Hmono.
    lia.
  - assert (Hdq : d1 + s - d2 <= Zdigits2 q).
    { destruct (Z.le_gt_cases (d1 + s - d2) 0) as [Hsmall|Hbig].
      - pose proof (Zdigits2_pos q ltac:(lia)). lia.
      - assert (Hk : 2 ^ (d1 + s - d2 - 1) <= q).
        { rewrite Hq. apply Z.div_le_lower_bound; [lia|].
          apply Z.le_trans with (2 ^ d2 * 2 ^ (d1 + s - d2 - 1)).
          - assert (0 < 2 ^ (d1 + s - d2 - 1)) by (apply Z.pow_pos_nonneg; lia). nia.
          - rewrite <- Z.pow_add_r by lia.
            replace (d2 + (d1 + s - d2 - 1)) with ((d1 - 1) + s) by lia.
            rewrite Z.pow_add_r by lia. nia. }
        assert (Hk0 : 0 <= 2 ^ (d1 + s - d2 - 1)) by (apply Z.pow_nonneg; lia).
        pose proof (Zdigits2_mono _ _ (conj Hk0 Hk)) as Hmono.
        rewrite Zdigits2_pow2 in Hmono by lia. lia. }
    lia.
Qed.

Lemma div_cursor a mb eb :
  Double.is_cursor a = true ->
  Double.is_cursor (Double.div a (S754_finite false mb eb)) = true.
Proof.
  destruct a as [[|]|[|]| |[|] ma ea]; try discriminate; intros _;
    try reflexivity.
  apply div_finite_cursor.
Qed.

Lemma is_time_cursor (x : Double.t) : Double.is_time x = true -> Double.is_cursor x = true.
Proof. destruct x as [[|]|[|]| |[|] m e]; cbn; intros H; discriminate H || exact H || reflexivity. Qed.

Lemma leb_ltb_false (x y : Double.t) : Double.leb x y = true -> Double.ltb y x = false.
Proof.
  unfold Double.leb, SFleb, Double.ltb, SFltb. rewrite (SFcompare_antisym x y).
  destruct (SFcompare x y) as [[| |]|]; cbn; discriminate || reflexivity.
Qed.

Lemma ltb_false_leb (x y : Double.t) :
  Double.is_cursor x = true -> Double.is_cursor y = true ->
  Double.ltb y x = false -> Double.leb x y = true.
Proof.
  unfold Double.leb, SFleb, Double.ltb, SFltb. rewrite (SFcompare_antisym x y).
  destruct x as [[|]|[|]| |[|] m1 e1]; try discriminate;
  destruct y as [[|]|[|]| |[|] m2 e2]; try discriminate; intros _ _;
    try reflexivity; try discriminate.
  destruct (SFcompare (S754_finite false m1 e1) (S754_finite false m2 e2)) as [[| |]|] eqn:E;
    cbn; try reflexivity; try discriminate.
Qed.

Lemma leb_refl (x : Double.t) : Double.is_cursor x = true -> Double.leb x x = true.
Proof. intros H. apply ltb_false_leb; [exact H | exact H | apply ltb_irrefl]. Qed.

Lemma leb_trans (x y z : Double.t) :
  Double.is_cursor x = true -> Double.is_cursor y = true -> Double.is_cursor z = true ->
  Double.leb x y = true -> Double.leb y z = true -> Double.leb x z = true.
Proof.
  intros Hx Hy Hz Hxy Hyz. apply ltb_false_leb; [exact Hx | exact Hz |].
  apply (not_before_trans x y z Hx Hy Hz); apply leb_ltb_false; assumption.
Qed.

(** A sum of two numbers that are not negative is such a number, and is
    not below its first term. *)
Lemma add_leb (x d : Double.t) :
  Double.is_cursor x = true -> Double.is_cursor d = true ->
  Double.is_cursor (Double.add x d) = true /\ Double.leb x (Double.add x d) = true.
Proof.
  intros Hx Hd. destruct (add_cursor x d Hx Hd) as [Hsum Hle].
  split; [exact Hsum|]. apply ltb_false_leb; assumption.
Qed.

(** The duration of a clip at the rate of the session. *)
Lemma duration_cursor (b : AudioUtils.AudioBuffer) :
  AudioUtils.sampleRate b = 24000%positive ->
  Double.is_cursor (AudioUtils.duration b) = true.
Proof.
  intros Hrate. unfold AudioUtils.duration. rewrite Hrate.
  assert (Hb : exists mb eb, Double.of_Z 24000 = S754_finite false mb eb).
  { eexists _, _. vm_compute. reflexivity. }
  destruct Hb as (mb & eb & ->).
  apply div_cursor, of_Z_cursor. unfold AudioUtils.frameCount. lia.
Qed.

(** ** Live session: playback scheduling *)

Import LiveTacticalMonitor.

Lemma handleTranscription_schedule msg st :
  audioSources (handleTranscription msg st) = audioSources st /\
  nextStartTime (handleTranscription msg st) = nextStartTime st /\
  stopped (handleTranscription msg st) = stopped st.
Proof.
  unfold handleTranscription.
  destruct (outputTranscription msg) as [text|]; [|auto].
  destruct (is_empty text); auto.
Qed.

Lemma handleTurnComplete_schedule msg st :
  audioSources (handleTurnComplete msg st) = audioSources st /\
  nextStartTime (handleTurnComplete msg st) = nextStartTime st /\
  stopped (handleTurnComplete msg st) = stopped st.
Proof. unfold handleTurnComplete. destruct (turnComplete msg); auto. Qed.

Lemma is_time_accepts (t : Double.t) : Double.is_time t = true -> accepts_start t = true.
Proof. destruct t as [[|]|[|]| |[|] m e]; cbn; intros H; discriminate H || reflexivity. Qed.

(** What the audio branch does with a payload that decodes, when the
    start time is one that [start] accepts. *)
Lemma handleAudio_clip ctx msg audioBuffer st :
  carries_clip ctx msg audioBuffer ->
  let start :=
    if Double.ltb (nextStartTime st) (currentTime ctx)
    then currentTime ctx else nextStartTime st in
  accepts_start start = true ->
  exists src,
    handleAudio (Some ctx) msg st =
      Returned (mkState (audioSources st ++ [src]) (endTime src)
                  (transcription st) (stopped st) (S (created st))) /\
    buffer src = audioBuffer /\ node src = created st /\ startTime src = start.
Proof.
  intros (_ & audioData & pcmData & Hdata & Hne & Hdec & Hbuf) start Hok.
  unfold handleAudio. rewrite Hdata, Hne, Hdec, Hbuf. fold start. rewrite Hok.
  eexists (mkSource _ _ _). split; [reflexivity|]. auto.
Qed.

Lemma onmessage_clip ctx msg audioBuffer st :
  carries_clip ctx msg audioBuffer ->
  let start :=
    if Double.ltb (nextStartTime st) (currentTime ctx)
    then currentTime ctx else nextStartTime st in
  accepts_start start = true ->
  exists st' src,
    onmessage true (Some ctx) msg st = Returned st' /\
    audioSources st' = audioSources st ++ [src] /\
    nextStartTime st' = endTime src /\
    stopped st' = stopped st /\
    buffer src = audioBuffer /\
    startTime src = start.
Proof.
  intros Hclip start Hok.
  destruct (handleAudio_clip ctx msg audioBuffer st Hclip Hok)
    as (src & Haudio & Hbuf & _ & Hstart).
  destruct Hclip as (Hint & _).
  unfold onmessage. cbn [negb]. rewrite Hint, Haudio.
  eexists _, src. split; [reflexivity|].
  destruct (handleTurnComplete_schedule msg
              (handleTranscription msg
                 (mkState (audioSources st ++ [src]) (endTime src)
                    (transcription st) (stopped st) (S (created st)))))
    as (-> & -> & ->).
  destruct (handleTranscription_schedule msg
              (mkState (audioSources st ++ [src]) (endTime src)
                 (transcription st) (stopped st) (S (created st))))
    as (-> & -> & ->).
  cbn [audioSources nextStartTime stopped]. auto.
Qed.

(** The start time chosen by the audio branch is not before the clock and
    not before the cursor. *)
Lemma start_not_before (cursor now : Double.t) :
  let start := if Double.ltb cursor now then now else cursor in
  Double.ltb start now = false /\ Double.ltb start cursor = false.
Proof.
  cbv zeta. destruct (Double.ltb cursor now) eqn:E.
  - split; [apply ltb_irrefl | apply ltb_asym, E].
  - split; [exact E | apply ltb_irrefl].
Qed.

Lemma start_leb (cursor now : Double.t) :
  Double.is_cursor cursor = true -> Double.is_time now = true ->
  let start := if Double.ltb cursor now then now else cursor in
  Double.is_cursor start = true /\
  Double.leb now start = true /\ Double.leb cursor start = true.
Proof.
  intros Hc Hn start. pose proof (is_time_cursor now Hn) as Hn'.
  destruct (start_not_before cursor now) as [H1 H2]. fold start in H1, H2.
  assert (Hs : Double.is_cursor start = true).
  { unfold start. destruct (Double.ltb cursor now); assumption. }
  split; [exact Hs|]. split; apply ltb_false_leb; assumption.
Qed.

(** A start time that [start] does not accept, when it is no NaN and not
    negative, is [+Infinity]. *)
Lemma unaccepted_start (start d : Double.t) :
  Double.is_cursor start = true -> accepts_start start = false ->
  Double.is_cursor d = true -> Double.add start d = start.
Proof.
  destruct start as [[|]|[|]| |[|] m e]; try discriminate; intros _ _.
  destruct d as [[|]|[|]| |[|] md ed]; try discriminate; reflexivity.
Qed.

Lemma pcmToAudioBuffer_rate pcmData ctx rate audioBuffer :
  AudioUtils.pcmToAudioBuffer pcmData ctx rate = Some audioBuffer ->
  AudioUtils.sampleRate audioBuffer = rate.
Proof.
  unfold AudioUtils.pcmToAudioBuffer.
  destruct (List.length (AudioUtils.int16_view pcmData) =? 0)%nat; [discriminate|].
  destruct (negb (supportsRate ctx rate)); [discriminate|].
  intros [= <-]. reflexivity.
Qed.

Lemma in_order_snoc (st : State) (src : AudioBufferSourceNode) (cursor : Double.t) :
  in_order st ->
  AudioUtils.sampleRate (buffer src) = 24000%positive ->
  Double.is_cursor (startTime src) = true ->
  Double.leb (nextStartTime st) (startTime src) = true ->
  Double.is_cursor cursor = true ->
  Double.leb (startTime src) cursor = true ->
  Double.leb (endTime src) cursor = true ->
  in_order (mkState (audioSources st ++ [src]) cursor
              (transcription st) (stopped st) (S (created st))).
Proof.
  intros (Hcur & Hall & Hpairs) Hrate Hstart Hle Hcursor Hsc Hend.
  unfold in_order. cbn [audioSources nextStartTime].
  assert (Hends : forall s, In s (audioSources st) ->
            Double.is_cursor (endTime s) = true /\
            Double.leb (endTime s) (startTime src) = true).
  { intros s Hs. rewrite Forall_forall in Hall.
    destruct (Hall s Hs) as (Hr & Hst & Hen).
    assert (He : Double.is_cursor (endTime s) = true).
    { apply add_leb; [exact Hst | apply duration_cursor, Hr]. }
    split; [exact He|].
    apply (leb_trans _ (nextStartTime st)); assumption. }
  split; [exact Hcursor|]. split.
  - apply Forall_app. split.
    + apply Forall_forall. intros s Hs. rewrite Forall_forall in Hall.
      destruct (Hall s Hs) as (Hr & Hst & Hen). destruct (Hends s Hs) as [He Hes].
      split; [exact Hr|]. split; [exact Hst|].
      apply (leb_trans _ (startTime src)); assumption.
    + constructor; [|constructor]. auto.
  - clear Hall. induction Hpairs as [|a l Ha Hl IH]; cbn [app].
    + constructor; constructor.
    + constructor.
      * apply Forall_app. split; [exact Ha|]. constructor; [|constructor].
        apply Hends. left; reflexivity.
      * apply IH. intros s Hs. apply Hends. right; exact Hs.
Qed.

Lemma handleAudio_in_order ctx msg st :
  clock_reads_time (Message true ctx msg) = true ->
  in_order st -> in_order (state_of (handleAudio ctx msg st)).
Proof.
  intros Hclock Hord. unfold handleAudio.
  destruct (inlineData msg) as [audioData|]; [|exact Hord].
  destruct ctx as [ctx|]; [|exact Hord].
  destruct (is_empty audioData); [exact Hord|].
  destruct (AudioUtils.base64ToUint8Array audioData) as [pcmData|]; [|exact Hord].
  destruct (AudioUtils.pcmToAudioBuffer pcmData ctx 24000) as [audioBuffer|] eqn:Ebuf;
    [|exact Hord].
  cbn [clock_reads_time] in Hclock.
  pose proof (pcmToAudioBuffer_rate _ _ _ _ Ebuf) as Hrate.
  pose proof (duration_cursor audioBuffer Hrate) as Hdur.
  destruct (start_leb (nextStartTime st) (currentTime ctx) (proj1 Hord) Hclock)
    as (Hstart & _ & Hle).
  set (start := if Double.ltb (nextStartTime st) (currentTime ctx)
                then currentTime ctx else nextStartTime st) in *.
  destruct (add_leb start (AudioUtils.duration audioBuffer) Hstart Hdur) as [Hsum Hsle].
  destruct (accepts_start start) eqn:Eok; cbn [state_of].
  - apply in_order_snoc; cbn [buffer startTime]; try assumption.
    apply leb_refl. exact Hsum.
  - apply in_order_snoc; cbn [buffer startTime]; try assumption.
    + apply leb_refl. exact Hstart.
    + unfold endTime. cbn [buffer startTime].
      rewrite (unaccepted_start start _ Hstart Eok Hdur). apply leb_refl. exact Hstart.
Qed.

Lemma in_order_transcript st1 st2 :
  audioSources st2 = audioSources st1 -> nextStartTime st2 = nextStartTime st1 ->
  in_order st1 -> in_order st2.
Proof. unfold in_order. intros -> ->. auto. Qed.

Lemma step_in_order st ev :
  clock_reads_time ev = true -> in_order st -> in_order (step st ev).
Proof.
  intros Hclock Hord. destruct ev as [isMounted ctx msg|n]; cbn [step].
  - unfold onmessage. destruct isMounted; cbn [negb state_of]; [|exact Hord].
    destruct (interrupted msg); cbn [state_of].
    + unfold in_order. cbn. repeat split; constructor.
    + pose proof (handleAudio_in_order ctx msg st Hclock Hord) as H.
      destruct (handleAudio ctx msg st) as [st1|st1]; cbn [state_of] in *; [|exact H].
      destruct (handleTurnComplete_schedule msg (handleTranscription msg st1)) as (E1 & E2 & _).
      destruct (handleTranscription_schedule msg st1) as (E3 & E4 & _).
      apply (in_order_transcript st1); [congruence | congruence | exact H].
  - destruct Hord as (Hcur & Hall & Hpairs).
    unfold in_order. cbn [onended audioSources nextStartTime].
    split; [exact Hcur|]. split.
    + apply Forall_forall. intros s Hs. apply filter_In in Hs as [Hs _].
      rewrite Forall_forall in Hall. auto.
    + clear Hall. induction Hpairs as [|a l Ha Hl IH]; cbn [filter]; [constructor|].
      destruct (negb (node a =? n)%nat); [|exact IH]. constructor; [|exact IH].
      apply Forall_forall. intros b Hb. apply filter_In in Hb as [Hb _].
      rewrite Forall_forall in Ha. auto.
Qed.

(** While every clock reads a time, the scheduled set stays in playback
    order and the cursor is at or after the end of every clip in it. *)
Lemma run_in_order events :
  forallb clock_reads_time events = true -> in_order (run events initial).
Proof.
  induction events as [|ev events IH] using rev_ind; intros H.
  - unfold in_order. cbn. repeat split; constructor.
  - rewrite forallb_app in H. apply andb_true_iff in H as [Hevs Hev].
    cbn [forallb] in Hev. rewrite andb_true_r in Hev.
    unfold run in *. rewrite fold_left_app. cbn [fold_left].
    apply step_in_order; [exact Hev | exact (IH Hevs)].
Qed.

(** C4 (amended). A synthesized-audio payload that arrives while the
    session is connected is scheduled at the later of the current playback
    time and the cursor: not in the past, not before the cursor and not
    before the end that the schedule has reserved for any clip of the
    scheduled set. The cursor then becomes the sum, as a number, of the
    start time and the clip's duration, which is not before the start. The
    next payload starts no earlier than that sum, and exactly at it when it
    arrives before it. (Clocks read times, and the start times are numbers
    that [start] accepts: no sum has overflowed.) *)
Theorem clip_scheduled_at_cursor (events : list Event) (ctx : AudioContext)
    (msg : LiveServerMessage) (audioBuffer : AudioUtils.AudioBuffer) :
  forallb clock_reads_time events = true ->
  Double.is_time (currentTime ctx) = true ->
  carries_clip ctx msg audioBuffer ->
  let st := run events initial in
  let now := currentTime ctx in
  let start := if Double.ltb (nextStartTime st) now then now else nextStartTime st in
  accepts_start start = true ->
  exists st' src,
    onmessage true (Some ctx) msg st = Returned st' /\
    audioSources st' = audioSources st ++ [src] /\
    buffer src = audioBuffer /\
    startTime src = start /\
    Double.leb now start = true /\
    Double.leb (nextStartTime st) start = true /\
    Forall (fun s => Double.leb (endTime s) start = true) (audioSources st) /\
    nextStartTime st' = Double.add start (AudioUtils.duration audioBuffer) /\
    Double.leb start (nextStartTime st') = true /\
    forall ctx' msg' audioBuffer',
      Double.is_time (currentTime ctx') = true ->
      carries_clip ctx' msg' audioBuffer' ->
      accepts_start (nextStartTime st') = true ->
      exists st'' src',
        onmessage true (Some ctx') msg' st' = Returned st'' /\
        audioSources st'' = audioSources st' ++ [src'] /\
        Double.leb (endTime src) (startTime src') = true /\
        (Double.leb (currentTime ctx') (endTime src) = true ->
         startTime src' = endTime src).
Proof.
  intros Hclocks Hnow Hclip st now start Hok.
  pose proof (run_in_order events Hclocks) as (Hcur & Hall & _). fold st in Hcur, Hall.
  destruct (start_leb (nextStartTime st) now Hcur Hnow) as (Hstart & Hle1 & Hle2).
  fold start in Hstart, Hle1, Hle2.
  destruct (onmessage_clip ctx msg audioBuffer st Hclip Hok)
    as (st' & src & Hrun & Hsrcs & Hnext & _ & Hbuf & Hst).
  assert (Hrate : AudioUtils.sampleRate audioBuffer = 24000%positive).
  { destruct Hclip as (_ & audioData & pcmData & _ & _ & _ & Hb).
    exact (pcmToAudioBuffer_rate _ _ _ _ Hb). }
  pose proof (duration_cursor audioBuffer Hrate) as Hdur.
  destruct (add_leb start (AudioUtils.duration audioBuffer) Hstart Hdur) as [Hsum Hsle].
  assert (Hend : endTime src = Double.add start (AudioUtils.duration audioBuffer)).
  { unfold endTime. rewrite Hst, Hbuf. reflexivity. }
  exists st', src. split; [exact Hrun|]. split; [exact Hsrcs|]. split; [exact Hbuf|].
  split; [exact Hst|]. split; [exact Hle1|]. split; [exact Hle2|]. split.
  { apply Forall_forall. intros s Hs. rewrite Forall_forall in Hall.
    destruct (Hall s Hs) as (Hr & Hs1 & Hs2).
    apply (leb_trans _ (nextStartTime st)); try assumption.
    apply add_leb; [exact Hs1 | apply duration_cursor, Hr]. }
  split; [rewrite Hnext; exact Hend|]. split; [rewrite Hnext, Hend; exact Hsle|].
  intros ctx' msg' audioBuffer' Hnow' Hclip' Hok'.
  assert (Hok'' : accepts_start
            (if Double.ltb (nextStartTime st') (currentTime ctx')
             then currentTime ctx' else nextStartTime st') = true).
  { destruct (Double.ltb (nextStartTime st') (currentTime ctx'));
      [apply is_time_accepts; exact Hnow' | exact Hok']. }
  destruct (onmessage_clip ctx' msg' audioBuffer' st' Hclip' Hok'')
    as (st'' & src' & Hrun' & Hsrcs' & _ & _ & _ & Hst').
  exists st'', src'. split; [exact Hrun'|]. split; [exact Hsrcs'|].
  assert (Hcur' : Double.is_cursor (nextStartTime st') = true).
  { rewrite Hnext, Hend. exact Hsum. }
  destruct (start_leb (nextStartTime st') (currentTime ctx') Hcur' Hnow') as (_ & _ & Hle').
  rewrite Hst'. rewrite <- Hnext. split; [exact Hle'|].
  intros Hearly. apply leb_ltb_false in Hearly. rewrite Hearly. reflexivity.
Qed.

(** A clip of 960 frames arrives at time 5 and moves the cursor beyond the
    clock; the clip that arrives at 5.01 starts at the cursor, not at the
    clock, and the clip after it at the new cursor. *)
Lemma clip_scheduled_at_cursor_witness :
  let first := Message true (Some (clock 5 1)) (clip (silence 960)) in
  let ctx := clock 501 100 in
  let msg := clip (silence 480) in
  let audioBuffer := AudioUtils.mkAudioBuffer 24000 (repeat (0 # 32768) 480) in
  let st := run [first] initial in
  forallb clock_reads_time [first] = true /\
  Double.is_time (currentTime ctx) = true /\
  carries_clip ctx msg audioBuffer /\
  accepts_start (nextStartTime st) = true /\
  Double.ltb (nextStartTime st) (currentTime ctx) = false /\
  exists st' src,
    onmessage true (Some ctx) msg st = Returned st' /\
    audioSources st' = audioSources st ++ [src] /\
    startTime src = nextStartTime st /\
    startTime src <> currentTime ctx /\
    Forall (fun s => Double.leb (endTime s) (startTime src) = true) (audioSources st) /\
    nextStartTime st' = Double.add (startTime src) (AudioUtils.duration audioBuffer).
Proof.
  intros first ctx msg audioBuffer st.
  assert (Hclip : carries_clip ctx msg audioBuffer).
  { split; [reflexivity|].
    exists (silence 480), (repeat x00%byte 960).
    repeat split; vm_compute; reflexivity. }
  assert (Hcursor : Double.ltb (nextStartTime st) (currentTime ctx) = false)
    by (vm_compute; reflexivity).
  assert (Hok : accepts_start (nextStartTime st) = true) by (vm_compute; reflexivity).
  split; [reflexivity|]. split; [vm_compute; reflexivity|]. split; [exact Hclip|].
  split; [exact Hok|]. split; [exact Hcursor|].
  destruct (clip_scheduled_at_cursor [first] ctx msg audioBuffer eq_refl eq_refl Hclip)
    as (st' & src & H1 & H2 & _ & H4 & _ & _ & H7 & H8 & _).
  { fold st. rewrite Hcursor. exact Hok. }
  fold st in H1, H2, H4, H7, H8. rewrite Hcursor in H4, H7, H8.
  exists st', src. split; [exact H1|]. split; [exact H2|]. split; [exact H4|].
  split; [rewrite H4; vm_compute; discriminate|].
  split; [rewrite H4; exact H7|]. rewrite H4. exact H8.
Defined.

(** C4, as stated, fails on the numbers the code computes. A clip of 480
    frames (0.02 s) that starts at time 5 leaves the cursor below
    5 + 480/24000, and also below 5 plus the value of the clip's
    [duration] attribute: the cursor is not advanced by exactly the clip's
    duration, and the clip that arrives next starts before the last frame
    of the first has been played. *)
Lemma cursor_rounding_counterexample :
  let ctx := clock 5 1 in
  let msg := clip (silence 480) in
  exists audioBuffer st' src start finish cursor duration,
    carries_clip ctx msg audioBuffer /\
    onmessage true (Some ctx) msg initial = Returned st' /\
    audioSources st' = [src] /\
    buffer src = audioBuffer /\
    Double.toQ (startTime src) = Some start /\ (start == inject_Z 5)%Q /\
    (AudioUtils.exact_duration audioBuffer == 480 # 24000)%Q /\
    exact_endTime src = Some finish /\
    (finish == start + AudioUtils.exact_duration audioBuffer)%Q /\
    Double.toQ (AudioUtils.duration audioBuffer) = Some duration /\
    Double.toQ (nextStartTime st') = Some cursor /\
    (cursor < finish)%Q /\ (cursor < start + duration)%Q /\
    exists st'' src',
      onmessage true (Some (clock 501 100)) msg st' = Returned st'' /\
      audioSources st'' = [src; src'] /\
      Double.toQ (startTime src') = Some cursor.
Proof.
  cbv zeta.
  exists (AudioUtils.mkAudioBuffer 24000 (repeat (0 # 32768) 480)).
  eexists. eexists. eexists. eexists. eexists. eexists.
  split.
  { split; [reflexivity|].
    exists (silence 480), (repeat x00%byte 960).
    repeat split; vm_compute; reflexivity. }
  split; [vm_compute; reflexivity|].
  split; [reflexivity|].
  split; [reflexivity|].
  split; [vm_compute; reflexivity|].
  split; [vm_compute; reflexivity|].
  split; [vm_compute; reflexivity|].
  split; [vm_compute; reflexivity|].
  split; [vm_compute; reflexivity|].
  split; [vm_compute; reflexivity|].
  split; [vm_compute; reflexivity|].
  split; [vm_compute; reflexivity|].
  split; [vm_compute; reflexivity|].
  eexists. eexists.
  split; [vm_compute; reflexivity|].
  split; [reflexivity|]. vm_compute. reflexivity.
Qed.

(** ** Live session: interruption *)

Lemma quiet_step st ev :
  schedules_nothing ev = true ->
  audioSources st = [] -> nextStartTime st = Double.zero ->
  audioSources (step st ev) = [] /\ nextStartTime (step st ev) = Double.zero.
Proof.
  intros Hq Hs Hn. destruct ev as [isMounted ctx msg|n]; cbn [step].
  - cbn [schedules_nothing] in Hq. unfold onmessage.
    destruct isMounted; cbn [negb state_of]; [|auto].
    destruct (interrupted msg); [auto|].
    cbn [orb] in Hq. unfold handleAudio.
    destruct (inlineData msg); [discriminate|]. cbn [state_of].
    destruct (handleTurnComplete_schedule msg (handleTranscription msg st)) as (-> & -> & _).
    destruct (handleTranscription_schedule msg st) as (-> & -> & _). auto.
  - cbn [onended audioSources nextStartTime]. rewrite Hs. auto.
Qed.

Lemma quiet_run quiet st :
  forallb schedules_nothing quiet = true ->
  audioSources st = [] -> nextStartTime st = Double.zero ->
  audioSources (run quiet st) = [] /\ nextStartTime (run quiet st) = Double.zero.
Proof.
  revert st. induction quiet as [|ev quiet IH]; intros st Hq Hs Hn; [auto|].
  cbn [forallb] in Hq. apply andb_true_iff in Hq as [Hev Hq].
  destruct (quiet_step st ev Hev Hs Hn) as [Hs' Hn'].
  unfold run. cbn [fold_left]. apply (IH (step st ev) Hq Hs' Hn').
Qed.

Lemma handleTranscription_alike now msg st1 st2 :
  reset_alike now st1 st2 ->
  reset_alike now (handleTranscription msg st1) (handleTranscription msg st2).
Proof.
  intros ((Hs & Hst & Ht & Hc) & Hcur). unfold handleTranscription.
  destruct (outputTranscription msg) as [text|]; [|repeat split; assumption].
  destruct (is_empty text); [repeat split; assumption|].
  unfold reset_alike, same_playback.
  cbn [audioSources nextStartTime transcription stopped created].
  rewrite Ht. repeat split; assumption.
Qed.

Lemma handleTurnComplete_alike now msg st1 st2 :
  reset_alike now st1 st2 ->
  reset_alike now (handleTurnComplete msg st1) (handleTurnComplete msg st2).
Proof.
  intros ((Hs & Hst & Ht & Hc) & Hcur). unfold handleTurnComplete.
  destruct (turnComplete msg); [|repeat split; assumption].
  unfold reset_alike, same_playback.
  cbn [audioSources nextStartTime transcription stopped created].
  rewrite Ht. repeat split; assumption.
Qed.

(** The audio branch ends the same way in both states, and a clip gets
    the same start time whether the cursor holds 0 or [now]. *)
Lemma handleAudio_alike now ctx msg st1 st2 :
  Double.is_time now = true ->
  not_before now (Message true ctx msg) = true ->
  reset_alike now st1 st2 ->
  match handleAudio ctx msg st1, handleAudio ctx msg st2 with
  | Returned st1', Returned st2' => reset_alike now st1' st2'
  | Raised st1', Raised st2' => reset_alike now st1' st2'
  | _, _ => False
  end.
Proof.
  intros Hnow Hev Halike. unfold handleAudio.
  destruct (inlineData msg) as [audioData|]; [|exact Halike].
  destruct ctx as [ctx|]; [|exact Halike].
  destruct (is_empty audioData); [exact Halike|].
  destruct (AudioUtils.base64ToUint8Array audioData) as [pcmData|]; [|exact Halike].
  destruct (AudioUtils.pcmToAudioBuffer pcmData ctx 24000) as [audioBuffer|];
    [|exact Halike].
  cbn [not_before] in Hev. apply andb_true_iff in Hev as [Ht Hle].
  apply negb_true_iff in Hle.
  destruct Halike as ((Hs & Hst & Htr & Hc) & Hcur).
  assert (Hstart :
    (if Double.ltb (nextStartTime st1) (currentTime ctx)
     then currentTime ctx else nextStartTime st1) =
    (if Double.ltb (nextStartTime st2) (currentTime ctx)
     then currentTime ctx else nextStartTime st2)).
  { destruct Hcur as [->|[-> ->]]; [reflexivity|].
    rewrite (start_from_zero _ Ht), (start_from_earlier _ _ Hnow Ht Hle).
    reflexivity. }
  rewrite Hstart, Hs, Hst, Htr, Hc.
  destruct (accepts_start _);
    unfold reset_alike, same_playback;
    cbn [audioSources nextStartTime transcription stopped created];
    repeat split; left; reflexivity.
Qed.

Lemma step_alike now ev st1 st2 :
  Double.is_time now = true -> not_before now ev = true ->
  reset_alike now st1 st2 -> reset_alike now (step st1 ev) (step st2 ev).
Proof.
  intros Hnow Hev Halike. destruct ev as [isMounted ctx msg|n]; cbn [step].
  - unfold onmessage. destruct isMounted; cbn [negb state_of]; [|exact Halike].
    destruct (interrupted msg); cbn [state_of].
    + destruct Halike as ((Hs & Hst & Htr & Hc) & _).
      unfold reset_alike, same_playback, handleInterruption.
      cbn [audioSources nextStartTime transcription stopped created].
      rewrite Hs, Hst, Htr, Hc. repeat split. left; reflexivity.
    + pose proof (handleAudio_alike now ctx msg st1 st2 Hnow Hev Halike) as Haudio.
      destruct (handleAudio ctx msg st1) as [st1'|st1'],
               (handleAudio ctx msg st2) as [st2'|st2'];
        try contradiction; cbn [state_of]; [|exact Haudio].
      apply handleTurnComplete_alike, handleTranscription_alike, Haudio.
  - destruct Halike as ((Hs & Hst & Htr & Hc) & Hcur).
    unfold reset_alike, same_playback, onended.
    cbn [audioSources nextStartTime transcription stopped created].
    rewrite Hs. repeat split; assumption.
Qed.

Lemma run_alike now events st1 st2 :
  Double.is_time now = true -> forallb (not_before now) events = true ->
  reset_alike now st1 st2 -> reset_alike now (run events st1) (run events st2).
Proof.
  intros Hnow. revert st1 st2.
  induction events as [|ev events IH]; intros st1 st2 Hevs Halike; [exact Halike|].
  cbn [forallb] in Hevs. apply andb_true_iff in Hevs as [Hev Hevs].
  unfold run. cbn [fold_left].
  apply (IH _ _ Hevs), step_alike; assumption.
Qed.

(** C5. An interruption signal stops every clip of the scheduled set,
    empties the set and appends the marker to the transcript. The cursor
    cell is set to 0, which schedules the same as the time of the
    interruption: whatever events follow at clock readings not before that
    time, the clips started, their start times, the clips stopped and the
    transcript are those of a session whose cursor was set to the time of
    the interruption. The next clip starts at the playback time at which
    it arrives, whatever the cursor held before the interruption, hence no
    earlier than the time of the interruption. *)
Theorem interruption_resets_schedule (events : list Event) (ctx : AudioContext)
    (msg : LiveServerMessage) :
  interrupted msg = true ->
  Double.is_time (currentTime ctx) = true ->
  let st := run events initial in
  let now := currentTime ctx in
  exists st',
    onmessage true (Some ctx) msg st = Returned st' /\
    audioSources st' = [] /\
    (forall s, In s (audioSources st) -> In s (stopped st')) /\
    transcription st' = (transcription st ++ INTERRUPTED_MARK)%string /\
    (forall later,
       forallb (not_before now) later = true ->
       same_playback (run later st') (run later (with_cursor now st'))) /\
    forall quiet ctx' msg' audioBuffer,
      forallb schedules_nothing quiet = true ->
      carries_clip ctx' msg' audioBuffer ->
      Double.is_time (currentTime ctx') = true ->
      Double.leb now (currentTime ctx') = true ->
      exists st'' src,
        onmessage true (Some ctx') msg' (run quiet st') = Returned st'' /\
        audioSources st'' = [src] /\
        startTime src = currentTime ctx' /\
        Double.leb now (startTime src) = true.
Proof.
  intros Hint Hnow st now. exists (handleInterruption st).
  split; [unfold onmessage; cbn [negb]; rewrite Hint; reflexivity|].
  split; [reflexivity|]. split.
  { intros s Hs. cbn [handleInterruption stopped]. apply in_or_app. right; exact Hs. }
  split; [reflexivity|]. split.
  { intros later Hlater.
    apply (run_alike now later _ _ Hnow Hlater).
    split; [repeat split|]. right. split; reflexivity. }
  intros quiet ctx' msg' audioBuffer Hquiet Hclip Ht Hle.
  destruct (quiet_run quiet (handleInterruption st) Hquiet eq_refl eq_refl) as [Hs Hn].
  assert (Hstart :
    (if Double.ltb (nextStartTime (run quiet (handleInterruption st))) (currentTime ctx')
     then currentTime ctx' else nextStartTime (run quiet (handleInterruption st))) =
    currentTime ctx').
  { rewrite Hn. apply start_from_zero. exact Ht. }
  destruct (onmessage_clip ctx' msg' audioBuffer (run quiet (handleInterruption st)) Hclip)
    as (st'' & src & Hrun & Hsrcs & _ & _ & _ & Hst).
  { rewrite Hstart. apply is_time_accepts. exact Ht. }
  exists st'', src. split; [exact Hrun|].
  rewrite Hs in Hsrcs. split; [exact Hsrcs|].
  rewrite Hstart in Hst.
  split; [exact Hst|]. rewrite Hst. exact Hle.
Qed.

(** A clip of 960 frames scheduled at time 5 holds the output until 5.04.
    The interruption at 5.01 stops it, and the clip that arrives at 5.015
    starts at 5.015. *)
Lemma interruption_resets_schedule_witness :
  let events := [Message true (Some (clock 5 1)) (clip (silence 960))] in
  let ctx := clock 501 100 in
  let ctx' := clock 5015 1000 in
  interrupted interruption = true /\
  Double.is_time (currentTime ctx) = true /\
  exists st',
    onmessage true (Some ctx) interruption (run events initial) = Returned st' /\
    List.length (audioSources (run events initial)) = 1%nat /\
    Double.ltb (currentTime ctx') (nextStartTime (run events initial)) = true /\
    audioSources st' = [] /\
    (forall s, In s (audioSources (run events initial)) -> In s (stopped st')) /\
    exists st'' src,
      onmessage true (Some ctx') (clip (silence 480)) st' = Returned st'' /\
      audioSources st'' = [src] /\
      startTime src = currentTime ctx'.
Proof.
  intros events ctx ctx'.
  split; [reflexivity|]. split; [vm_compute; reflexivity|].
  destruct (interruption_resets_schedule events ctx interruption eq_refl eq_refl)
    as (st' & H1 & H2 & H3 & _ & _ & Hnext).
  exists st'. split; [exact H1|]. split; [vm_compute; reflexivity|].
  split; [vm_compute; reflexivity|]. split; [exact H2|]. split; [exact H3|].
  assert (Hclip : carries_clip ctx' (clip (silence 480))
                    (AudioUtils.mkAudioBuffer 24000 (repeat (0 # 32768) 480))).
  { split; [reflexivity|].
    exists (silence 480), (repeat x00%byte 960).
    repeat split; vm_compute; reflexivity. }
  destruct (Hnext [] ctx' _ _ eq_refl Hclip eq_refl eq_refl)
    as (st'' & src & Ha & Hb & Hc & _).
  exists st'', src. repeat split; assumption.
Defined.

(** ** Live session: transcript buffer *)

Lemma string_length_append (a b : string) :
  String.length (a ++ b) = (String.length a + String.length b)%nat.
Proof. induction a as [|c a IH]; cbn; [reflexivity | rewrite IH; reflexivity]. Qed.

Lemma string_length_substring (n m : nat) (s : string) :
  (String.length (substring n m s) <= m)%nat.
Proof.
  revert n m. induction s as [|c s IH]; intros [|n] [|m]; cbn; try lia.
  - specialize (IH 0%nat m). lia.
  - apply (IH n 0%nat).
  - apply (IH n (S m)).
Qed.

(** After a transcript fragment the buffer has at most 2003 characters,
    and when the cap was exceeded it is the ellipsis followed by the last
    2000 characters of the accumulated text. *)
Lemma appendTranscript_capped (prev text : string) :
  (String.length (appendTranscript prev text) <= 2003)%nat /\
  ((2000 < String.length (prev ++ text))%nat ->
   appendTranscript prev text =
     ("..." ++ substring (String.length (prev ++ text) - 2000) 2000 (prev ++ text))%string).
Proof.
  unfold appendTranscript, slice_last.
  destruct (Nat.ltb_spec 2000 (String.length (prev ++ text))) as [Hgt|Hle].
  - split; [|reflexivity].
    rewrite string_length_append.
    pose proof (string_length_substring
                  (String.length (prev ++ text) - 2000) 2000 (prev ++ text)) as Hs.
    change (String.length "...") with 3%nat. lia.
  - split; [lia | intros H; lia].
Qed.

Lemma interruptions_transcript n ctx st :
  String.length (transcription (run (repeat (Message true ctx interruption) n) st)) =
  (String.length (transcription st) + 17 * n)%nat.
Proof.
  revert st. induction n as [|n IH]; intros st.
  - cbn [repeat run fold_left]. lia.
  - cbn [repeat]. unfold run in *. cbn [fold_left]. rewrite IH.
    cbn [step onmessage negb interruption interrupted handleInterruption state_of
         transcription].
    rewrite string_length_append.
    change (String.length INTERRUPTED_MARK) with 17%nat. lia.
Qed.

Lemma turn_ends_transcript n ctx st :
  String.length (transcription (run (repeat (Message true ctx turn_end) n) st)) =
  (String.length (transcription st) + 4 * n)%nat.
Proof.
  revert st. induction n as [|n IH]; intros st.
  - cbn [repeat run fold_left]. lia.
  - cbn [repeat]. unfold run in *. cbn [fold_left]. rewrite IH.
    cbn [step onmessage negb turn_end interrupted handleAudio inlineData
         handleTranscription outputTranscription handleTurnComplete turnComplete
         state_of transcription].
    rewrite string_length_append.
    change (String.length TURN_SEPARATOR) with 4%nat. lia.
Qed.

(** C8 fails on the code. Only the transcript fragment branch applies the
    cap (at most 2003 characters after it); the interruption marker and the
    turn separator are appended without it. Two hundred interruption
    signals give a transcript of 3400 characters, and no fixed length
    bounds the transcript over all event sequences. *)
Theorem transcript_markers_not_capped :
  (forall prev text, (String.length (appendTranscript prev text) <= 2003)%nat) /\
  String.length
    (transcription (run (repeat (Message true None interruption) 200) initial)) = 3400%nat /\
  String.length
    (transcription (run (repeat (Message true None turn_end) 600) initial)) = 2400%nat /\
  (forall bound : nat, exists events,
     (bound < String.length (transcription (run events initial)))%nat).
Proof.
  split; [intros prev text; exact (proj1 (appendTranscript_capped prev text))|].
  split; [rewrite interruptions_transcript; reflexivity|].
  split; [rewrite turn_ends_transcript; reflexivity|].
  intros bound. exists (repeat (Message true None interruption) (S bound)).
  rewrite interruptions_transcript. cbn [initial transcription String.length]. lia.
Qed.

(** ** Batch analysis client *)

(** *** The fuel of [JSON.parse]

    Every token takes at least one code unit off the text, so the nesting
    of the reader's calls is bounded by twice the length of what it reads:
    the fuel given by [JSON.parse] never runs out on a text that can be
    read. *)

Lemma skip_ws_length s : (List.length (JSON.skip_ws s) <= List.length s)%nat.
Proof.
  induction s as [|c s IH]; [cbn; lia|]. cbn [JSON.skip_ws].
  destruct (JSON.is_ws c); cbn [List.length] in *; lia.
Qed.

Lemma next_is_length c s r :
  JSON.next_is c s = Some r -> List.length s = S (List.length r).
Proof.
  destruct s as [|d s]; [discriminate|]. cbn [JSON.next_is].
  destruct (N.eqb d (JSON.u c)); [|discriminate]. intros [= <-]. reflexivity.
Qed.

Lemma parse_chars_length_aux n : forall s acc k r,
  (List.length s <= n)%nat ->
  JSON.parse_chars s acc = Some (k, r) -> (List.length r < List.length s)%nat.
Proof.
  induction n as [|n IH]; intros s acc k r Hn.
  { destruct s; [discriminate|]. cbn in Hn. lia. }
  destruct s as [|c s]; [discriminate|]. cbn [JSON.parse_chars].
  cbn [List.length] in Hn.
  destruct (N.eqb c (JSON.u "034")); [intros [= _ <-]; cbn; lia|].
  destruct (N.eqb c (JSON.u "\")).
  - destruct s as [|e s1]; [discriminate|]. cbn [List.length] in Hn.
    destruct (JSON.simple_escape e).
    + intros H. apply IH in H; cbn [List.length] in *; lia.
    + destruct (N.eqb e (JSON.u "u")); [|discriminate].
      destruct s1 as [|h1 [|h2 [|h3 [|h4 s2]]]]; try discriminate.
      destruct (JSON.hex_digit h1), (JSON.hex_digit h2), (JSON.hex_digit h3),
               (JSON.hex_digit h4); try discriminate.
      intros H. apply IH in H; cbn [List.length] in *; lia.
  - destruct (N.ltb c 32); [discriminate|].
    intros H. apply IH in H; cbn [List.length] in *; lia.
Qed.

Lemma parse_chars_length s acc k r :
  JSON.parse_chars s acc = Some (k, r) -> (List.length r < List.length s)%nat.
Proof. apply (parse_chars_length_aux (List.length s)). lia. Qed.

Lemma starts_with_length p : forall s r,
  JSON.starts_with p s = Some r -> (List.length r <= List.length s)%nat.
Proof.
  induction p as [|a p IH]; intros s r.
  - cbn. intros [= <-]. lia.
  - destruct s as [|b s]; [discriminate|]. cbn [JSON.starts_with].
    destruct (N.eqb a b); [|discriminate]. intros H. apply IH in H. cbn; lia.
Qed.

Lemma take_digits_length s :
  List.length s = (List.length (fst (JSON.take_digits s)) + List.length (snd (JSON.take_digits s)))%nat.
Proof.
  induction s as [|c s IH]; [reflexivity|]. cbn [JSON.take_digits].
  destruct (JSON.is_digit c); [|reflexivity].
  destruct (JSON.take_digits s) as [ds rest]. cbn [fst snd List.length] in *. lia.
Qed.

Lemma parse_number_length s lex r :
  JSON.parse_number s = Some (lex, r) -> (List.length r < List.length s)%nat.
Proof.
  unfold JSON.parse_number.
  set (p := match s with
            | c :: r0 => if N.eqb c (JSON.u "-") then ([c], r0) else ([], s)
            | [] => ([], s)
            end).
  assert (Hp : (List.length (snd p) <= List.length s)%nat).
  { unfold p. destruct s as [|c r0]; [cbn; lia|].
    destruct (N.eqb c (JSON.u "-")); cbn; lia. }
  destruct p as [sign s1]. cbn [snd] in Hp.
  pose proof (take_digits_length s1) as H1.
  destruct (JSON.take_digits s1) as [int s2]. cbn [fst snd] in H1.
  destruct int as [|d ds]; [discriminate|]. cbn [List.length] in H1.
  destruct (N.eqb d (JSON.u "0") && negb (List.length ds =? 0)%nat); [discriminate|].
  set (frac := match s2 with
               | c :: r0 =>
                   if N.eqb c (JSON.u ".")
                   then let (fs, s3) := JSON.take_digits r0 in
                        match fs with [] => None | _ :: _ => Some (c :: fs, s3) end
                   else Some ([], s2)
               | [] => Some ([], s2)
               end).
  assert (Hf : forall fr s3, frac = Some (fr, s3) -> (List.length s3 <= List.length s2)%nat).
  { unfold frac. intros fr s3. destruct s2 as [|c r0]; [intros [= _ <-]; lia|].
    destruct (N.eqb c (JSON.u ".")); [|intros [= _ <-]; lia].
    pose proof (take_digits_length r0) as H2.
    destruct (JSON.take_digits r0) as [fs s3']. cbn [fst snd] in H2.
    destruct fs; [discriminate|]. intros [= _ <-]. cbn [List.length] in *. lia. }
  destruct frac as [[fr s3]|]; [|discriminate]. specialize (Hf fr s3 eq_refl).
  set (expo := match s3 with
               | e :: r0 => _
               | [] => Some ([], s3)
               end).
  assert (He : forall ex s4, expo = Some (ex, s4) -> (List.length s4 <= List.length s3)%nat).
  { unfold expo. intros ex s4. destruct s3 as [|e r0]; [intros [= _ <-]; lia|].
    destruct (N.eqb e (JSON.u "e") || N.eqb e (JSON.u "E")); [|intros [= _ <-]; lia].
    set (q := match r0 with
              | c :: r' => if N.eqb c (JSON.u "+") || N.eqb c (JSON.u "-") then ([c], r') else ([], r0)
              | [] => ([], r0)
              end).
    assert (Hq : (List.length (snd q) <= List.length r0)%nat).
    { unfold q. destruct r0 as [|c r']; [cbn; lia|].
      destruct (N.eqb c (JSON.u "+") || N.eqb c (JSON.u "-")); cbn; lia. }
    destruct q as [sg r1]. cbn [snd] in Hq.
    pose proof (take_digits_length r1) as H3.
    destruct (JSON.take_digits r1) as [es s4']. cbn [fst snd] in H3.
    destruct es; [discriminate|]. intros [= _ <-]. cbn [List.length] in *. lia. }
  destruct expo as [[ex s4]|]; [|discriminate]. specialize (He ex s4 eq_refl).
  intros [= _ <-]. lia.
Qed.

Ltac fuel_succ f' :=
  destruct f' as [|f']; [cbn [List.length] in *; lia|].

Lemma fuel_enough f :
  (forall s v r, JSON.parse_value f s = Some (v, r) ->
     (List.length r < List.length s)%nat /\
     forall f', (2 * (List.length s - List.length r) <= f')%nat ->
       JSON.parse_value f' s = Some (v, r)) /\
  (forall s vs r, JSON.parse_elements f s = Some (vs, r) ->
     (List.length r < List.length s)%nat /\
     forall f', (2 * (List.length s - List.length r) + 1 <= f')%nat ->
       JSON.parse_elements f' s = Some (vs, r)) /\
  (forall s ms r, JSON.parse_members f s = Some (ms, r) ->
     (List.length r < List.length s)%nat /\
     forall f', (2 * (List.length s - List.length r) + 1 <= f')%nat ->
       JSON.parse_members f' s = Some (ms, r)).
Proof.
  induction f as [|f (IHv & IHe & IHm)]; [repeat split; discriminate|].
  split; [|split].
  - intros s v r H. cbn [JSON.parse_value] in H.
    pose proof (skip_ws_length s) as Hskip.
    destruct (JSON.skip_ws s) as [|c r0] eqn:Es; [discriminate|].
    cbn [List.length] in Hskip.
    destruct (N.eqb c (JSON.u "{")) eqn:E1.
    { pose proof (skip_ws_length r0) as Hskip0.
      destruct (JSON.next_is "}" (JSON.skip_ws r0)) as [r1|] eqn:En.
      - injection H as <- <-. apply next_is_length in En as Hl.
        split; [lia|]. intros f' Hf'. fuel_succ f'.
        cbn [JSON.parse_value]. rewrite Es, E1, En. reflexivity.
      - destruct (JSON.parse_members f r0) as [[ms r1]|] eqn:Em; [|discriminate].
        injection H as <- <-. destruct (IHm _ _ _ Em) as [Hl Hf].
        split; [lia|]. intros f' Hf'. fuel_succ f'.
        cbn [JSON.parse_value]. rewrite Es, E1, En, (Hf f') by lia. reflexivity. }
    destruct (N.eqb c (JSON.u "[")) eqn:E2.
    { pose proof (skip_ws_length r0) as Hskip0.
      destruct (JSON.next_is "]" (JSON.skip_ws r0)) as [r1|] eqn:En.
      - injection H as <- <-. apply next_is_length in En as Hl.
        split; [lia|]. intros f' Hf'. fuel_succ f'.
        cbn [JSON.parse_value]. rewrite Es, E1, E2, En. reflexivity.
      - destruct (JSON.parse_elements f r0) as [[vs r1]|] eqn:Ee; [|discriminate].
        injection H as <- <-. destruct (IHe _ _ _ Ee) as [Hl Hf].
        split; [lia|]. intros f' Hf'. fuel_succ f'.
        cbn [JSON.parse_value]. rewrite Es, E1, E2, En, (Hf f') by lia. reflexivity. }
    destruct (N.eqb c (JSON.u "034")) eqn:E3.
    { destruct (JSON.parse_chars r0 []) as [[str r1]|] eqn:Ec; [|discriminate].
      injection H as <- <-. apply parse_chars_length in Ec as Hl.
      split; [lia|]. intros f' Hf'. fuel_succ f'.
      cbn [JSON.parse_value]. rewrite Es, E1, E2, E3, Ec. reflexivity. }
    destruct (N.eqb c (JSON.u "t")) eqn:E4.
    { destruct (JSON.starts_with (JSON.units "rue") r0) as [r1|] eqn:Ew; [|discriminate].
      injection H as <- <-. apply starts_with_length in Ew as Hl.
      split; [lia|]. intros f' Hf'. fuel_succ f'.
      cbn [JSON.parse_value]. rewrite Es, E1, E2, E3, E4, Ew. reflexivity. }
    destruct (N.eqb c (JSON.u "f")) eqn:E5.
    { destruct (JSON.starts_with (JSON.units "alse") r0) as [r1|] eqn:Ew; [|discriminate].
      injection H as <- <-. apply starts_with_length in Ew as Hl.
      split; [lia|]. intros f' Hf'. fuel_succ f'.
      cbn [JSON.parse_value]. rewrite Es, E1, E2, E3, E4, E5, Ew. reflexivity. }
    destruct (N.eqb c (JSON.u "n")) eqn:E6.
    { destruct (JSON.starts_with (JSON.units "ull") r0) as [r1|] eqn:Ew; [|discriminate].
      injection H as <- <-. apply starts_with_length in Ew as Hl.
      split; [lia|]. intros f' Hf'. fuel_succ f'.
      cbn [JSON.parse_value]. rewrite Es, E1, E2, E3, E4, E5, E6, Ew. reflexivity. }
    destruct (JSON.parse_number (c :: r0)) as [[lexeme r1]|] eqn:Ep; [|discriminate].
    injection H as <- <-. apply parse_number_length in Ep as Hl. cbn [List.length] in Hl.
    split; [lia|]. intros f' Hf'. fuel_succ f'.
    cbn [JSON.parse_value]. rewrite Es, E1, E2, E3, E4, E5, E6, Ep. reflexivity.
  - intros s vs r H. cbn [JSON.parse_elements] in H.
    destruct (JSON.parse_value f s) as [[v r0]|] eqn:Ev; [|discriminate].
    destruct (IHv _ _ _ Ev) as [Hl Hf].
    pose proof (skip_ws_length r0) as Hskip.
    destruct (JSON.skip_ws r0) as [|c r1] eqn:Es; [discriminate|].
    cbn [List.length] in Hskip.
    destruct (N.eqb c (JSON.u ",")) eqn:E1.
    { destruct (JSON.parse_elements f r1) as [[vs' r2]|] eqn:Ee; [|discriminate].
      injection H as <- <-. destruct (IHe _ _ _ Ee) as [Hl' Hf'].
      split; [lia|]. intros f' Hfuel. fuel_succ f'.
      cbn [JSON.parse_elements]. rewrite (Hf f') by lia.
      rewrite Es, E1, (Hf' f') by lia. reflexivity. }
    destruct (N.eqb c (JSON.u "]")) eqn:E2; [|discriminate].
    injection H as <- <-. split; [lia|]. intros f' Hfuel. fuel_succ f'.
    cbn [JSON.parse_elements]. rewrite (Hf f') by lia. rewrite Es, E1, E2. reflexivity.
  - intros s ms r H. cbn [JSON.parse_members] in H.
    pose proof (skip_ws_length s) as Hskip.
    destruct (JSON.next_is "034" (JSON.skip_ws s)) as [r0|] eqn:En; [|discriminate].
    apply next_is_length in En as Hl0.
    destruct (JSON.parse_chars r0 []) as [[key r1]|] eqn:Ec; [|discriminate].
    apply parse_chars_length in Ec as Hl1.
    pose proof (skip_ws_length r1) as Hskip1.
    destruct (JSON.next_is ":" (JSON.skip_ws r1)) as [r2|] eqn:En2; [|discriminate].
    apply next_is_length in En2 as Hl2.
    destruct (JSON.parse_value f r2) as [[v r3]|] eqn:Ev; [|discriminate].
    destruct (IHv _ _ _ Ev) as [Hl3 Hf].
    pose proof (skip_ws_length r3) as Hskip3.
    destruct (JSON.skip_ws r3) as [|c r4] eqn:Es; [discriminate|].
    cbn [List.length] in Hskip3.
    destruct (N.eqb c (JSON.u ",")) eqn:E1.
    { destruct (JSON.parse_members f r4) as [[ms' r5]|] eqn:Em; [|discriminate].
      injection H as <- <-. destruct (IHm _ _ _ Em) as [Hl' Hf'].
      split; [lia|]. intros f' Hfuel. fuel_succ f'.
      cbn [JSON.parse_members]. rewrite En, Ec, En2, (Hf f') by lia.
      rewrite Es, E1, (Hf' f') by lia. reflexivity. }
    destruct (N.eqb c (JSON.u "}")) eqn:E2; [|discriminate].
    injection H as <- <-. split; [lia|]. intros f' Hfuel. fuel_succ f'.
    cbn [JSON.parse_members]. rewrite En, Ec, En2, (Hf f') by lia.
    rewrite Es, E1, E2. reflexivity.
Qed.

(** More fuel reads nothing else: whatever any amount of fuel makes of a
    text, the fuel of [JSON.parse] makes of it. *)
Lemma parse_fuel f (text : JSON.jstring) v rest :
  JSON.parse_value f text = Some (v, rest) ->
  JSON.parse_value (2 * List.length text + 2) text = Some (v, rest).
Proof.
  intros H. destruct (proj1 (fuel_enough f) _ _ _ H) as [_ Hf]. apply Hf. lia.
Qed.


(** C2 (amended). The analysis call fails exactly when the key is empty,
    the blob cannot be read, the service call is rejected, the response has
    no text, or the text is not JSON. A rejection is passed on with the
    service's detail. Every JSON text is returned as parsed: the members of
    the value are not checked against the seven required fields. *)
Theorem analyzeIncident_failures
    (readAsDataURL : Blob -> ReadOutcome)
    (generateContent : GeminiService.Request -> GeminiService.Reply)
    (audioBlob : Blob) (apiKey : string) :
  let read := AudioUtils.blobToBase64 readAsDataURL audioBlob in
  let reply := fun base64Audio =>
    generateContent (GeminiService.buildRequest audioBlob base64Audio) in
  let result :=
    GeminiService.analyzeIncident readAsDataURL generateContent audioBlob apiKey in
  ((exists e, result = inl e) <->
   (is_empty apiKey = true \/
    (exists detail, read = inl detail) \/
    (exists base64Audio, read = inr base64Audio /\
       ((exists detail, reply base64Audio = GeminiService.Rejected detail) \/
        reply base64Audio = GeminiService.Response None \/
        (exists text, reply base64Audio = GeminiService.Response (Some text) /\
                      (text = [] \/ JSON.parse text = None)))))) /\
  (is_empty apiKey = false ->
   forall detail, readAsDataURL audioBlob = ReadFailed detail ->
     result = inl (GeminiService.ReadError detail)) /\
  (is_empty apiKey = false ->
   forall base64Audio detail,
     read = inr base64Audio ->
     reply base64Audio = GeminiService.Rejected detail ->
     result = inl (GeminiService.ServiceError detail)) /\
  (is_empty apiKey = false ->
   forall base64Audio text v,
     read = inr base64Audio ->
     reply base64Audio = GeminiService.Response (Some text) ->
     text <> [] -> JSON.parse text = Some v ->
     result = inr v).
Proof.
  intros read reply result. subst reply result. cbv beta.
  unfold GeminiService.analyzeIncident. fold read.
  split; [|split; [|split]].
  - clearbody read. destruct (is_empty apiKey) eqn:Ekey.
    { split; [intros _; left; reflexivity | intros _; eexists; reflexivity]. }
    destruct read as [detail|base64Audio].
    { split; [intros _; right; left; eexists; reflexivity | intros _; eexists; reflexivity]. }
    destruct (generateContent (GeminiService.buildRequest audioBlob base64Audio))
      as [detail|[text|]] eqn:Ereply.
    + split; [|intros _; eexists; reflexivity].
      intros _. right; right. exists base64Audio. split; [reflexivity|].
      left. rewrite Ereply. eexists; reflexivity.
    + destruct text as [|c text].
      * split; [|intros _; eexists; reflexivity].
        intros _. right; right. exists base64Audio. split; [reflexivity|].
        right; right. exists []. rewrite Ereply. auto.
      * destruct (JSON.parse (c :: text)) as [v|] eqn:Eparse.
        -- split; [intros [e He]; discriminate He|].
           intros [H|[[d H]|(b64 & Hb & H)]]; try discriminate H.
           injection Hb as <-. rewrite Ereply in H.
           destruct H as [[d H]|[H|(t & H & [H'|H'])]]; try discriminate H;
             injection H as <-; congruence.
        -- split; [|intros _; eexists; reflexivity].
           intros _. right; right. exists base64Audio. split; [reflexivity|].
           right; right. exists (c :: text). rewrite Ereply. auto.
    + split; [|intros _; eexists; reflexivity].
      intros _. right; right. exists base64Audio. split; [reflexivity|].
      right; left. exact Ereply.
  - intros -> detail Hfail. unfold read, AudioUtils.blobToBase64.
    rewrite Hfail. reflexivity.
  - clearbody read. intros -> base64Audio detail -> Hreply.
    rewrite Hreply. reflexivity.
  - clearbody read. intros -> base64Audio text v -> Hreply Htext Hparse.
    rewrite Hreply. destruct text as [|c text]; [contradiction|].
    rewrite Hparse. reflexivity.
Qed.

(** C2, as stated, fails: the JSON text [{"summary":"calm"}] lacks six of
    the seven required members, and the call returns the parsed object
    instead of failing. *)
Lemma missing_field_counterexample :
  let readAsDataURL := fun blob : Blob => Loaded (AudioUtils.dataURL blob) in
  let generateContent := fun _ : GeminiService.Request =>
    GeminiService.Response (Some GeminiService.summary_only) in
  let audioBlob := mkBlob [x01%byte] "audio/webm" in
  let parsed :=
    JSON.JObject [(JSON.units "summary", JSON.JString (JSON.units "calm"))] in
  GeminiService.analyzeIncident readAsDataURL generateContent audioBlob "key" =
    inr parsed /\
  JSON.has "sentiment" parsed = false /\
  GeminiService.populated parsed = false.
Proof. cbv zeta. repeat split; vm_compute; reflexivity. Qed.

(* ================================================================== *)
(** * Further properties of the code *)
(* ================================================================== *)

(** ** Ring buffer: recording *)

Lemma prune_loop_suffix cutoff l :
  exists older,
    l = older ++ App.prune_loop cutoff l /\
    Forall (fun c => AudioChunk.timestamp c < cutoff) older.
Proof.
  induction l as [|c l (older & E & Hold)].
  - exists []. split; [reflexivity | constructor].
  - cbn [App.prune_loop].
    destruct (Z.ltb_spec (AudioChunk.timestamp c) cutoff) as [Hlt|Hge].
    + exists (c :: older). split; [cbn [app]; f_equal; exact E|].
      constructor; assumption.
    + exists []. split; [reflexivity | constructor].
Qed.

Lemma time_ordered_snoc l c :
  RingBuffer.time_ordered l = true ->
  (forall d, In d l -> AudioChunk.timestamp d <= AudioChunk.timestamp c) ->
  RingBuffer.time_ordered (l ++ [c]) = true.
Proof.
  induction l as [|a l IH]; intros Hl Hc; [reflexivity|].
  apply time_ordered_cons in Hl as [Hl Ha]. cbn [app].
  apply time_ordered_intro.
  - apply IH; [exact Hl|]. intros d Hd. apply Hc. right; exact Hd.
  - intros d Hd. apply in_app_or in Hd as [Hd|[<-|[]]]; [auto|].
    apply Hc. left; reflexivity.
Qed.

Lemma in_time_order_cons a l :
  RingBuffer.in_time_order (a :: l) = true ->
  RingBuffer.in_time_order l = true /\
  (forall b, In b l -> RingBuffer.time_of a <= RingBuffer.time_of b).
Proof.
  revert a. induction l as [|b l IH]; intros a H.
  - split; [reflexivity | intros ? []].
  - cbn [RingBuffer.in_time_order] in H.
    apply andb_true_iff in H as [Hab Hl]. apply Z.leb_le in Hab.
    split; [exact Hl|].
    intros c [<-|Hc]; [exact Hab|].
    destruct (IH b Hl) as [_ Hb]. specialize (Hb c Hc). lia.
Qed.

Lemma in_time_order_snoc l a :
  RingBuffer.in_time_order (l ++ [a]) = true ->
  RingBuffer.in_time_order l = true /\
  (forall b, In b l -> RingBuffer.time_of b <= RingBuffer.time_of a).
Proof.
  induction l as [|c l IH]; intros H.
  - split; [reflexivity | intros ? []].
  - cbn [app] in H. apply in_time_order_cons in H as [H Hc].
    destruct (IH H) as [Hl Ha]. split.
    + destruct l as [|d l]; [reflexivity|].
      cbn [RingBuffer.in_time_order]. apply andb_true_iff. split; [|exact Hl].
      apply Z.leb_le, Hc. left; reflexivity.
    + intros b [<-|Hb]; [|auto]. apply Hc, in_or_app. right. left; reflexivity.
Qed.

Lemma session_snoc activities a buf :
  RingBuffer.session (activities ++ [a]) buf =
  RingBuffer.act (RingBuffer.session activities buf) a.
Proof. unfold RingBuffer.session. rewrite fold_left_app. reflexivity. Qed.

Lemma captured_snoc activities a :
  RingBuffer.captured (activities ++ [a]) =
  RingBuffer.captured activities ++ RingBuffer.captured [a].
Proof. unfold RingBuffer.captured. rewrite flat_map_app. reflexivity. Qed.

(** A buffered fragment carries the time of the capture that stored it. *)
Lemma captured_time activities c :
  In c (RingBuffer.captured activities) ->
  exists a, In a activities /\ RingBuffer.time_of a = AudioChunk.timestamp c.
Proof.
  unfold RingBuffer.captured. intros H. apply in_flat_map in H as (a & Ha & Hc).
  exists a. split; [exact Ha|]. destruct a as [now data|now]; [|destruct Hc].
  destruct (blob_size data >? 0); [|destruct Hc].
  destruct Hc as [<-|[]]. reflexivity.
Qed.

(** An activity keeps every fragment that is not older than it. *)
Lemma keeps_not_older a c :
  RingBuffer.time_of a <= AudioChunk.timestamp c -> RingBuffer.keeps a c = true.
Proof.
  intros H. destruct a as [now data|now]; cbn [RingBuffer.keeps RingBuffer.time_of] in *;
    unfold App.BUFFER_DURATION_MS.
  - destruct (blob_size data >? 0); [|reflexivity]. apply Z.leb_le. lia.
  - apply Z.ltb_lt. lia.
Qed.

Lemma captured_time_ordered activities :
  RingBuffer.in_time_order activities = true ->
  RingBuffer.time_ordered (RingBuffer.captured activities) = true.
Proof.
  induction activities as [|a activities IH] using rev_ind; intros H; [reflexivity|].
  apply in_time_order_snoc in H as [Hl Ha]. rewrite captured_snoc.
  destruct a as [now data|now]; cbn [RingBuffer.captured flat_map];
    [|rewrite !app_nil_r; auto].
  destruct (blob_size data >? 0); cbn [app]; [|rewrite app_nil_r; auto].
  apply time_ordered_snoc; [auto|].
  intros d Hd. apply captured_time in Hd as (b & Hb & <-).
  apply (Ha b Hb).
Qed.

(** The buffer after a session: the stored fragments that every activity
    of the session keeps. *)
Lemma session_filter activities :
  RingBuffer.in_time_order activities = true ->
  RingBuffer.session activities [] =
  filter (fun c => forallb (fun a => RingBuffer.keeps a c) activities)
    (RingBuffer.captured activities).
Proof.
  induction activities as [|a activities IH] using rev_ind; intros H; [reflexivity|].
  pose proof (captured_time_ordered _ H) as Hall.
  destruct (in_time_order_snoc _ _ H) as [Hl Ha].
  rewrite session_snoc, (IH Hl), captured_snoc in *.
  set (all := RingBuffer.captured activities) in *.
  assert (Hsplit : forall c,
            forallb (fun b => RingBuffer.keeps b c) (activities ++ [a]) =
            forallb (fun b => RingBuffer.keeps b c) activities && RingBuffer.keeps a c).
  { intros c. rewrite forallb_app. cbn [forallb]. rewrite andb_true_r. reflexivity. }
  rewrite (filter_ext _ _ Hsplit).
  destruct a as [now data|now]; cbn [RingBuffer.act RingBuffer.captured flat_map].
  - unfold App.ondataavailable. cbn [RingBuffer.keeps].
    destruct (blob_size data >? 0) eqn:Edata; cbn [app].
    + cbn [RingBuffer.captured flat_map] in Hall. rewrite Edata in Hall.
      cbn [app] in Hall.
      set (new := AudioChunk.mk data now) in *.
      assert (Hnew : forall b, In b activities -> RingBuffer.keeps b new = true).
      { intros b Hb. apply keeps_not_older. exact (Ha b Hb). }
      assert (Hkept :
        filter (fun c => forallb (fun b => RingBuffer.keeps b c) activities) all ++ [new] =
        filter (fun c => forallb (fun b => RingBuffer.keeps b c) activities) (all ++ [new])).
      { rewrite filter_app. f_equal. cbn [filter].
        replace (forallb (fun b => RingBuffer.keeps b new) activities) with true;
          [reflexivity|].
        symmetry. apply forallb_forall. exact Hnew. }
      rewrite Hkept, prune_loop_filter by (apply time_ordered_filter; exact Hall).
      apply filter_filter_and.
    + rewrite app_nil_r. apply filter_ext. intros c. rewrite andb_true_r. reflexivity.
  - rewrite app_nil_r, bufferSizeTick_fst. apply filter_filter_and.
Qed.

(** X1. While the recorder runs, both the capture handler and the timer
    of the size display change the buffer. After any session of captures
    and sweeps whose times never decrease, the buffer holds exactly the
    stored fragments that every capture found at most 30 minutes older than
    itself and every sweep found less than 30 minutes old, in capture
    order; it is time-ordered, and after a capture with data its last
    entry is the fragment just captured. *)
Theorem recording_keeps_last_half_hour (activities : list RingBuffer.Activity) :
  RingBuffer.in_time_order activities = true ->
  let buffer := RingBuffer.session activities [] in
  buffer =
    filter (fun c => forallb (fun a => RingBuffer.keeps a c) activities)
      (RingBuffer.captured activities) /\
  (forall c, In c buffer <->
     In c (RingBuffer.captured activities) /\
     forall a, In a activities ->
       match a with
       | RingBuffer.Capture now data =>
           blob_size data > 0 -> now - 1800000 <= AudioChunk.timestamp c
       | RingBuffer.Sweep now => now - AudioChunk.timestamp c < 1800000
       end) /\
  RingBuffer.time_ordered buffer = true /\
  (forall before now data,
     activities = before ++ [RingBuffer.Capture now data] ->
     blob_size data > 0 ->
     exists older, buffer = older ++ [AudioChunk.mk data now]).
Proof.
  intros Hord buffer.
  assert (E : buffer =
    filter (fun c => forallb (fun a => RingBuffer.keeps a c) activities)
      (RingBuffer.captured activities)) by (apply session_filter; exact Hord).
  split; [exact E|]. split; [|split].
  - intros c. rewrite E, filter_In, forallb_forall.
    split; intros [Hc Hk]; (split; [exact Hc|]); intros a Ha; specialize (Hk a Ha);
      destruct a as [now data|now]; cbn [RingBuffer.keeps] in *;
      unfold App.BUFFER_DURATION_MS in *.
    + intros Hdata. destruct (Z.gtb_spec (blob_size data) 0); [|lia].
      apply Z.leb_le in Hk. lia.
    + apply Z.ltb_lt in Hk. lia.
    + destruct (Z.gtb_spec (blob_size data) 0) as [Hdata|]; [|reflexivity].
      apply Z.leb_le. specialize (Hk ltac:(lia)). lia.
    + apply Z.ltb_lt. lia.
  - rewrite E. apply time_ordered_filter, captured_time_ordered, Hord.
  - intros before now data -> Hdata.
    destruct (in_time_order_snoc _ _ Hord) as [_ Ha].
    rewrite E, captured_snoc, filter_app.
    cbn [RingBuffer.captured flat_map].
    destruct (Z.gtb_spec (blob_size data) 0); [|lia]. cbn [app filter].
    replace (forallb (fun a => RingBuffer.keeps a (AudioChunk.mk data now))
               (before ++ [RingBuffer.Capture now data])) with true;
      [eexists; reflexivity|].
    symmetry. apply forallb_forall. intros a Hin. apply keeps_not_older.
    apply in_app_or in Hin as [Hin|[<-|[]]]; [exact (Ha a Hin) | cbn; lia].
Qed.

(** A fragment stored at 0, a sweep at 30 minutes and a capture in the same
    millisecond: the sweep drops the first fragment, which the capture
    alone would have kept. *)
Lemma recording_keeps_last_half_hour_witness :
  let activities :=
    [RingBuffer.Capture 0 (RingBuffer.tick_payload 1);
     RingBuffer.Sweep 1800000;
     RingBuffer.Capture 1800000 (RingBuffer.tick_payload 2)] in
  RingBuffer.in_time_order activities = true /\
  RingBuffer.session activities [] =
    filter (fun c => forallb (fun a => RingBuffer.keeps a c) activities)
      (RingBuffer.captured activities) /\
  RingBuffer.session activities [] =
    [AudioChunk.mk (RingBuffer.tick_payload 2) 1800000] /\
  RingBuffer.record [(0, RingBuffer.tick_payload 1); (1800000, RingBuffer.tick_payload 2)] [] =
    [AudioChunk.mk (RingBuffer.tick_payload 1) 0;
     AudioChunk.mk (RingBuffer.tick_payload 2) 1800000].
Proof.
  intros activities. split; [reflexivity|]. split; [|split; reflexivity].
  exact (proj1 (recording_keeps_last_half_hour activities eq_refl)).
Defined.

(** X2. One capture event on a time-ordered buffer none of whose
    timestamps is later than [now]: the buffer stays time-ordered, the new
    fragment is its last entry whatever was pruned, and the entries before
    it are exactly the old ones not older than the cutoff. An event without
    data changes nothing. *)
Theorem ondataavailable_keeps_order (now : Z) (eventData : Blob)
    (chunks : list AudioChunk.t) :
  RingBuffer.time_ordered chunks = true ->
  (forall c, In c chunks -> AudioChunk.timestamp c <= now) ->
  let chunks' := App.ondataavailable now eventData chunks in
  (blob_bytes eventData = [] -> chunks' = chunks) /\
  (blob_bytes eventData <> [] ->
     chunks' =
       filter (fun c => now - App.BUFFER_DURATION_MS <=? AudioChunk.timestamp c) chunks
       ++ [AudioChunk.mk eventData now] /\
     RingBuffer.time_ordered chunks' = true /\
     (forall c, In c chunks' -> now - 1800000 <= AudioChunk.timestamp c <= now)).
Proof.
  intros Hord Hnow chunks'. split.
  - intros Hnil. unfold chunks', App.ondataavailable, blob_size. rewrite Hnil. reflexivity.
  - intros Hne.
    assert (Hsz : blob_size eventData > 0).
    { unfold blob_size. destruct (blob_bytes eventData); [contradiction|]. cbn [List.length]. lia. }
    assert (Hpushed : RingBuffer.time_ordered (chunks ++ [AudioChunk.mk eventData now]) = true).
    { clear -Hord Hnow. induction chunks as [|a l IH]; [reflexivity|].
      apply time_ordered_cons in Hord as [Hl Ha]. cbn [app].
      apply time_ordered_intro.
      - apply IH; [exact Hl|]. intros c Hc. apply Hnow. right; exact Hc.
      - intros d Hd. apply in_app_or in Hd as [Hd|[<-|[]]]; [auto|].
        cbn [AudioChunk.timestamp]. apply Hnow. left; reflexivity. }
    assert (E : chunks' =
       filter (fun c => now - App.BUFFER_DURATION_MS <=? AudioChunk.timestamp c) chunks
       ++ [AudioChunk.mk eventData now]).
    { unfold chunks', App.ondataavailable.
      destruct (Z.gtb_spec (blob_size eventData) 0); [|lia].
      rewrite (prune_loop_filter _ _ Hpushed), filter_app.
      cbn [filter AudioChunk.timestamp]. unfold App.BUFFER_DURATION_MS.
      destruct (Z.leb_spec (now - 30 * 60 * 1000) now); [reflexivity | lia]. }
    split; [exact E|]. split.
    + rewrite E.
      replace (filter (fun c => now - App.BUFFER_DURATION_MS <=? AudioChunk.timestamp c) chunks
               ++ [AudioChunk.mk eventData now])
        with (filter (fun c => now - App.BUFFER_DURATION_MS <=? AudioChunk.timestamp c)
                (chunks ++ [AudioChunk.mk eventData now])).
      * apply time_ordered_filter. exact Hpushed.
      * rewrite filter_app. cbn [filter AudioChunk.timestamp]. unfold App.BUFFER_DURATION_MS.
        destruct (Z.leb_spec (now - 30 * 60 * 1000) now); [reflexivity | lia].
    + intros c Hc. rewrite E in Hc. apply in_app_or in Hc as [Hc|[<-|[]]].
      * apply filter_In in Hc as [Hc Hts]. apply Z.leb_le in Hts.
        unfold App.BUFFER_DURATION_MS in Hts. specialize (Hnow c Hc). lia.
      * cbn [AudioChunk.timestamp]. lia.
Qed.

Lemma ondataavailable_keeps_order_witness :
  let chunks := map RingBuffer.chunk_of RingBuffer.three_fragments in
  RingBuffer.time_ordered chunks = true /\
  (forall c, In c chunks -> AudioChunk.timestamp c <= 1802000) /\
  App.ondataavailable 1802000 (RingBuffer.tick_payload 4) chunks =
    [AudioChunk.mk (RingBuffer.tick_payload 2) 2000;
     AudioChunk.mk (RingBuffer.tick_payload 3) 3000;
     AudioChunk.mk (RingBuffer.tick_payload 4) 1802000].
Proof.
  intros chunks.
  assert (Hnow : forall c, In c chunks -> AudioChunk.timestamp c <= 1802000).
  { intros c [<-|[<-|[<-|[]]]]; cbn; lia. }
  split; [reflexivity|]. split; [exact Hnow|].
  destruct (ondataavailable_keeps_order 1802000 (RingBuffer.tick_payload 4) chunks
              eq_refl Hnow) as [_ Hdata].
  assert (Hne : blob_bytes (RingBuffer.tick_payload 4) <> []) by discriminate.
  destruct (Hdata Hne) as [E _]. rewrite E. reflexivity.
Defined.

(** ** Ring buffer: the size display *)

Lemma spaced_cons gap c l :
  0 <= gap ->
  RingBuffer.spaced gap (c :: l) = true ->
  RingBuffer.spaced gap l = true /\
  (forall d, In d l -> AudioChunk.timestamp c + gap <= AudioChunk.timestamp d).
Proof.
  intros Hgap. revert c. induction l as [|d l IH]; intros c Hs.
  - split; [reflexivity | intros ? []].
  - cbn [RingBuffer.spaced] in Hs.
    apply andb_true_iff in Hs as [Hcd Hl]. apply Z.leb_le in Hcd.
    split; [exact Hl|].
    intros x [<-|Hx]; [exact Hcd|].
    destruct (IH d Hl) as [_ Hd]. specialize (Hd x Hx). lia.
Qed.

Lemma spaced_intro gap c l :
  RingBuffer.spaced gap l = true ->
  (forall d, In d l -> AudioChunk.timestamp c + gap <= AudioChunk.timestamp d) ->
  RingBuffer.spaced gap (c :: l) = true.
Proof.
  intros Hl Hc. destruct l as [|d l]; [reflexivity|].
  cbn [RingBuffer.spaced]. apply andb_true_iff. split; [|exact Hl].
  apply Z.leb_le, Hc. left; reflexivity.
Qed.

Lemma spaced_filter gap p l :
  0 <= gap ->
  RingBuffer.spaced gap l = true -> RingBuffer.spaced gap (filter p l) = true.
Proof.
  intros Hgap. induction l as [|c l IH]; intros Hs; [reflexivity|].
  apply (spaced_cons gap c l Hgap) in Hs as [Hl Hc]. cbn [filter].
  destruct (p c); [|auto].
  apply spaced_intro; [auto|].
  intros d Hd. apply filter_In in Hd as [Hd _]. auto.
Qed.

(** A spaced list inside a half-open time interval cannot be long. *)
Lemma spaced_count gap lo hi l :
  0 < gap ->
  RingBuffer.spaced gap l = true ->
  (forall c, In c l -> lo < AudioChunk.timestamp c <= hi) ->
  l = [] \/ gap * (Z.of_nat (List.length l) - 1) < hi - lo.
Proof.
  intros Hgap. revert lo. induction l as [|c l IH]; intros lo Hs Hin; [left; reflexivity|].
  right.
  apply (spaced_cons gap c l) in Hs as [Hl Hc]; [|lia].
  assert (Hlo : lo < AudioChunk.timestamp c <= hi) by (apply Hin; left; reflexivity).
  specialize (IH (AudioChunk.timestamp c + gap - 1) Hl).
  assert (Hrest : forall d, In d l ->
            AudioChunk.timestamp c + gap - 1 < AudioChunk.timestamp d <= hi).
  { intros d Hd. specialize (Hc d Hd).
    assert (lo < AudioChunk.timestamp d <= hi) by (apply Hin; right; exact Hd). lia. }
  destruct (IH Hrest) as [->|Hlen]; cbn [List.length]; lia.
Qed.

(** X3. When the buffered fragments are at least one second apart and none
    is stamped later than [now], the size that the periodic sweep reports
    never exceeds 1800 seconds, and it is the length of the buffer that the
    sweep leaves. *)
Theorem bufferSize_at_most_1800 (now : Z) (chunks : list AudioChunk.t) :
  RingBuffer.spaced 1000 chunks = true ->
  (forall c, In c chunks -> AudioChunk.timestamp c <= now) ->
  0 <= snd (App.bufferSizeTick now chunks) <= 1800 /\
  snd (App.bufferSizeTick now chunks) =
    Z.of_nat (List.length (fst (App.bufferSizeTick now chunks))).
Proof.
  intros Hsp Hnow.
  assert (E : snd (App.bufferSizeTick now chunks) =
              Z.of_nat (List.length (fst (App.bufferSizeTick now chunks)))).
  { rewrite bufferSizeTick_fst. unfold App.bufferSizeTick. cbn [snd].
    change (App.CHUNK_DURATION_MS / 1000) with 1. lia. }
  split; [|exact E]. rewrite E, bufferSizeTick_fst.
  pose proof (spaced_count 1000 (now - App.BUFFER_DURATION_MS) now
                (filter (fun c => now - AudioChunk.timestamp c <? App.BUFFER_DURATION_MS) chunks))
    as Hcount.
  unfold App.BUFFER_DURATION_MS in *.
  assert (H : filter (fun c => now - AudioChunk.timestamp c <? 30 * 60 * 1000) chunks = [] \/
              1000 * (Z.of_nat (List.length
                (filter (fun c => now - AudioChunk.timestamp c <? 30 * 60 * 1000) chunks)) - 1)
              < now - (now - 30 * 60 * 1000)).
  { apply Hcount; [lia | apply spaced_filter; [lia | exact Hsp] |].
    intros c Hc. apply filter_In in Hc as [Hc Hts]. apply Z.ltb_lt in Hts.
    specialize (Hnow c Hc). lia. }
  destruct H as [->|H]; [cbn [List.length]; lia | lia].
Qed.

Lemma bufferSize_at_most_1800_witness :
  let chunks := map RingBuffer.chunk_of RingBuffer.three_fragments in
  RingBuffer.spaced 1000 chunks = true /\
  (forall c, In c chunks -> AudioChunk.timestamp c <= 1802000) /\
  0 <= snd (App.bufferSizeTick 1802000 chunks) <= 1800 /\
  snd (App.bufferSizeTick 1802000 chunks) = 1.
Proof.
  intros chunks.
  assert (Hnow : forall c, In c chunks -> AudioChunk.timestamp c <= 1802000).
  { intros c [<-|[<-|[<-|[]]]]; cbn; lia. }
  split; [reflexivity|]. split; [exact Hnow|]. split; [|reflexivity].
  exact (proj1 (bufferSize_at_most_1800 1802000 chunks eq_refl Hnow)).
Defined.

(** ** Incident store: what a save selects *)

Lemma geb_filter cutoff (l : list AudioChunk.t) :
  filter (fun chunk => AudioChunk.timestamp chunk >=? cutoff) l =
  filter (fun c => cutoff <=? AudioChunk.timestamp c) l.
Proof. apply filter_ext. intros c. apply Z.geb_leb. Qed.

(** The result of [saveIncident] in terms of the selected chunks. *)
Lemma saveIncident_selected now uuid minutes chunks incidents :
  let sel := filter (fun c => now - minutes * 60 * 1000 <=? AudioChunk.timestamp c) chunks in
  App.saveIncident now uuid minutes chunks incidents =
    match sel with
    | [] => (None, incidents)
    | _ :: _ =>
        let inc := SavedIncident.mk uuid now (Z.of_nat (List.length sel))
                     (newBlob (map AudioChunk.data sel) "audio/webm") None in
        (Some inc, inc :: incidents)
    end.
Proof.
  intros sel. unfold App.saveIncident. rewrite geb_filter. fold sel.
  destruct chunks as [|c0 chunks0] eqn:Echunks; [reflexivity|].
  cbn [List.length Nat.eqb]. rewrite length_map.
  destruct sel as [|s0 sel0]; reflexivity.
Qed.

(** X4. On a time-ordered buffer a save takes a trailing, contiguous part
    of the buffer: the buffer splits into older fragments, all before the
    cutoff, followed by the saved ones, and the incident's audio and
    duration are those of the trailing part. *)
Theorem saveIncident_takes_suffix (now : Z) (uuid : string) (minutes : Z)
    (chunks : list AudioChunk.t) (incidents incidents' : list SavedIncident.t)
    (inc : SavedIncident.t) :
  RingBuffer.time_ordered chunks = true ->
  App.saveIncident now uuid minutes chunks incidents = (Some inc, incidents') ->
  exists older saved,
    chunks = older ++ saved /\ saved <> [] /\
    Forall (fun c => AudioChunk.timestamp c < now - minutes * 60 * 1000) older /\
    Forall (fun c => now - minutes * 60 * 1000 <= AudioChunk.timestamp c) saved /\
    blob_bytes (SavedIncident.blob inc) =
      concat (map (fun c => blob_bytes (AudioChunk.data c)) saved) /\
    SavedIncident.durationSeconds inc = Z.of_nat (List.length saved).
Proof.
  intros Hord Hsave. rewrite saveIncident_selected in Hsave. cbv zeta in Hsave.
  rewrite <- (prune_loop_filter _ _ Hord) in Hsave.
  destruct (prune_loop_suffix (now - minutes * 60 * 1000) chunks) as (older & E & Hold).
  exists older, (App.prune_loop (now - minutes * 60 * 1000) chunks).
  destruct (App.prune_loop (now - minutes * 60 * 1000) chunks) as [|s0 sel0] eqn:Esel;
    [discriminate|].
  injection Hsave as <- _.
  split; [exact E|]. split; [discriminate|]. split; [exact Hold|]. split.
  - rewrite <- Esel, (prune_loop_filter _ _ Hord). apply Forall_forall.
    intros c Hc. apply filter_In in Hc as [_ Hc]. apply Z.leb_le. exact Hc.
  - cbn [SavedIncident.blob SavedIncident.durationSeconds newBlob blob_bytes].
    split; [|reflexivity]. cbn [map concat]. rewrite map_map. reflexivity.
Qed.

Lemma saveIncident_takes_suffix_witness :
  let chunks := map RingBuffer.chunk_of RingBuffer.three_fragments in
  let inc := SavedIncident.mk "a" 61500 2
               (mkBlob [x01%byte; x01%byte] "audio/webm") None in
  RingBuffer.time_ordered chunks = true /\
  App.saveIncident 61500 "a" 1 chunks [] = (Some inc, [inc]) /\
  exists older saved,
    chunks = older ++ saved /\
    SavedIncident.durationSeconds inc = Z.of_nat (List.length saved).
Proof.
  intros chunks inc. split; [reflexivity|]. split; [reflexivity|].
  destruct (saveIncident_takes_suffix 61500 "a" 1 chunks [] [inc] inc eq_refl eq_refl)
    as (older & saved & E & _ & _ & _ & _ & Hd).
  exists older, saved. split; assumption.
Defined.

(** X5. A longer lookback extends a save at the front only. On a
    time-ordered buffer, when a save with [m1] minutes yields an incident
    and [m1 <= m2], the save with [m2] minutes at the same instant also
    yields one, whose audio ends with the audio of the first and which is
    at least as long. *)
Theorem longer_window_extends_save (now : Z) (uuid1 uuid2 : string) (m1 m2 : Z)
    (chunks : list AudioChunk.t) (incidents l1 : list SavedIncident.t)
    (inc1 : SavedIncident.t) :
  RingBuffer.time_ordered chunks = true ->
  m1 <= m2 ->
  App.saveIncident now uuid1 m1 chunks incidents = (Some inc1, l1) ->
  exists inc2 earlier,
    App.saveIncident now uuid2 m2 chunks incidents = (Some inc2, inc2 :: incidents) /\
    blob_bytes (SavedIncident.blob inc2) = earlier ++ blob_bytes (SavedIncident.blob inc1) /\
    SavedIncident.durationSeconds inc1 <= SavedIncident.durationSeconds inc2.
Proof.
  intros Hord Hm Hsave1. rewrite saveIncident_selected in *. cbv zeta in *.
  set (sel2 := filter (fun c => now - m2 * 60 * 1000 <=? AudioChunk.timestamp c) chunks) in *.
  assert (E1 : filter (fun c => now - m1 * 60 * 1000 <=? AudioChunk.timestamp c) chunks =
               App.prune_loop (now - m1 * 60 * 1000) sel2).
  { unfold sel2. rewrite prune_loop_filter by (apply time_ordered_filter; exact Hord).
    rewrite filter_filter_cutoff by lia. reflexivity. }
  rewrite E1 in Hsave1.
  destruct (prune_loop_suffix (now - m1 * 60 * 1000) sel2) as (older & E & _).
  destruct (App.prune_loop (now - m1 * 60 * 1000) sel2) as [|s0 sel1]; [discriminate|].
  injection Hsave1 as <- _.
  destruct sel2 as [|t0 sel2']; [destruct older; discriminate|].
  eexists _, (concat (map (fun c => blob_bytes (AudioChunk.data c)) older)).
  split; [reflexivity|].
  cbn [SavedIncident.blob SavedIncident.durationSeconds newBlob blob_bytes].
  split.
  - rewrite E, !map_map, map_app, concat_app. f_equal.
    cbn [map concat]. rewrite map_map. reflexivity.
  - assert (Hlen : List.length (t0 :: sel2') =
                   (List.length older + List.length (s0 :: sel1))%nat)
      by (rewrite E, length_app; reflexivity).
    rewrite Hlen, Zpos_P_of_succ_nat. cbn [List.length]. lia.
Qed.

Lemma longer_window_extends_save_witness :
  let chunks :=
    [AudioChunk.mk (mkBlob [x01%byte] "audio/webm") 1000;
     AudioChunk.mk (mkBlob [x02%byte] "audio/webm") 100000] in
  let inc1 := SavedIncident.mk "a" 101000 1 (mkBlob [x02%byte] "audio/webm") None in
  RingBuffer.time_ordered chunks = true /\ 1 <= 5 /\
  App.saveIncident 101000 "a" 1 chunks [] = (Some inc1, [inc1]) /\
  exists inc2 earlier,
    App.saveIncident 101000 "b" 5 chunks [] = (Some inc2, [inc2]) /\
    blob_bytes (SavedIncident.blob inc2) = earlier ++ [x02%byte].
Proof.
  intros chunks inc1. split; [reflexivity|]. split; [lia|]. split; [reflexivity|].
  destruct (longer_window_extends_save 101000 "a" "b" 1 5 chunks [] [inc1] inc1
              eq_refl ltac:(lia) eq_refl) as (inc2 & earlier & H1 & H2 & _).
  exists inc2, earlier. split; assumption.
Defined.

(** X6. Pruning costs a save nothing, with one exception. After a
    session of captures and sweeps whose times never decrease, a save at a
    [now] not before the last activity gives the same result on the buffer
    as on the list of all fragments ever stored, when its window is shorter
    than 30 minutes, and also when it is the 30 minute window and every
    sweep happened before [now]. (A sweep in the millisecond of the save
    drops the fragment that is exactly 30 minutes old, which the 30 minute
    save would select.) *)
Theorem pruning_loses_no_selectable_fragment (activities : list RingBuffer.Activity)
    (now : Z) (uuid : string) (minutes : Z) (incidents : list SavedIncident.t) :
  RingBuffer.in_time_order activities = true ->
  (forall a, In a activities -> RingBuffer.time_of a <= now) ->
  minutes * 60 * 1000 < App.BUFFER_DURATION_MS \/
  (minutes * 60 * 1000 <= App.BUFFER_DURATION_MS /\
   forall t, In (RingBuffer.Sweep t) activities -> t < now) ->
  App.saveIncident now uuid minutes (RingBuffer.session activities []) incidents =
  App.saveIncident now uuid minutes (RingBuffer.captured activities) incidents.
Proof.
  intros Hord Hnow Hmin.
  rewrite !saveIncident_selected. cbv zeta.
  rewrite (session_filter _ Hord), filter_filter_and.
  rewrite (filter_ext_in
             (fun c => forallb (fun a => RingBuffer.keeps a c) activities &&
                       (now - minutes * 60 * 1000 <=? AudioChunk.timestamp c))
             (fun c => now - minutes * 60 * 1000 <=? AudioChunk.timestamp c));
    [reflexivity|].
  intros c _.
  destruct (Z.leb_spec (now - minutes * 60 * 1000) (AudioChunk.timestamp c)) as [Hsel|];
    [|apply andb_false_r].
  rewrite andb_true_r. apply forallb_forall. intros a Ha.
  specialize (Hnow a Ha).
  destruct a as [t data|t]; cbn [RingBuffer.keeps RingBuffer.time_of] in *.
  - destruct (blob_size data >? 0); [|reflexivity]. apply Z.leb_le.
    destruct Hmin as [Hlt|[Hle _]]; lia.
  - apply Z.ltb_lt. destruct Hmin as [Hlt|[Hle Hsweep]]; [lia|].
    specialize (Hsweep t Ha). lia.
Qed.

(** Two fragments, a sweep, a third fragment much later, and a 30 minute
    save half a second after it. *)
Lemma pruning_loses_no_selectable_fragment_witness :
  let activities :=
    [RingBuffer.Capture 1000 (RingBuffer.tick_payload 1);
     RingBuffer.Capture 2000 (RingBuffer.tick_payload 2);
     RingBuffer.Sweep 2500;
     RingBuffer.Capture 2000000 (RingBuffer.tick_payload 3);
     RingBuffer.Sweep 2000400] in
  RingBuffer.in_time_order activities = true /\
  (forall a, In a activities -> RingBuffer.time_of a <= 2000500) /\
  (forall t, In (RingBuffer.Sweep t) activities -> t < 2000500) /\
  List.length (RingBuffer.session activities []) = 1%nat /\
  List.length (RingBuffer.captured activities) = 3%nat /\
  App.saveIncident 2000500 "a" 30 (RingBuffer.session activities []) [] =
  App.saveIncident 2000500 "a" 30 (RingBuffer.captured activities) [].
Proof.
  intros activities.
  assert (Hnow : forall a, In a activities -> RingBuffer.time_of a <= 2000500).
  { intros a Ha. cbn in Ha.
    repeat (destruct Ha as [<-|Ha]; [cbn; lia|]). destruct Ha. }
  assert (Hsweep : forall t, In (RingBuffer.Sweep t) activities -> t < 2000500).
  { intros t Ht. cbn in Ht.
    repeat (destruct Ht as [Ht|Ht]; [try discriminate Ht; injection Ht as <-; lia|]).
    destruct Ht. }
  split; [reflexivity|]. split; [exact Hnow|]. split; [exact Hsweep|].
  split; [reflexivity|]. split; [reflexivity|].
  apply (pruning_loses_no_selectable_fragment activities 2000500 "a" 30 [] eq_refl Hnow).
  right. split; [cbn; lia | exact Hsweep].
Defined.

(** ** Incident store: delete and analyse *)

(** X7. Deleting keeps exactly the incidents with another id, in their
    order; it is idempotent, deletions commute, and deleting an id that is
    not in the list changes nothing. *)
Theorem handleDelete_removes_id (id : string) (prev : list SavedIncident.t) :
  (forall inc, In inc (App.handleDelete id prev) <->
               In inc prev /\ SavedIncident.id inc <> id) /\
  (forall i j a b,
     nth_error (App.handleDelete id prev) i = Some a ->
     nth_error (App.handleDelete id prev) j = Some b -> (i < j)%nat ->
     exists i' j', (i' < j')%nat /\
       nth_error prev i' = Some a /\ nth_error prev j' = Some b) /\
  App.handleDelete id (App.handleDelete id prev) = App.handleDelete id prev /\
  (forall id', App.handleDelete id (App.handleDelete id' prev) =
               App.handleDelete id' (App.handleDelete id prev)) /\
  ((forall inc, In inc prev -> SavedIncident.id inc <> id) ->
   App.handleDelete id prev = prev).
Proof.
  unfold App.handleDelete. split; [|split; [|split; [|split]]].
  - intros inc. rewrite filter_In, negb_true_iff, String.eqb_neq. reflexivity.
  - induction prev as [|x prev IH]; intros i j a b Hi Hj Hij.
    + destruct i; discriminate.
    + cbn [filter] in Hi, Hj.
      destruct (negb (SavedIncident.id x =? id)%string).
      * destruct j as [|j]; [lia|]. destruct i as [|i].
        -- cbn [nth_error] in Hi, Hj. injection Hi as <-.
           apply nth_error_In in Hj. apply filter_In in Hj as [Hj _].
           apply In_nth_error in Hj as [j' Hj'].
           exists 0%nat, (S j'). split; [lia|]. split; [reflexivity | exact Hj'].
        -- cbn [nth_error] in Hi, Hj.
           destruct (IH i j a b Hi Hj ltac:(lia)) as (i' & j' & H1 & H2 & H3).
           exists (S i'), (S j'). split; [lia|]. split; assumption.
      * destruct (IH i j a b Hi Hj Hij) as (i' & j' & H1 & H2 & H3).
        exists (S i'), (S j'). split; [lia|]. split; assumption.
  - apply filter_idem.
  - intros id'. induction prev as [|x prev IH]; [reflexivity|]. cbn [filter].
    destruct (negb (SavedIncident.id x =? id')%string) eqn:E1;
      destruct (negb (SavedIncident.id x =? id)%string) eqn:E2;
      cbn [filter]; rewrite ?E1, ?E2, IH; reflexivity.
  - intros Habs. apply forallb_filter_id, forallb_forall. intros inc Hin.
    apply negb_true_iff, String.eqb_neq, Habs, Hin.
Qed.

(** X8. Saving and then deleting the new incident gives back the incident
    list as it was, provided the new id was not in use; this holds whether
    or not the save found any audio. *)
Theorem save_then_delete_restores (now : Z) (uuid : string) (minutes : Z)
    (chunks : list AudioChunk.t) (incidents : list SavedIncident.t) :
  (forall inc, In inc incidents -> SavedIncident.id inc <> uuid) ->
  App.handleDelete uuid (snd (App.saveIncident now uuid minutes chunks incidents)) =
  incidents.
Proof.
  intros Hfresh. rewrite saveIncident_selected. cbv zeta.
  assert (Hkeep : App.handleDelete uuid incidents = incidents).
  { unfold App.handleDelete. apply forallb_filter_id, forallb_forall. intros inc Hin.
    apply negb_true_iff, String.eqb_neq, Hfresh, Hin. }
  destruct (filter _ chunks) as [|s0 sel0]; cbn [snd]; [exact Hkeep|].
  unfold App.handleDelete in *. cbn [filter SavedIncident.id].
  rewrite String.eqb_refl. cbn [negb]. exact Hkeep.
Qed.

Lemma save_then_delete_restores_witness :
  let chunks := map RingBuffer.chunk_of RingBuffer.three_fragments in
  let old := SavedIncident.mk "a" 500 1 (mkBlob [x01%byte] "audio/webm") None in
  (forall inc, In inc [old] -> SavedIncident.id inc <> "b"%string) /\
  List.length (snd (App.saveIncident 3500 "b" 1 chunks [old])) = 2%nat /\
  App.handleDelete "b" (snd (App.saveIncident 3500 "b" 1 chunks [old])) = [old].
Proof.
  intros chunks old.
  assert (Hfresh : forall inc, In inc [old] -> SavedIncident.id inc <> "b"%string).
  { intros inc [<-|[]]. discriminate. }
  split; [exact Hfresh|]. split; [reflexivity|].
  apply (save_then_delete_restores 3500 "b" 1 chunks [old] Hfresh).
Defined.

(** X9. Whatever the file reader and the analysis service do,
    [handleAnalyze] keeps the number, order, ids, timestamps, durations and
    audio of the incidents and touches no incident with another id. With an
    empty key, or when the analysis fails, the list is unchanged. *)
Theorem handleAnalyze_keeps_incidents (apiKey : string)
    (readAsDataURL : Blob -> ReadOutcome)
    (generateContent : GeminiService.Request -> GeminiService.Reply)
    (incident : SavedIncident.t) (prev : list SavedIncident.t) :
  let next := App.handleAnalyze apiKey readAsDataURL generateContent incident prev in
  map SavedIncident.id next = map SavedIncident.id prev /\
  map SavedIncident.timestamp next = map SavedIncident.timestamp prev /\
  map SavedIncident.durationSeconds next = map SavedIncident.durationSeconds prev /\
  map SavedIncident.blob next = map SavedIncident.blob prev /\
  (forall i inc, nth_error prev i = Some inc ->
     SavedIncident.id inc <> SavedIncident.id incident ->
     nth_error next i = Some inc) /\
  (is_empty apiKey = true -> next = prev) /\
  (forall e,
     GeminiService.analyzeIncident readAsDataURL generateContent
       (SavedIncident.blob incident) apiKey = inl e -> next = prev).
Proof.
  intros next.
  assert (Hcases : next = prev \/
            exists a, next = App.attachAnalysis (SavedIncident.id incident) a prev).
  { unfold next, App.handleAnalyze. destruct (is_empty apiKey); [left; reflexivity|].
    destruct (GeminiService.analyzeIncident _ _ _ _) as [e|a];
      [left; reflexivity | right; exists a; reflexivity]. }
  assert (Hfield : forall (B : Type) (f : SavedIncident.t -> B),
            (forall inc a, f (SavedIncident.with_analysis inc a) = f inc) ->
            map f next = map f prev).
  { intros B f Hf. destruct Hcases as [->|[a ->]]; [reflexivity|].
    unfold App.attachAnalysis. rewrite map_map. apply map_ext. intros inc.
    destruct (SavedIncident.id inc =? SavedIncident.id incident)%string;
      [apply Hf | reflexivity]. }
  split; [apply Hfield; reflexivity|]. split; [apply Hfield; reflexivity|].
  split; [apply Hfield; reflexivity|]. split; [apply Hfield; reflexivity|].
  split; [|split].
  - intros i inc Hi Hid. destruct Hcases as [->|[a ->]]; [exact Hi|].
    unfold App.attachAnalysis. rewrite nth_error_map, Hi. cbn [option_map].
    destruct (String.eqb_spec (SavedIncident.id inc) (SavedIncident.id incident));
      [contradiction | reflexivity].
  - intros Hkey. unfold next, App.handleAnalyze. rewrite Hkey. reflexivity.
  - intros e He. unfold next, App.handleAnalyze. rewrite He.
    destruct (is_empty apiKey); reflexivity.
Qed.

(** ** Binary-to-text conversion: shape and errors *)

Lemma string_of_list_ascii_length (l : list ascii) :
  String.length (string_of_list_ascii l) = List.length l.
Proof. induction l as [|c l IH]; cbn; [reflexivity | rewrite IH; reflexivity]. Qed.

Lemma btoa_groups_length (s : list ascii) :
  List.length (AudioUtils.btoa_groups s) = (4 * ((List.length s + 2) / 3))%nat.
Proof.
  induction s as [|a|a b|a b c l IH] using list_ind3; try reflexivity.
  cbn [AudioUtils.btoa_groups List.length]. rewrite IH.
  replace (S (S (S (List.length l))) + 2)%nat with ((List.length l + 2) + 1 * 3)%nat by lia.
  rewrite Nat.div_add by lia. lia.
Qed.

(** X10. The base64 text of [n] bytes has [4 * ceil(n / 3)] characters; each
    is a character of the base64 alphabet or the padding character, none is
    white space, and the text ends with at most two padding characters. *)
Theorem uint8ArrayToBase64_shape (bytes : list byte) :
  let text := list_ascii_of_string (AudioUtils.uint8ArrayToBase64 bytes) in
  List.length text = (4 * ((List.length bytes + 2) / 3))%nat /\
  Forall (fun c => AudioUtils.is_ascii_whitespace c = false /\
                   (AudioUtils.is_pad c = true \/
                    exists n, AudioUtils.sextet_ok n /\ AudioUtils.decode_char c = Some n))
         text /\
  exists body pad,
    text = body ++ pad /\ AudioUtils.padding_ok pad /\
    Forall (fun c => AudioUtils.is_pad c = false) body.
Proof.
  intros text. unfold text, AudioUtils.uint8ArrayToBase64, AudioUtils.btoa.
  rewrite !list_ascii_of_string_of_list_ascii.
  split; [rewrite btoa_groups_length, length_map; reflexivity|].
  destruct (btoa_groups_shape (map ascii_of_byte bytes))
    as (gs & pad & -> & Hgs & Hpad & _).
  split.
  - apply Forall_app. split.
    + apply Forall_forall. intros c Hc. apply in_map_iff in Hc as (n & <- & Hn).
      rewrite Forall_forall in Hgs. specialize (Hgs n Hn).
      destruct (sextet_decode n Hgs) as (Hd & _ & Hws).
      split; [exact Hws|]. right. exists n. split; assumption.
    + destruct Hpad as [->|[->| ->]]; repeat constructor.
  - exists (map AudioUtils.encode_sextet gs), pad.
    split; [reflexivity|]. split; [exact Hpad|].
    apply Forall_forall. intros c Hc. apply in_map_iff in Hc as (n & <- & Hn).
    rewrite Forall_forall in Hgs.
    exact (proj1 (proj2 (sextet_decode n (Hgs n Hn)))).
Qed.

Lemma alphabet_table :
  forallb (fun k =>
             let c := ascii_of_nat k in
             match AudioUtils.decode_char c with
             | Some _ => negb (AudioUtils.is_pad c) && negb (AudioUtils.is_ascii_whitespace c)
             | None => true
             end) (seq 0 256) = true.
Proof. vm_compute. reflexivity. Qed.

Lemma alphabet_char c n :
  AudioUtils.decode_char c = Some n ->
  AudioUtils.is_pad c = false /\ AudioUtils.is_ascii_whitespace c = false.
Proof.
  intros Hc. pose proof alphabet_table as T. rewrite forallb_forall in T.
  specialize (T (nat_of_ascii c)). cbv zeta in T. rewrite ascii_nat_embedding in T.
  rewrite Hc in T.
  assert (Hin : In (nat_of_ascii c) (seq 0 256)).
  { apply in_seq. pose proof (nat_ascii_bounded c). lia. }
  apply T, andb_true_iff in Hin as [H1 H2].
  split; apply negb_true_iff; assumption.
Qed.

Lemma sextets_reject d c :
  In c d -> AudioUtils.decode_char c = None -> AudioUtils.sextets d = None.
Proof.
  induction d as [|x d IH]; intros Hin Hc; [destruct Hin|].
  cbn [AudioUtils.sextets]. destruct Hin as [->|Hin].
  - rewrite Hc. reflexivity.
  - rewrite (IH Hin Hc). destruct (AudioUtils.decode_char x); reflexivity.
Qed.

(** Removing the padding removes no other character. *)
Lemma strip_padding_keeps d c :
  In c d -> AudioUtils.is_pad c = false -> In c (AudioUtils.strip_padding d).
Proof.
  intros Hin Hc. unfold AudioUtils.strip_padding.
  destruct (Z.of_nat (List.length d) mod 4 =? 0); [|exact Hin].
  assert (Hrev : In c (rev d)) by (apply in_rev; rewrite rev_involutive; exact Hin).
  destruct (rev d) as [|p1 [|p2 r]] eqn:E; [exact Hin| |].
  - destruct (AudioUtils.is_pad p1) eqn:E1; [|exact Hin].
    destruct Hrev as [<-|[]]. congruence.
  - destruct (AudioUtils.is_pad p1) eqn:E1; [|exact Hin].
    destruct Hrev as [<-|Hrev]; [congruence|].
    destruct (AudioUtils.is_pad p2) eqn:E2.
    + destruct Hrev as [<-|Hrev]; [congruence|]. apply in_rev in Hrev. exact Hrev.
    + apply in_rev in Hrev. exact Hrev.
Qed.

Lemma atob_invalid_character (base64 : string) (c : ascii) :
  In c (list_ascii_of_string base64) ->
  AudioUtils.decode_char c = None ->
  AudioUtils.is_pad c = false ->
  AudioUtils.is_ascii_whitespace c = false ->
  AudioUtils.base64ToUint8Array base64 = None.
Proof.
  intros Hin Hdec Hpad Hws. unfold AudioUtils.base64ToUint8Array, AudioUtils.atob.
  set (d := filter (fun c => negb (AudioUtils.is_ascii_whitespace c))
              (list_ascii_of_string base64)).
  assert (Hd : In c d) by (apply filter_In; split; [exact Hin | rewrite Hws; reflexivity]).
  pose proof (strip_padding_keeps d c Hd Hpad) as Hs.
  destruct (Z.of_nat (List.length (AudioUtils.strip_padding d)) mod 4 =? 1); [reflexivity|].
  rewrite (sextets_reject _ c Hs Hdec). reflexivity.
Qed.

(** X11. Decoding raises on every text that contains a character which is
    neither of the base64 alphabet, nor white space, nor the padding
    character; and on every text of alphabet characters whose length
    leaves remainder 1 modulo 4. *)
Theorem base64ToUint8Array_rejects (base64 : string) :
  ((exists c, In c (list_ascii_of_string base64) /\
              AudioUtils.decode_char c = None /\
              AudioUtils.is_pad c = false /\
              AudioUtils.is_ascii_whitespace c = false) ->
   AudioUtils.base64ToUint8Array base64 = None) /\
  (Forall (fun c => AudioUtils.decode_char c <> None) (list_ascii_of_string base64) ->
   (String.length base64 mod 4 = 1)%nat ->
   AudioUtils.base64ToUint8Array base64 = None).
Proof.
  split.
  - intros (c & Hin & Hdec & Hpad & Hws).
    exact (atob_invalid_character base64 c Hin Hdec Hpad Hws).
  - unfold AudioUtils.base64ToUint8Array, AudioUtils.atob. intros Hall Hlen.
    set (l := list_ascii_of_string base64) in *.
    assert (Hf : filter (fun c => negb (AudioUtils.is_ascii_whitespace c)) l = l).
    { apply forallb_filter_id, forallb_forall. intros c Hc.
      rewrite Forall_forall in Hall. specialize (Hall c Hc).
      destruct (AudioUtils.decode_char c) as [n|] eqn:E; [|contradiction].
      apply negb_true_iff. exact (proj2 (alphabet_char c n E)). }
    rewrite Hf.
    assert (Hl : List.length l = String.length base64).
    { unfold l. rewrite <- (string_of_list_ascii_of_string base64) at 2.
      symmetry. apply string_of_list_ascii_length. }
    assert (Hmod : Z.of_nat (String.length base64) mod 4 = 1).
    { change 4 with (Z.of_nat 4). rewrite <- Nat2Z.inj_mod, Hlen. reflexivity. }
    assert (Hs : AudioUtils.strip_padding l = l).
    { unfold AudioUtils.strip_padding. rewrite Hl, Hmod. reflexivity. }
    rewrite Hs, Hl, Hmod. reflexivity.
Qed.

(** ** Reading a blob as base64 *)

Lemma split_at_no_separator (sep : ascii) (s : string) :
  AudioUtils.contains sep s = false -> AudioUtils.split_at sep s = (s, []).
Proof.
  unfold AudioUtils.contains. induction s as [|c s IH]; [reflexivity|].
  cbn [list_ascii_of_string existsb AudioUtils.split_at]. intros H.
  apply orb_false_iff in H as [Hc Hs]. rewrite (IH Hs).
  rewrite Ascii.eqb_sym, Hc. reflexivity.
Qed.

Lemma split_at_first_separator (sep : ascii) (pre rest : string) :
  AudioUtils.contains sep pre = false ->
  AudioUtils.split_at sep (pre ++ String sep rest) = (pre, AudioUtils.split sep rest).
Proof.
  unfold AudioUtils.contains. induction pre as [|c pre IH].
  - intros _. cbn [append AudioUtils.split_at]. unfold AudioUtils.split.
    destruct (AudioUtils.split_at sep rest) as [piece pieces].
    rewrite Ascii.eqb_refl. reflexivity.
  - cbn [list_ascii_of_string existsb append AudioUtils.split_at]. intros H.
    apply orb_false_iff in H as [Hc Hs]. rewrite (IH Hs).
    rewrite Ascii.eqb_sym, Hc. reflexivity.
Qed.

Lemma sextet_no_comma :
  forallb (fun k => negb (Ascii.eqb "," (AudioUtils.encode_sextet (Z.of_nat k))))
    (seq 0 64) = true.
Proof. vm_compute. reflexivity. Qed.

(** Base64 text holds no comma. *)
Lemma base64_no_comma (bytes : list byte) :
  AudioUtils.contains "," (AudioUtils.uint8ArrayToBase64 bytes) = false.
Proof.
  unfold AudioUtils.contains, AudioUtils.uint8ArrayToBase64, AudioUtils.btoa.
  rewrite list_ascii_of_string_of_list_ascii.
  destruct (btoa_groups_shape
              (list_ascii_of_string (string_of_list_ascii (map ascii_of_byte bytes))))
    as (gs & pad & -> & Hgs & Hpad & _).
  rewrite existsb_app. apply orb_false_iff. split.
  - induction Hgs as [|g gs Hg _ IH]; [reflexivity|].
    cbn [map existsb]. rewrite IH, orb_false_r.
    pose proof sextet_no_comma as T. rewrite forallb_forall in T.
    specialize (T (Z.to_nat g)). unfold AudioUtils.sextet_ok in Hg.
    rewrite Z2Nat.id in T by lia.
    apply negb_true_iff, T, in_seq. lia.
  - destruct Hpad as [->|[->| ->]]; reflexivity.
Qed.

(** X23. [blobToBase64] passes on the reader's error. When the reader
    loads a data URL whose part before the payload holds no comma (as in
    [data:audio/webm;base64,...]), the promise resolves to the base64 text
    of the blob's bytes. When the loaded text holds no comma at all, it
    resolves to [undefined]. *)
Theorem blobToBase64_payload (readAsDataURL : Blob -> ReadOutcome) (blob : Blob) :
  (forall detail,
     readAsDataURL blob = ReadFailed detail ->
     AudioUtils.blobToBase64 readAsDataURL blob = inl detail) /\
  (forall header,
     readAsDataURL blob =
       Loaded (header ++ "," ++ AudioUtils.uint8ArrayToBase64 (blob_bytes blob))%string ->
     AudioUtils.contains "," header = false ->
     AudioUtils.blobToBase64 readAsDataURL blob =
       inr (Some (AudioUtils.uint8ArrayToBase64 (blob_bytes blob)))) /\
  (forall result,
     readAsDataURL blob = Loaded result ->
     AudioUtils.contains "," result = false ->
     AudioUtils.blobToBase64 readAsDataURL blob = inr None) /\
  AudioUtils.blobToBase64 (fun b => Loaded (AudioUtils.dataURL b))
    (mkBlob [x01; x02; x03]%byte "audio/webm") = inr (Some "AQID"%string).
Proof.
  unfold AudioUtils.blobToBase64. split; [|split; [|split]].
  - intros detail ->. reflexivity.
  - intros header -> Hheader. unfold AudioUtils.split.
    change ("," ++ AudioUtils.uint8ArrayToBase64 (blob_bytes blob))%string
      with (String "," (AudioUtils.uint8ArrayToBase64 (blob_bytes blob))).
    rewrite (split_at_first_separator _ _ _ Hheader). unfold AudioUtils.split.
    rewrite (split_at_no_separator _ _ (base64_no_comma (blob_bytes blob))).
    reflexivity.
  - intros result -> Hresult. unfold AudioUtils.split.
    rewrite (split_at_no_separator _ _ Hresult). reflexivity.
  - vm_compute. reflexivity.
Qed.

(** ** PCM: byte views, the upload frame and decoded clips *)

Lemma byte_of_Z_value n : Z.of_N (Byte.to_N (AudioUtils.byte_of_Z n)) = n mod 256.
Proof.
  unfold AudioUtils.byte_of_Z.
  assert (Hr : 0 <= n mod 256 < 256) by (apply Z.mod_pos_bound; lia).
  destruct (Byte.of_N (Z.to_N (n mod 256))) as [b|] eqn:E.
  - apply Byte.to_of_N in E. rewrite E. apply Z2N.id. lia.
  - apply Byte.of_N_None_iff in E. lia.
Qed.

Lemma int16_two_bytes v :
  -32768 <= v <= 32767 ->
  Num.wrap16 ((v mod 65536) mod 256 + 256 * ((v mod 65536 / 256) mod 256)) = v.
Proof.
  intros Hv. unfold Num.wrap16.
  replace ((v mod 65536) mod 256 + 256 * ((v mod 65536 / 256) mod 256))
    with (v mod 65536) by div_lia.
  rewrite Z.mod_mod by lia.
  destruct (Z.geb_spec (v mod 65536) 32768); div_lia.
Qed.

Lemma int16_view_bytes (int16 : list Z) :
  Forall (fun v => -32768 <= v <= 32767) int16 ->
  AudioUtils.int16_view (AudioUtils.int16_bytes int16) = int16 /\
  List.length (AudioUtils.int16_bytes int16) = (2 * List.length int16)%nat.
Proof.
  induction 1 as [|v l Hv _ [IH1 IH2]]; [split; reflexivity|].
  cbn [AudioUtils.int16_bytes flat_map app AudioUtils.int16_view List.length].
  fold (AudioUtils.int16_bytes l). rewrite !byte_of_Z_value, IH1, IH2.
  split; [|lia]. f_equal. apply int16_two_bytes. exact Hv.
Qed.

Lemma float32ToInt16PCM_range (float32Data : list Num.number) :
  Forall (fun v => -32768 <= v <= 32767) (AudioUtils.float32ToInt16PCM float32Data).
Proof.
  unfold AudioUtils.float32ToInt16PCM. apply Forall_forall. intros v Hv.
  apply in_map_iff in Hv as (x & <- & _). exact (proj1 (sample_to_int16 x)).
Qed.

(** X12. The realtime input frame built from a block of microphone samples
    is tagged [audio/pcm;rate=16000], and its payload decodes without error
    to two bytes per sample whose 16-bit little-endian reading is exactly
    the converted PCM block. *)
Theorem upload_frame_decodes (inputData : list Num.number) :
  let frame := onaudioprocess inputData in
  media_mimeType frame = "audio/pcm;rate=16000"%string /\
  exists bytes,
    AudioUtils.base64ToUint8Array (media_data frame) = Some bytes /\
    List.length bytes = (2 * List.length inputData)%nat /\
    AudioUtils.int16_view bytes = AudioUtils.float32ToInt16PCM inputData.
Proof.
  intros frame. split; [reflexivity|].
  exists (AudioUtils.int16_bytes (AudioUtils.float32ToInt16PCM inputData)).
  destruct (int16_view_bytes _ (float32ToInt16PCM_range inputData)) as [Hview Hlen].
  split; [|split; [|exact Hview]].
  - unfold frame, onaudioprocess. cbn [media_data].
    unfold AudioUtils.base64ToUint8Array, AudioUtils.uint8ArrayToBase64.
    rewrite atob_btoa, list_ascii_of_string_of_list_ascii, map_map. f_equal.
    rewrite <- (map_id (AudioUtils.int16_bytes _)) at 2. apply map_ext.
    intros x. apply byte_of_ascii_of_byte.
  - rewrite Hlen. unfold AudioUtils.float32ToInt16PCM. rewrite length_map. reflexivity.
Qed.

Lemma list_ind2 {A} (P : list A -> Prop) :
  P [] -> (forall a, P [a]) -> (forall a b l, P l -> P (a :: b :: l)) ->
  forall l, P l.
Proof.
  intros H0 H1 H2. fix IH 1. intros [|a [|b l]]; [exact H0 | apply H1 |].
  apply H2, IH.
Qed.

Lemma int16_view_range (bytes : list byte) :
  Forall (fun v => -32768 <= v <= 32767) (AudioUtils.int16_view bytes) /\
  List.length (AudioUtils.int16_view bytes) = (List.length bytes / 2)%nat.
Proof.
  induction bytes as [|a|lo hi rest [IH1 IH2]] using list_ind2;
    try (split; [constructor | reflexivity]).
  cbn [AudioUtils.int16_view List.length]. split.
  - constructor; [|exact IH1]. unfold Num.wrap16.
    pose proof (Byte.to_N_bounded lo). pose proof (Byte.to_N_bounded hi).
    destruct (Z.geb_spec ((Z.of_N (Byte.to_N lo) + 256 * Z.of_N (Byte.to_N hi)) mod 65536) 32768);
      div_lia.
  - rewrite IH2.
    replace (S (S (List.length rest))) with (List.length rest + 1 * 2)%nat by lia.
    rewrite Nat.div_add by lia. lia.
Qed.


Lemma decoded_sample_back (v : Z) :
  -32768 <= v <= 32767 ->
  let x := Num.Finite (Qmake v 32768) in
  let s := Num.max (Num.of_Z (-1)) (Num.min (Num.of_Z 1) x) in
  Num.ToInt16 (if Num.ltb s (Num.of_Z 0)
               then Num.mul s (Num.of_Z 32768)
               else Num.mul s (Num.of_Z 32767)) =
  (if 0 <? v then v - 1 else v).
Proof.
  intros Hv. cbv zeta. unfold Num.of_Z. cbn [Num.min Num.ltb].
  destruct (Qlt_le_dec (Qmake v 32768) (inject_Z 1)) as [_|Hge];
    [|exfalso; revert Hge; unfold Qle; cbn [Qnum Qden inject_Z]; lia].
  cbn [Num.max Num.ltb].
  destruct (Qlt_le_dec (inject_Z (-1)) (Qmake v 32768)) as [Hgt|Hle].
  - cbn [Num.ltb].
    destruct (Qlt_le_dec (Qmake v 32768) (inject_Z 0)) as [Hneg|Hpos];
      cbn [Num.mul Num.ToInt16]; unfold Num.truncate;
      cbn [Qmult Qnum Qden inject_Z]; rewrite Pos.mul_1_r.
    + revert Hneg. unfold Qlt. cbn [Qnum Qden inject_Z]. intros Hneg.
      destruct (Z.ltb_spec 0 v); [lia|].
      rewrite Z.quot_mul by lia. apply wrap16_id. lia.
    + revert Hpos. unfold Qle. cbn [Qnum Qden inject_Z]. intros Hpos.
      destruct (Z.ltb_spec 0 v) as [Hp|Hz].
      * replace (Z.quot (v * 32767) 32768) with (v - 1)
          by (Z.to_euclidean_division_equations; nia).
        apply wrap16_id. lia.
      * assert (v = 0) by lia. subst v. reflexivity.
  - revert Hle. unfold Qle. cbn [Qnum Qden inject_Z]. intros Hle.
    assert (v = -32768) by lia. subst v. reflexivity.
Qed.

(** X14. Converting a decoded clip back to 16-bit PCM does not give the
    original samples: zero and negative samples come back unchanged, but
    every positive sample comes back one less, because positive values are
    scaled by 0x7FFF after having been divided by 32768. *)
Theorem decoded_clip_to_pcm (pcmData : list byte) (context : AudioContext)
    (rate : positive) (audioBuffer : AudioUtils.AudioBuffer) :
  AudioUtils.pcmToAudioBuffer pcmData context rate = Some audioBuffer ->
  AudioUtils.float32ToInt16PCM (map Num.Finite (AudioUtils.channelData audioBuffer)) =
  map (fun v => if 0 <? v then v - 1 else v) (AudioUtils.int16_view pcmData).
Proof.
  intros Hsome. unfold AudioUtils.pcmToAudioBuffer in Hsome.
  destruct (List.length (AudioUtils.int16_view pcmData) =? 0)%nat; [discriminate|].
  destruct (negb (supportsRate context rate)); [discriminate|].
  injection Hsome as <-. cbn [AudioUtils.channelData].
  unfold AudioUtils.float32ToInt16PCM. rewrite !map_map.
  apply map_ext_in. intros v Hv.
  destruct (int16_view_range pcmData) as [Hrange _].
  rewrite Forall_forall in Hrange.
  exact (decoded_sample_back v (Hrange v Hv)).
Qed.

Lemma decoded_clip_to_pcm_witness :
  let pcmData := [x05; x00; xfb; xff; x00; x00]%byte in
  exists audioBuffer,
    AudioUtils.pcmToAudioBuffer pcmData (clock 0 1) 24000 = Some audioBuffer /\
    AudioUtils.int16_view pcmData = [5; -5; 0] /\
    AudioUtils.float32ToInt16PCM (map Num.Finite (AudioUtils.channelData audioBuffer)) =
      [4; -5; 0].
Proof.
  intros pcmData. eexists. split; [reflexivity|]. split; [reflexivity|].
  rewrite (decoded_clip_to_pcm pcmData (clock 0 1) 24000 _ eq_refl). reflexivity.
Defined.

(** ** Duration display *)

Lemma to_int_proper (n : Z) :
  Z.to_int n <> Decimal.Pos Decimal.Nil /\ Z.to_int n <> Decimal.Neg Decimal.Nil.
Proof.
  destruct n as [|p|p]; cbn [Z.to_int]; split; try discriminate;
    intros [= H]; exact (DecimalPos.Unsigned.to_uint_nonnil p H).
Qed.

Lemma toString_inj (a b : Z) : AudioUtils.toString a = AudioUtils.toString b -> a = b.
Proof.
  unfold AudioUtils.toString. intros H.
  apply DecimalZ.to_int_inj.
  destruct (to_int_proper a) as [Ha1 Ha2]. destruct (to_int_proper b) as [Hb1 Hb2].
  pose proof (DecimalString.NilZero.isi _ Ha1 Ha2) as Ia.
  pose proof (DecimalString.NilZero.isi _ Hb1 Hb2) as Ib.
  rewrite H in Ia. rewrite Ia in Ib. injection Ib as Ib. exact Ib.
Qed.

Lemma append_tail_inj (a1 a2 t1 t2 : string) :
  String.length t1 = String.length t2 ->
  (a1 ++ t1)%string = (a2 ++ t2)%string -> a1 = a2 /\ t1 = t2.
Proof.
  revert a2. induction a1 as [|c a1 IH]; intros [|d a2] Hlen H; cbn [append] in H.
  - split; [reflexivity | exact H].
  - exfalso. apply (f_equal String.length) in H. cbn [String.length] in H.
    rewrite string_length_append in H. lia.
  - exfalso. apply (f_equal String.length) in H. cbn [String.length] in H.
    rewrite string_length_append in H. lia.
  - injection H as -> H. destruct (IH a2 Hlen H) as [-> ->]. split; reflexivity.
Qed.

Lemma two_digit_table :
  forallb (fun k =>
             let r := Z.of_nat k in
             String.eqb (AudioUtils.padStart 2 "0" (AudioUtils.toString r))
               (String (AudioUtils.digit (r / 10))
                  (String (AudioUtils.digit (r mod 10)) EmptyString)))
    (seq 0 60) = true.
Proof. vm_compute. reflexivity. Qed.

Lemma two_digits (r : Z) :
  0 <= r < 60 ->
  AudioUtils.padStart 2 "0" (AudioUtils.toString r) =
  String (AudioUtils.digit (r / 10)) (String (AudioUtils.digit (r mod 10)) EmptyString).
Proof.
  intros Hr. pose proof two_digit_table as T. rewrite forallb_forall in T.
  specialize (T (Z.to_nat r)). cbv zeta in T. rewrite Z2Nat.id in T by lia.
  apply String.eqb_eq, T, in_seq. lia.
Qed.

Lemma digit_inj (j k : Z) :
  0 <= j < 10 -> 0 <= k < 10 -> AudioUtils.digit j = AudioUtils.digit k -> j = k.
Proof.
  intros Hj Hk H. unfold AudioUtils.digit in H.
  apply (f_equal N_of_ascii) in H.
  rewrite !N_ascii_embedding in H by lia. lia.
Qed.

(** X15. For a whole, non-negative number of seconds the display is the
    decimal minute count, a colon and exactly two digits of seconds (tens
    and units of [seconds mod 60]); two different durations are never
    displayed alike. *)
Theorem formatDuration_minutes_seconds (seconds : Z) :
  0 <= seconds ->
  AudioUtils.formatDuration seconds =
    (AudioUtils.toString (seconds / 60) ++ ":" ++
     String (AudioUtils.digit (seconds mod 60 / 10))
       (String (AudioUtils.digit (seconds mod 60 mod 10)) EmptyString))%string /\
  (forall other, 0 <= other ->
     AudioUtils.formatDuration other = AudioUtils.formatDuration seconds ->
     other = seconds).
Proof.
  assert (Hshape : forall s, 0 <= s ->
    AudioUtils.formatDuration s =
    (AudioUtils.toString (s / 60) ++ ":" ++
     String (AudioUtils.digit (s mod 60 / 10))
       (String (AudioUtils.digit (s mod 60 mod 10)) EmptyString))%string).
  { intros s Hs. unfold AudioUtils.formatDuration. cbv zeta.
    rewrite Z.rem_mod_nonneg by lia.
    rewrite two_digits by (apply Z.mod_pos_bound; lia). reflexivity. }
  intros Hs. split; [apply Hshape; exact Hs|].
  intros other Ho Heq. rewrite (Hshape other Ho), (Hshape seconds Hs) in Heq.
  apply append_tail_inj in Heq as [Hm Ht]; [|reflexivity].
  apply toString_inj in Hm. cbn [append] in Ht. injection Ht as Ht1 Ht2.
  assert (Ro : 0 <= other mod 60 < 60) by (apply Z.mod_pos_bound; lia).
  assert (Rs : 0 <= seconds mod 60 < 60) by (apply Z.mod_pos_bound; lia).
  apply digit_inj in Ht1; [|div_lia|div_lia].
  apply digit_inj in Ht2; [|div_lia|div_lia].
  div_lia.
Qed.

Lemma formatDuration_minutes_seconds_witness :
  0 <= 1805 /\ AudioUtils.formatDuration 1805 = "30:05"%string.
Proof.
  split; [lia|].
  rewrite (proj1 (formatDuration_minutes_seconds 1805 ltac:(lia))). reflexivity.
Defined.

(** ** Live session: the scheduled set *)

(** X16. While every clock reads a time, the clips of the scheduled set
    are in playback order in every state the download flow can reach: each
    clip's reserved end (its start plus its duration, as the cursor
    arithmetic computes it) is no later than the start of every clip
    scheduled after it and no later than the cursor, and no earlier than
    its own start. *)
Theorem scheduled_clips_never_overlap (events : list Event) :
  forallb clock_reads_time events = true ->
  let st := run events initial in
  ForallOrdPairs (fun a b => Double.leb (endTime a) (startTime b) = true)
    (audioSources st) /\
  Forall (fun s => Double.leb (startTime s) (endTime s) = true /\
                   Double.leb (endTime s) (nextStartTime st) = true)
    (audioSources st).
Proof.
  intros Hclocks st. destruct (run_in_order events Hclocks) as (_ & Hall & Hpairs).
  fold st in Hall, Hpairs. split; [exact Hpairs|].
  eapply Forall_impl; [|exact Hall]. cbv beta. intros s (Hrate & Hstart & Hend).
  split; [|exact Hend]. apply add_leb; [exact Hstart | apply duration_cursor, Hrate].
Qed.

(** Three clips: the second arrives while the first still plays, the
    third after the second has ended. *)
Lemma scheduled_clips_never_overlap_witness :
  let events :=
    [Message true (Some (clock 5 1)) (clip (silence 960));
     Message true (Some (clock 501 100)) (clip (silence 480));
     Message true (Some (clock 7 1)) (clip (silence 480))] in
  forallb clock_reads_time events = true /\
  List.length (audioSources (run events initial)) = 3%nat /\
  ForallOrdPairs (fun a b => Double.leb (endTime a) (startTime b) = true)
    (audioSources (run events initial)).
Proof.
  intros events. split; [reflexivity|]. split; [vm_compute; reflexivity|].
  exact (proj1 (scheduled_clips_never_overlap events eq_refl)).
Defined.

(** X22. While every clock reads a time, the cursor never holds NaN or a
    negative number, so [start] never raises for a negative time. When a
    clip arrives, [start] raises exactly when the cursor holds
    [+Infinity]; the node has then been added to the scheduled set, the
    cursor is left as it is, and the transcript and turn completion
    branches do not run. *)
Theorem start_raises_only_after_overflow (events : list Event) (ctx : AudioContext)
    (msg : LiveServerMessage) (audioBuffer : AudioUtils.AudioBuffer) :
  forallb clock_reads_time events = true ->
  Double.is_time (currentTime ctx) = true ->
  carries_clip ctx msg audioBuffer ->
  let st := run events initial in
  Double.is_cursor (nextStartTime st) = true /\
  ((exists st', onmessage true (Some ctx) msg st = Raised st') <->
   nextStartTime st = S754_infinity false) /\
  (forall st', onmessage true (Some ctx) msg st = Raised st' ->
     exists src,
       audioSources st' = audioSources st ++ [src] /\
       buffer src = audioBuffer /\
       nextStartTime st' = nextStartTime st /\
       transcription st' = transcription st).
Proof.
  intros Hclocks Hnow Hclip st.
  pose proof (run_in_order events Hclocks) as (Hcur & _ & _). fold st in Hcur.
  split; [exact Hcur|].
  set (start := if Double.ltb (nextStartTime st) (currentTime ctx)
                then currentTime ctx else nextStartTime st).
  assert (Hstart : accepts_start start = false <-> nextStartTime st = S754_infinity false).
  { unfold start. destruct (nextStartTime st) as [[|]|[|]| |[|] m e] eqn:E;
      try discriminate Hcur.
    - destruct (Double.ltb _ _);
        [rewrite (is_time_accepts _ Hnow) | cbn]; split; discriminate.
    - replace (Double.ltb (S754_infinity false) (currentTime ctx)) with false.
      + cbn. split; reflexivity.
      + destruct (currentTime ctx) as [[|]|[|]| |[|] m e]; try discriminate Hnow; reflexivity.
    - destruct (Double.ltb _ _);
        [rewrite (is_time_accepts _ Hnow) | cbn]; split; discriminate. }
  assert (Hcases :
    (accepts_start start = true /\ exists st', onmessage true (Some ctx) msg st = Returned st') \/
    (accepts_start start = false /\
     onmessage true (Some ctx) msg st =
       Raised (mkState (audioSources st ++ [mkSource (created st) audioBuffer start]) start
                 (transcription st) (stopped st) (S (created st))))).
  { destruct (accepts_start start) eqn:Eok.
    - left. split; [reflexivity|].
      destruct (onmessage_clip ctx msg audioBuffer st Hclip Eok) as (st' & _ & H & _).
      exists st'. exact H.
    - right. split; [reflexivity|].
      destruct Hclip as (Hint & audioData & pcmData & Hdata & Hne & Hdec & Hbuf).
      unfold onmessage, handleAudio. cbn [negb].
      rewrite Hint, Hdata, Hne, Hdec, Hbuf. fold start. rewrite Eok. reflexivity. }
  split.
  - rewrite <- Hstart. destruct Hcases as [[Hok [st' Hret]]|[Hno Hraise]].
    + split; [intros [st'' H]; congruence | congruence].
    + split; [intros _; exact Hno | intros _; eexists; exact Hraise].
  - intros st' Hraised. destruct Hcases as [[Hok [st'' Hret]]|[Hno Hraise]]; [congruence|].
    rewrite Hraise in Hraised. injection Hraised as <-.
    eexists. cbn [audioSources nextStartTime transcription].
    split; [reflexivity|]. split; [reflexivity|]. split; [|reflexivity].
    apply Hstart in Hno. unfold start. rewrite Hno.
    destruct (currentTime ctx) as [[|]|[|]| |[|] m e]; try discriminate Hnow; reflexivity.
Qed.

(** After a clip scheduled at time 5 the cursor is a finite number, and
    the next clip is started without an exception. *)
Lemma start_raises_only_after_overflow_witness :
  let events := [Message true (Some (clock 5 1)) (clip (silence 960))] in
  let ctx := clock 501 100 in
  let msg := clip (silence 480) in
  forallb clock_reads_time events = true /\
  Double.is_time (currentTime ctx) = true /\
  carries_clip ctx msg (AudioUtils.mkAudioBuffer 24000 (repeat (0 # 32768) 480)) /\
  nextStartTime (run events initial) <> S754_infinity false /\
  ~ (exists st', onmessage true (Some ctx) msg (run events initial) = Raised st').
Proof.
  intros events ctx msg.
  assert (Hclip : carries_clip ctx msg
                    (AudioUtils.mkAudioBuffer 24000 (repeat (0 # 32768) 480))).
  { split; [reflexivity|].
    exists (silence 480), (repeat x00%byte 960).
    repeat split; vm_compute; reflexivity. }
  assert (Hfinite : nextStartTime (run events initial) <> S754_infinity false)
    by (vm_compute; discriminate).
  split; [reflexivity|]. split; [vm_compute; reflexivity|]. split; [exact Hclip|].
  split; [exact Hfinite|].
  destruct (start_raises_only_after_overflow events ctx msg _ eq_refl eq_refl Hclip)
    as (_ & Hiff & _).
  intros Hraised. apply Hfinite, Hiff, Hraised.
Defined.

(** X17. A message whose audio payload contains a character that is
    neither base64, nor white space, nor padding makes the handler raise
    before anything is changed: no clip is scheduled, and transcript text
    or a turn completion carried by the same message is not applied. *)
Theorem undecodable_audio_drops_message (st : State) (ctx : AudioContext)
    (msg : LiveServerMessage) (audioData : string) (c : ascii) :
  interrupted msg = false ->
  inlineData msg = Some audioData ->
  In c (list_ascii_of_string audioData) ->
  AudioUtils.decode_char c = None ->
  AudioUtils.is_pad c = false ->
  AudioUtils.is_ascii_whitespace c = false ->
  onmessage true (Some ctx) msg st = Raised st /\
  step st (Message true (Some ctx) msg) = st.
Proof.
  intros Hint Hdata Hin Hdec Hpad Hws.
  assert (E : onmessage true (Some ctx) msg st = Raised st).
  { unfold onmessage, handleAudio. cbn [negb]. rewrite Hint, Hdata.
    destruct audioData as [|a rest]; [destruct Hin|]. cbn [is_empty].
    rewrite (atob_invalid_character _ c Hin Hdec Hpad Hws). reflexivity. }
  split; [exact E|]. cbn [step]. rewrite E. reflexivity.
Qed.

Lemma undecodable_audio_drops_message_witness :
  let msg := mkMessage false (Some "AA*A"%string) (Some "hello"%string) true in
  interrupted msg = false /\
  onmessage true (Some (clock 5 1)) msg initial = Raised initial /\
  transcription (step initial (Message true (Some (clock 5 1)) msg)) = EmptyString.
Proof.
  intros msg. split; [reflexivity|].
  destruct (undecodable_audio_drops_message initial (clock 5 1) msg "AA*A" "*"
              eq_refl eq_refl) as [H1 H2];
    [cbn; auto | reflexivity | reflexivity | reflexivity |].
  split; [exact H1|]. rewrite H2. reflexivity.
Defined.

(** ** Live session: what the transcript keeps *)

Lemma substring_all (s : string) : substring 0 (String.length s) s = s.
Proof. induction s as [|c s IH]; cbn; [reflexivity | rewrite IH; reflexivity]. Qed.

Lemma substring_tail (s : string) (n : nat) :
  (n <= String.length s)%nat ->
  exists pre, s = (pre ++ substring n (String.length s - n) s)%string /\
              String.length pre = n.
Proof.
  revert n. induction s as [|c s IH]; intros n Hn.
  - cbn [String.length] in Hn. assert (n = 0%nat) by lia. subst n.
    exists EmptyString. split; reflexivity.
  - destruct n as [|n].
    + exists EmptyString. rewrite Nat.sub_0_r, substring_all. split; reflexivity.
    + cbn [String.length] in Hn. destruct (IH n ltac:(lia)) as (pre & E & Hlen).
      exists (String c pre). cbn [String.length Nat.sub substring append].
      split; [f_equal; exact E | f_equal; exact Hlen].
Qed.

Lemma common_suffix (a b c d : string) :
  (a ++ b)%string = (c ++ d)%string ->
  (String.length b <= String.length d)%nat ->
  exists e, d = (e ++ b)%string.
Proof.
  revert a. induction c as [|x c IH]; intros a H Hlen.
  - exists a. cbn [append] in H. symmetry. exact H.
  - destruct a as [|y a]; cbn [append] in H.
    + exfalso. apply (f_equal String.length) in H. cbn [String.length] in H.
      rewrite string_length_append in H. lia.
    + injection H as _ H. exact (IH a H Hlen).
Qed.

(** X18. The transcript update loses nothing while the accumulated text
    has at most 2000 characters; beyond that it keeps exactly the last
    2000 characters behind an ellipsis; and a fragment of at most 2000
    characters is always kept whole, at the end of the transcript. *)
Theorem appendTranscript_keeps_newest (prev text : string) :
  ((String.length (prev ++ text) <= 2000)%nat ->
   appendTranscript prev text = (prev ++ text)%string) /\
  ((2000 < String.length (prev ++ text))%nat ->
   exists dropped kept,
     (prev ++ text)%string = (dropped ++ kept)%string /\
     String.length kept = 2000%nat /\
     appendTranscript prev text = ("..." ++ kept)%string) /\
  ((String.length text <= 2000)%nat ->
   exists head, appendTranscript prev text = (head ++ text)%string).
Proof.
  assert (Hlong : (2000 < String.length (prev ++ text))%nat ->
     exists dropped kept,
       (prev ++ text)%string = (dropped ++ kept)%string /\
       String.length kept = 2000%nat /\
       appendTranscript prev text = ("..." ++ kept)%string).
  { intros Hgt.
    destruct (substring_tail (prev ++ text) (String.length (prev ++ text) - 2000) ltac:(lia))
      as (pre & E & Hpre).
    replace (String.length (prev ++ text) - (String.length (prev ++ text) - 2000))%nat
      with 2000%nat in E by lia.
    exists pre, (substring (String.length (prev ++ text) - 2000) 2000 (prev ++ text)).
    split; [exact E|]. split.
    - pose proof (f_equal String.length E) as El.
      rewrite (string_length_append pre) in El. lia.
    - unfold appendTranscript, slice_last.
      destruct (Nat.ltb_spec 2000 (String.length (prev ++ text))); [reflexivity | lia]. }
  split; [|split; [exact Hlong|]].
  - intros Hle. unfold appendTranscript.
    destruct (Nat.ltb_spec 2000 (String.length (prev ++ text))); [lia | reflexivity].
  - intros Htext.
    destruct (Nat.le_gt_cases (String.length (prev ++ text)) 2000) as [Hle|Hgt].
    + exists prev. unfold appendTranscript.
      destruct (Nat.ltb_spec 2000 (String.length (prev ++ text))); [lia | reflexivity].
    + destruct (Hlong Hgt) as (dropped & kept & E & Hk & ->).
      destruct (common_suffix prev text dropped kept E ltac:(lia)) as (e & ->).
      exists ("..." ++ e)%string. cbn [append]. reflexivity.
Qed.

Lemma handleAudio_transcription ctx msg st :
  transcription (state_of (handleAudio ctx msg st)) = transcription st.
Proof.
  unfold handleAudio.
  destruct (inlineData msg) as [audioData|]; [|reflexivity].
  destruct ctx as [ctx|]; [|reflexivity].
  destruct (is_empty audioData); [reflexivity|].
  destruct (AudioUtils.base64ToUint8Array audioData) as [pcmData|]; [|reflexivity].
  destruct (AudioUtils.pcmToAudioBuffer pcmData ctx 24000) as [audioBuffer|]; [|reflexivity].
  destruct (accepts_start _); reflexivity.
Qed.

Lemma step_transcript_growth st ev :
  (String.length (transcription (step st ev)) <=
   Nat.max (String.length (transcription st) + 17) 2007)%nat.
Proof.
  destruct ev as [isMounted ctx msg|n]; cbn [step]; [|cbn [onended transcription]; lia].
  unfold onmessage. destruct isMounted; cbn [negb state_of]; [|lia].
  destruct (interrupted msg).
  - cbn [handleInterruption transcription state_of]. rewrite string_length_append.
    change (String.length INTERRUPTED_MARK) with 17%nat. lia.
  - pose proof (handleAudio_transcription ctx msg st) as E.
    destruct (handleAudio ctx msg st) as [st1|st1]; cbn [state_of] in *;
      [|rewrite E; lia].
    assert (H1 : (String.length (transcription (handleTranscription msg st1)) <=
                  Nat.max (String.length (transcription st)) 2003)%nat).
    { unfold handleTranscription. destruct (outputTranscription msg) as [text|];
        [|rewrite E; lia].
      destruct (is_empty text); [rewrite E; lia|]. cbn [transcription].
      pose proof (proj1 (appendTranscript_capped (transcription st1) text)). lia. }
    unfold handleTurnComplete. destruct (turnComplete msg); [|lia].
    cbn [transcription]. rewrite string_length_append.
    change (String.length TURN_SEPARATOR) with 4%nat. lia.
Qed.

(** X19. Each event of the download flow either leaves the transcript
    with at most 2007 characters or lengthens it by at most 17, so [n]
    events take a transcript of length [k] to at most
    [max k 2007 + 17 n] characters; and right after a message that carries
    a transcript fragment the transcript has at most 2007 characters. *)
Theorem transcript_growth_bound (events : list Event) (st : State) :
  (String.length (transcription (run events st)) <=
   Nat.max (String.length (transcription st)) 2007 + 17 * List.length events)%nat /\
  (forall ctx msg text,
     interrupted msg = false -> outputTranscription msg = Some text ->
     is_empty text = false ->
     forall st', onmessage true ctx msg (run events st) = Returned st' ->
     (String.length (transcription st') <= 2007)%nat).
Proof.
  split.
  - revert st. induction events as [|ev events IH]; intros st.
    + cbn [run fold_left List.length]. lia.
    + unfold run in *. cbn [fold_left List.length].
      specialize (IH (step st ev)). pose proof (step_transcript_growth st ev). lia.
  - intros ctx msg text Hint Htext Hne st'. unfold onmessage. cbn [negb]. rewrite Hint.
    destruct (handleAudio ctx msg (run events st)) as [st1|st1]; [|discriminate].
    intros [= <-].
    assert (H1 : (String.length (transcription (handleTranscription msg st1)) <= 2003)%nat).
    { unfold handleTranscription. rewrite Htext, Hne. cbn [transcription].
      exact (proj1 (appendTranscript_capped (transcription st1) text)). }
    unfold handleTurnComplete. destruct (turnComplete msg); [|lia].
    cbn [transcription]. rewrite string_length_append.
    change (String.length TURN_SEPARATOR) with 4%nat. lia.
Qed.

(** ** Analysis card *)

(** X20. The card is total on the threat level, which arrives unchecked:
    only [Critical], [High] and [Medium] get a colour of their own and
    every other text gets the colour of [Low]; the reassuring icon is
    shown for [Low] alone, so a level outside the four values is shown in
    the [Low] colour with the warning icon. *)
Theorem threat_level_display (level : string) :
  (IncidentAnalysisCard.getThreatColor level = IncidentAnalysisCard.getThreatColor "Low" <->
   level <> "Critical"%string /\ level <> "High"%string /\ level <> "Medium"%string) /\
  (IncidentAnalysisCard.ThreatIcon level = IncidentAnalysisCard.CheckCircle <->
   level = "Low"%string) /\
  (IncidentAnalysisCard.ThreatIcon level = IncidentAnalysisCard.ShieldAlert <->
   level = "Critical"%string) /\
  (level <> "Low"%string -> level <> "Medium"%string -> level <> "High"%string ->
   level <> "Critical"%string ->
   IncidentAnalysisCard.getThreatColor level = IncidentAnalysisCard.getThreatColor "Low" /\
   IncidentAnalysisCard.ThreatIcon level = IncidentAnalysisCard.ThreatIcon "High").
Proof.
  destruct (String.eqb_spec level "Critical") as [->|Hc];
    [vm_compute; intuition (discriminate || congruence)|].
  destruct (String.eqb_spec level "High") as [->|Hh];
    [vm_compute; intuition (discriminate || congruence)|].
  destruct (String.eqb_spec level "Medium") as [->|Hm];
    [vm_compute; intuition (discriminate || congruence)|].
  destruct (String.eqb_spec level "Low") as [->|Hl];
    [vm_compute; intuition (discriminate || congruence)|].
  unfold IncidentAnalysisCard.getThreatColor, IncidentAnalysisCard.ThreatIcon.
  apply String.eqb_neq in Hc, Hh, Hm, Hl. rewrite Hc, Hh, Hm, Hl.
  apply String.eqb_neq in Hc, Hh, Hm, Hl.
  change ("Low" =? "Critical")%string with false. change ("Low" =? "High")%string with false.
  change ("Low" =? "Medium")%string with false. change ("High" =? "Low")%string with false.
  change ("High" =? "Critical")%string with false. cbv iota.
  intuition (discriminate || congruence).
Qed.

(** ** Ring buffer: the two prunes *)


(** X21. The capture-side prune and the periodic sweep agree except on the
    boundary: on a time-ordered buffer the sweep leaves what the prune at
    the same [now] leaves, minus the fragments that are exactly 30 minutes
    old, which the prune keeps and the sweep drops. *)
Theorem sweep_is_prune_without_boundary (now : Z) (chunks : list AudioChunk.t) :
  RingBuffer.time_ordered chunks = true ->
  fst (App.bufferSizeTick now chunks) =
    filter (fun c => negb (AudioChunk.timestamp c =? now - App.BUFFER_DURATION_MS))
      (App.prune now chunks) /\
  (forall c, In c (App.prune now chunks) ->
     In c (fst (App.bufferSizeTick now chunks)) \/
     AudioChunk.timestamp c = now - 1800000).
Proof.
  intros Hord.
  assert (E : fst (App.bufferSizeTick now chunks) =
    filter (fun c => negb (AudioChunk.timestamp c =? now - App.BUFFER_DURATION_MS))
      (App.prune now chunks)).
  { rewrite bufferSizeTick_fst. unfold App.prune.
    rewrite (prune_loop_filter _ _ Hord), filter_filter_and.
    apply filter_ext. intros c. unfold App.BUFFER_DURATION_MS.
    destruct (Z.ltb_spec (now - AudioChunk.timestamp c) (30 * 60 * 1000));
      destruct (Z.leb_spec (now - 30 * 60 * 1000) (AudioChunk.timestamp c));
      destruct (Z.eqb_spec (AudioChunk.timestamp c) (now - 30 * 60 * 1000));
      cbn [andb negb]; try reflexivity; lia. }
  split; [exact E|].
  intros c Hc. rewrite E.
  destruct (Z.eqb_spec (AudioChunk.timestamp c) (now - App.BUFFER_DURATION_MS)) as [Eb|Nb].
  - right. unfold App.BUFFER_DURATION_MS in Eb. lia.
  - left. apply filter_In. split; [exact Hc|].
    apply negb_true_iff, Z.eqb_neq. exact Nb.
Qed.

Lemma sweep_is_prune_without_boundary_witness :
  let b := RingBuffer.tick_payload 1 in
  let chunks := [AudioChunk.mk b 1000; AudioChunk.mk b 200000; AudioChunk.mk b 2000000] in
  RingBuffer.time_ordered chunks = true /\
  App.prune 2000000 chunks = [AudioChunk.mk b 200000; AudioChunk.mk b 2000000] /\
  fst (App.bufferSizeTick 2000000 chunks) = [AudioChunk.mk b 2000000].
Proof.
  intros b chunks. split; [reflexivity|]. split; [reflexivity|].
  rewrite (proj1 (sweep_is_prune_without_boundary 2000000 chunks eq_refl)). reflexivity.
Defined.
